(** * npm-utils: the [run] command

    A shallow embedding of [src/main/run.ts] and [src/main/colors.ts]:
    the script-name wildcard resolver, the sequential and parallel
    execution engine and the output buffer used in parallel mode.

    Conventions of the embedding.
    - A JavaScript string is a [string]; every [ascii] stands for one
      UTF-16 code unit in the range 0..255.
    - [process.env] and the environment handed to [spawn] are finite maps
      from variable names to values ([gmap string string]).
    - [runningCommands] (a [Set]) and [buffers] (a [Map]) iterate in
      insertion order, so they are a duplicate-free list and an
      association list.
    - The event loop is a list of events; every event is tagged with the
      child process it comes from (numbered in spawn order). *)

From Stdlib Require Import String Ascii List ZArith Lia Bool DecimalString Decimal DecimalZ.
From stdpp Require Import gmap strings.
Import ListNotations.

Open Scope string_scope.
Open Scope list_scope.

(** * Part I: the program *)

(** ** Strings *)

Module Str.

(** [s.includes(c)] for a one-character needle. *)
Fixpoint includes (c : ascii) (s : string) : bool :=
  match s with
  | EmptyString => false
  | String c' s' => Ascii.eqb c' c || includes c s'
  end.

(** [xs.join(sep)] *)
Fixpoint join (sep : string) (xs : list string) : string :=
  match xs with
  | [] => ""
  | [x] => x
  | x :: xs' => x +:+ sep +:+ join sep xs'
  end.

(** [String(n)] for a non-negative integer. *)
Definition of_nat (n : nat) : string := NilZero.string_of_uint (Nat.to_uint n).

(** [String(z)] for an integer. *)
Definition of_Z (z : Z) : string := NilZero.string_of_int (Z.to_int z).

(** The line feed, written [\n] in the source. *)
Definition nl : string := String "010" "".

End Str.

(** ** Regular expressions

    The fragment of JavaScript regular expressions that [commandToRegExp]
    produces: assertions [^] and [$], literal characters (plain or
    escaped with a backslash), the class [[^:]+] and the wildcard [.*]. *)

Module RegExp.

Inductive token : Type :=
| TStart                (* ^ *)
| TEnd                  (* $ *)
| TLit (c : ascii)      (* c  or  \c *)
| TSeg                  (* [^:]+ *)
| TAny.                 (* .* *)

Definition t : Type := list token.

(** The characters with a meaning of their own in a pattern. *)
Definition is_syntax_char (c : ascii) : bool :=
  Str.includes c "^$\.*+?()[]{}|".

(** [new RegExp(source)], on the fragment above; [None] stands for the
    [SyntaxError] (or for a construct outside the fragment). *)
Fixpoint parse (src : string) : option t :=
  match src with
  | EmptyString => Some []
  | String c s1 =>
      if Ascii.eqb c "\" then
        match s1 with
        | String c2 s2 =>
            if is_syntax_char c2 then option_map (cons (TLit c2)) (parse s2) else None
        | EmptyString => None
        end
      else if Ascii.eqb c "^" then option_map (cons TStart) (parse s1)
      else if Ascii.eqb c "$" then option_map (cons TEnd) (parse s1)
      else if Ascii.eqb c "." then
        match s1 with
        | String c2 s2 =>
            if Ascii.eqb c2 "*" then option_map (cons TAny) (parse s2) else None
        | EmptyString => None
        end
      else if Ascii.eqb c "[" then
        match s1 with
        | String c2 (String c3 (String c4 (String c5 s5))) =>
            if Ascii.eqb c2 "^" && Ascii.eqb c3 ":" && Ascii.eqb c4 "]" && Ascii.eqb c5 "+"
            then option_map (cons TSeg) (parse s5) else None
        | _ => None
        end
      else if is_syntax_char c then None
      else option_map (cons (TLit c)) (parse s1)
  end.

(** Line terminators, which [.] does not match (no [s] flag). Among the
    code units 0..255 these are LF and CR. *)
Definition is_line_terminator (c : ascii) : bool :=
  Ascii.eqb c "010" || Ascii.eqb c "013".

(** Does [r] match a prefix of [s]? [at_start] tells whether [s] is the
    whole input, which is what [^] asserts (no [m] flag); [$] asserts
    that nothing is left. *)
Fixpoint match_here (r : t) (at_start : bool) (s : string) {struct r} : bool :=
  match r with
  | [] => true
  | TStart :: r' => at_start && match_here r' at_start s
  | TEnd :: r' =>
      match s with
      | EmptyString => match_here r' at_start s
      | String _ _ => false
      end
  | TLit c :: r' =>
      match s with
      | String c' s' => Ascii.eqb c' c && match_here r' false s'
      | EmptyString => false
      end
  | TSeg :: r' =>
      (fix plus (s : string) : bool :=
         match s with
         | String c s' => negb (Ascii.eqb c ":") && (plus s' || match_here r' false s')
         | EmptyString => false
         end) s
  | TAny :: r' =>
      (fix star (b : bool) (s : string) : bool :=
         match s with
         | String c s' => (negb (is_line_terminator c) && star false s') || match_here r' b s
         | EmptyString => match_here r' b s
         end) at_start s
  end.

(** [r.exec(s) !== null]: a match may begin at any index of [s]. *)
Fixpoint search (r : t) (at_start : bool) (s : string) : bool :=
  match_here r at_start s ||
  match s with
  | String _ s' => search r false s'
  | EmptyString => false
  end.

Definition test (r : t) (s : string) : bool := search r true s.

End RegExp.

(** ** Wildcard resolver *)

(** The character class of the first [replace] in [commandToRegExp]:
    [/[.+?^${}()|[\]\\]/g]. *)
Definition is_special (c : ascii) : bool := Str.includes c ".+?^${}()|[]\".

(** [command.replace(/[.+?^${}()|[\]\\]/g, '\\$&')] *)
Fixpoint escape (s : string) : string :=
  match s with
  | EmptyString => EmptyString
  | String c s' =>
      if is_special c then String "\" (String c (escape s')) else String c (escape s')
  end.

(** The replacement of one run of asterisks:
    [(a) => a.length === 1 ? "[^:]+" : ".*"]; there is nothing to replace
    where there is no asterisk. *)
Definition star_replacement (run : nat) : string :=
  match run with
  | 0 => ""
  | 1 => "[^:]+"
  | _ => ".*"
  end.

(** [s.replace(/\*+/g, ...)]: [run] counts the asterisks of the run being
    read; a run ends at the first other character or at the end. *)
Fixpoint replace_stars (run : nat) (s : string) : string :=
  match s with
  | EmptyString => star_replacement run
  | String c s' =>
      if Ascii.eqb c "*" then replace_stars (S run) s'
      else star_replacement run +:+ String c (replace_stars 0 s')
  end.

Definition regexp_source (command : string) : string :=
  "^" +:+ replace_stars 0 (escape command) +:+ "$".

Definition commandToRegExp (command : string) : option RegExp.t :=
  RegExp.parse (regexp_source command).

(** [packageJSON.scripts]: the entries of the manifest's [scripts] object,
    in the order [Object.keys] lists them. *)
Definition scripts : Type := list (string * string).

Definition existingCommands (R : scripts) : list string := map fst R.

(** What one pattern contributes to the result of [flatMap]. [None] is a
    pattern that [new RegExp] refuses. *)
Definition resolveCommand (existing : list string) (command : string) : option (list string) :=
  if Str.includes "*" command then
    match commandToRegExp command with
    | Some regexp => Some (List.filter (fun existingCommand => RegExp.test regexp existingCommand) existing)
    | None => None
    end
  else Some [command].

Fixpoint flatMap (f : string -> option (list string)) (xs : list string) : option (list string) :=
  match xs with
  | [] => Some []
  | x :: xs' =>
      match f x, flatMap f xs' with
      | Some ys, Some zs => Some (ys ++ zs)
      | _, _ => None
      end
  end.

Definition resolveCommands (R : scripts) (commands : list string) : option (list string) :=
  flatMap (resolveCommand (existingCommands R)) commands.

(** ** Colour level ([colors.ts]) *)

(** What the program reads from its own process: [process.env], and the
    result of [getColorDepth] on the two output streams ([None] where the
    stream has no such method). *)
Record process : Type := {
  env : gmap string string;
  stdout_depth : option Z;
  stderr_depth : option Z
}.

Definition getColorLevel (p : process) : Z :=
  let depth := Z.min (default 1%Z (stdout_depth p)) (default 1%Z (stderr_depth p)) in
  if (depth =? 4)%Z then 1%Z
  else if (depth =? 8)%Z then 2%Z
  else if (depth =? 24)%Z then 3%Z
  else 0%Z.

(** ** Execution engine and output buffer *)

(** [process.stdout] and [process.stderr]. *)
Inductive Stream : Type := Stdout | Stderr.

(** An entry [{ stream, text }] of a buffer. *)
Record chunk : Type := { stream : Stream; text : string }.

(** One call of [stream.write(text)]. [by_command] is the command on
    whose behalf the call is made; the stream receives [written] only. *)
Record write_call : Type := { by_command : string; written : chunk }.

Record Error : Type := { message : string }.

Inductive stdio : Type := Inherit | Pipe.

(** The arguments of one call of [spawn]. *)
Record spawn_call : Type := {
  sp_file : string;
  sp_args : list string;
  sp_stdio : list stdio;
  sp_env : gmap string string
}.

Inductive promise : Type :=
| Pending
| Resolved
| Rejected (e : Error).

(** A started child, with what its event handlers have captured, and the
    promise [runCommand] returned for it. *)
Record child : Type := {
  ch_command : string;
  ch_parallel : bool;
  ch_promise : promise
}.

Record RunOptions : Type := { parallel : bool; silent : bool }.

(** The module's variables ([runningCommands], [buffers]), the output
    streams, the calls of [spawn] and the children so far, and the
    [errors] array of [run]. Children are numbered in spawn order. *)
Record state : Type := {
  runningCommands : list string;
  buffers : list (string * list chunk);
  console : list write_call;
  spawns : list spawn_call;
  children : list child;
  errors : list Error
}.

Definition init : state :=
  {| runningCommands := []; buffers := []; console := []; spawns := [];
     children := []; errors := [] |}.

(** [set.add(x)]: no effect on a member, else last in iteration order. *)
Definition set_add (x : string) (set : list string) : list string :=
  if existsb (String.eqb x) set then set else set ++ [x].

(** [set.delete(x)] *)
Definition set_delete (x : string) (set : list string) : list string :=
  List.filter (fun y => negb (String.eqb x y)) set.

(** [map.get(key)] *)
Fixpoint map_get (key : string) (m : list (string * list chunk)) : option (list chunk) :=
  match m with
  | [] => None
  | (k, v) :: m' => if String.eqb key k then Some v else map_get key m'
  end.

(** [map.delete(key)] *)
Definition map_delete (key : string) (m : list (string * list chunk)) : list (string * list chunk) :=
  List.filter (fun kv => negb (String.eqb key (fst kv))) m.

(** [map.get(key).push(x)] on a present key: the array is changed in
    place, the key keeps its position. *)
Fixpoint map_push (key : string) (x : chunk) (m : list (string * list chunk))
  : list (string * list chunk) :=
  match m with
  | [] => []
  | (k, v) :: m' =>
      if String.eqb key k then (k, v ++ [x]) :: m' else (k, v) :: map_push key x m'
  end.

Definition getPrimaryCommand (st : state) : option string :=
  head (runningCommands st).

Definition is_primary (command : string) (st : state) : bool :=
  match getPrimaryCommand st with
  | Some c => String.eqb c command
  | None => false
  end.

Definition write (stream : Stream) (text : string) (command : string) (st : state) : state :=
  let data := {| stream := stream; text := text |} in
  if is_primary command st then
    {| runningCommands := runningCommands st;
       buffers := buffers st;
       console := console st ++ [{| by_command := command; written := data |}];
       spawns := spawns st; children := children st; errors := errors st |}
  else
    let buffers1 :=
      match map_get command (buffers st) with
      | Some _ => buffers st
      | None => buffers st ++ [(command, [])]
      end in
    {| runningCommands := runningCommands st;
       buffers := map_push command data buffers1;
       console := console st;
       spawns := spawns st; children := children st; errors := errors st |}.

Definition flush (command : option string) (st : state) : state :=
  match command with
  | Some command =>
      match map_get command (buffers st) with
      | Some buffer =>
          {| runningCommands := runningCommands st;
             buffers := map_delete command (buffers st);
             console := console st
                        ++ map (fun data => {| by_command := command; written := data |}) buffer;
             spawns := spawns st; children := children st; errors := errors st |}
      | None => st
      end
  | None => st
  end.

(** The loop visits the keys in insertion order; [flush] deletes only the
    entry being visited, which the iterator of a [Map] allows. *)
Definition flushAll (st : state) : state :=
  fold_left (fun st command => flush (Some command) st) (map fst (buffers st)) st.

(** The environment given to the child: [{ ...process.env }], and
    [env.FORCE_COLOR ??= String(getColorLevel())] when [parallel]. *)
Definition child_env (p : process) (parallel : bool) : gmap string string :=
  if parallel then
    match env p !! "FORCE_COLOR" with
    | Some _ => env p
    | None => <["FORCE_COLOR" := Str.of_Z (getColorLevel p)]> (env p)
    end
  else env p.

Definition npmOptions (silent : bool) : list string :=
  if silent then ["-s"] else [].

Definition spawn_of (p : process) (command : string) (o : RunOptions) : spawn_call :=
  {| sp_file := "npm";
     sp_args := ["run"] ++ npmOptions (silent o) ++ [command];
     sp_stdio := [Inherit; if parallel o then Pipe else Inherit; if parallel o then Pipe else Inherit];
     sp_env := child_env p (parallel o) |}.

(** The synchronous part of [runCommand]: the command is recorded as
    running, the child is spawned and its handlers are installed. *)
Definition runCommand (p : process) (command : string) (o : RunOptions) (st : state) : state :=
  {| runningCommands := set_add command (runningCommands st);
     buffers := buffers st;
     console := console st;
     spawns := spawns st ++ [spawn_of p command o];
     children := children st
                 ++ [{| ch_command := command; ch_parallel := parallel o; ch_promise := Pending |}];
     errors := errors st |}.

(** What a child emits: ['data'] on its piped [stdout] or [stderr],
    ['error'], and ['close'] with the exit code ([None] is [null]). *)
Inductive child_event : Type :=
| Data (s : Stream) (text : string)
| Errored (e : Error)
| Close (code : option Z).

(** An event of the loop: the number of the child and what it emits. *)
Abbreviation event := (nat * child_event)%type (only parsing).

Definition code_text (code : option Z) : string :=
  match code with
  | Some n => Str.of_Z n
  | None => "null"
  end.

(** [new Error(`${command} exited with code ${code}`)] *)
Definition exit_error (command : string) (code : option Z) : Error :=
  {| message := command +:+ " exited with code " +:+ code_text code |}.

Definition is_zero (code : option Z) : bool :=
  match code with
  | Some n => (n =? 0)%Z
  | None => false
  end.

Definition set_promise (pr : promise) (ch : child) : child :=
  {| ch_command := ch_command ch; ch_parallel := ch_parallel ch; ch_promise := pr |}.

(** [resolve()] of child [pid]: a settled promise stays as it is. *)
Definition resolve (pid : nat) (st : state) : state :=
  match children st !! pid with
  | Some {| ch_promise := Pending |} =>
      {| runningCommands := runningCommands st; buffers := buffers st;
         console := console st; spawns := spawns st;
         children := alter (set_promise Resolved) pid (children st);
         errors := errors st |}
  | _ => st
  end.

(** [reject(e)] of child [pid]. The children that [run] starts in
    parallel are those with [promise.catch(error => errors.push(error))]
    attached, which runs when the promise is rejected. *)
Definition reject (pid : nat) (e : Error) (st : state) : state :=
  match children st !! pid with
  | Some ({| ch_promise := Pending |} as ch) =>
      {| runningCommands := runningCommands st; buffers := buffers st;
         console := console st; spawns := spawns st;
         children := alter (set_promise (Rejected e)) pid (children st);
         errors := if ch_parallel ch then errors st ++ [e] else errors st |}
  | _ => st
  end.

(** The ['close'] handler up to the exit code. *)
Definition on_close (command : string) (st : state) : state :=
  let st1 :=
    {| runningCommands := set_delete command (runningCommands st);
       buffers := buffers st; console := console st; spawns := spawns st;
       children := children st; errors := errors st |} in
  flush (getPrimaryCommand st1) st1.

(** The handlers that [runCommand] installs on a child. The ['data']
    handlers exist only when [parallel]. *)
Definition handle (ev : event) (st : state) : state :=
  let (pid, e) := ev in
  match children st !! pid with
  | Some ch =>
      match e with
      | Data s text =>
          if ch_parallel ch then write s text (ch_command ch) st else st
      | Errored err => reject pid err st
      | Close code =>
          let st1 := on_close (ch_command ch) st in
          if is_zero code then resolve pid st1
          else reject pid (exit_error (ch_command ch) code) st1
      end
  | None => st
  end.

Definition handle_all (evs : list event) (st : state) : state :=
  fold_left (fun st ev => handle ev st) evs st.

Definition settled (pr : promise) : bool :=
  match pr with
  | Pending => false
  | _ => true
  end.

Definition promise_of (pid : nat) (st : state) : promise :=
  match children st !! pid with
  | Some ch => ch_promise ch
  | None => Pending
  end.

(** [await promise] of child [pid]: the loop handles events until the
    promise is settled; [None] when the events end before that. The
    events not handled yet are returned. *)
Fixpoint await (pid : nat) (evs : list event) (st : state) : option (state * list event) :=
  if settled (promise_of pid st) then Some (st, evs)
  else
    match evs with
    | [] => None
    | ev :: evs' => await pid evs' (handle ev st)
    end.

Definition all_settled (st : state) : bool :=
  forallb (fun ch => settled (ch_promise ch)) (children st).

(** [await Promise.allSettled(promises)] *)
Fixpoint await_all (evs : list event) (st : state) : option (state * list event) :=
  if all_settled st then Some (st, evs)
  else
    match evs with
    | [] => None
    | ev :: evs' => await_all evs' (handle ev st)
    end.

(** What [run] throws. *)
Inductive thrown : Type :=
| ThrowError (e : Error)
| ThrowAggregate (errors : list Error) (message : string).

Inductive completion : Type :=
| Return
| Throw (t : thrown).

(** [`Execution of ${errors.length} commands failed\n  ${messages.join("\n  ")}`] *)
Definition aggregate_message (errors : list Error) : string :=
  "Execution of " +:+ Str.of_nat (length errors) +:+ " commands failed" +:+ Str.nl +:+ "  "
  +:+ Str.join (Str.nl +:+ "  ") (map message errors).

(** "Handle gathered errors" *)
Definition gathered (errors : list Error) : completion :=
  match errors with
  | [] => Return
  | [e] => Throw (ThrowError e)
  | _ => Throw (ThrowAggregate errors (aggregate_message errors))
  end.

Definition start_all (p : process) (commands : list string) (o : RunOptions) (st : state) : state :=
  fold_left (fun st command => runCommand p command o st) commands st.

(** The parallel branch of [run]. *)
Definition run_parallel (p : process) (commands : list string) (o : RunOptions)
    (evs : list event) (st : state) : option (state * completion * list event) :=
  let st1 := start_all p commands o st in
  match await_all evs st1 with
  | Some (st2, rest) =>
      let st3 := flushAll st2 in
      Some (st3, gathered (errors st3), rest)
  | None => None
  end.

(** The sequential branch of [run]. *)
Fixpoint run_sequential (p : process) (commands : list string) (o : RunOptions)
    (evs : list event) (st : state) : option (state * completion * list event) :=
  match commands with
  | [] => Some (st, Return, evs)
  | command :: commands' =>
      let pid := length (children st) in
      let st1 := runCommand p command {| parallel := false; silent := silent o |} st in
      match await pid evs st1 with
      | Some (st2, rest) =>
          match promise_of pid st2 with
          | Rejected e => Some (st2, Throw (ThrowError e), rest)
          | _ => run_sequential p commands' o rest st2
          end
      | None => None
      end
  end.

(** What the first three lines of [resolveCommands] give.
    - [NotFound]: no directory up to the root holds a [package.json], and
      [findNearestPackageJson] throws.
    - [Unusable e]: [readFile] or [JSON.parse] throws [e] (the file cannot
      be read or is not JSON), or the parsed value has no [scripts]
      object and [packageJSON.scripts] or [Object.keys] throws the
      [TypeError] [e].
    - [Scripts R]: the scripts were read. *)
Inductive manifest : Type :=
| NotFound
| Unusable (e : Error)
| Scripts (R : scripts).

(** [run(commands, options)]. Whatever [resolveCommands] throws is thrown
    by [run] before any command is started. The result is [None] when the
    events end before [run] does. *)
Definition run (p : process) (m : manifest) (commands : list string)
    (o : RunOptions) (evs : list event) : option (state * completion * list event) :=
  match m with
  | NotFound => Some (init, Throw (ThrowError {| message := "Unable to locale package.json" |}), evs)
  | Unusable e => Some (init, Throw (ThrowError e), evs)
  | Scripts R =>
      match resolveCommands R commands with
      | None => Some (init, Throw (ThrowError {| message := "Invalid regular expression" |}), evs)
      | Some commands =>
          if parallel o && (1 <? length commands)%nat
          then run_parallel p commands o evs init
          else run_sequential p commands o evs init
      end
  end.

(** The result of [parseArgs]. *)
Record arguments : Type := {
  arg_parallel : bool;
  arg_silent : bool;
  arg_help : bool;
  arg_version : bool;
  positionals : list string
}.

Definition thrown_message (t : thrown) : string :=
  match t with
  | ThrowError e => message e
  | ThrowAggregate _ m => m
  end.

(** What the call of [parseArgs] gives: it throws [e] (an unknown option,
    for instance) or returns the values and the positionals. *)
Inductive parsed : Type :=
| Refused (e : Error)
| Parsed (a : arguments).

(** [main]: the exit code, what [console.error] printed, and the state. *)
Definition main (p : process) (m : manifest) (args : parsed) (evs : list event)
  : option (Z * list string * state) :=
  match args with
  | Refused e => Some (1%Z, ["run: " +:+ message e], init)
  | Parsed a =>
      if arg_help a then Some (0%Z, [], init)
      else if arg_version a then Some (0%Z, [], init)
      else
        match positionals a with
        | [] => Some (2%Z, ["run: missing script name" +:+ Str.nl
                          +:+ "Try 'cmd --help' for more information."], init)
        | _ =>
            match run p m (positionals a)
                    {| parallel := arg_parallel a; silent := arg_silent a |} evs with
            | Some (st, Return, _) => Some (0%Z, [], st)
            | Some (st, Throw t, _) => Some (1%Z, ["run: " +:+ thrown_message t], st)
            | None => None
            end
        end
  end.

(** ** Vocabulary of the specification *)

(** [strip_prefix prefix s] is what follows [prefix] in [s]. *)
Fixpoint strip_prefix (prefix s : string) : option string :=
  match prefix, s with
  | EmptyString, _ => Some s
  | String a prefix', String b s' =>
      if Ascii.eqb b a then strip_prefix prefix' s' else None
  | String _ _, EmptyString => None
  end.

(** A segment: one or more characters, none of them a colon. *)
Definition is_segment (s : string) : bool :=
  negb (String.eqb s "") && negb (Str.includes ":" s).

(** [name] is [X], a colon and exactly one further segment. *)
Definition is_child_of (X name : string) : bool :=
  match strip_prefix (X +:+ ":") name with
  | Some rest => is_segment rest
  | None => false
  end.

(** [s] cut at its colons. *)
Fixpoint split_colon (s : string) : list string :=
  match s with
  | EmptyString => [""]
  | String c s' =>
      if Ascii.eqb c ":" then "" :: split_colon s'
      else
        match split_colon s' with
        | seg :: segs => String c seg :: segs
        | [] => [String c ""]
        end
  end.

(** [name] is [X], a colon and one or more further segments, each
    introduced by a colon. *)
Definition is_descendant_of (X name : string) : bool :=
  match strip_prefix (X +:+ ":") name with
  | Some rest => forallb is_segment (split_colon rest)
  | None => false
  end.

(** [name] begins with [X] and a colon. *)
Definition has_prefix (X name : string) : bool :=
  match strip_prefix (X +:+ ":") name with
  | Some _ => true
  | None => false
  end.

Fixpoint no_line_terminator (s : string) : bool :=
  match s with
  | EmptyString => true
  | String c s' => negb (RegExp.is_line_terminator c) && no_line_terminator s'
  end.

(** The tokens of the regular expression of a pattern, read off the
    pattern: a run of one asterisk is [[^:]+], a longer run is [.*], any
    other character is itself. *)
Definition star_tokens (run : nat) : RegExp.t :=
  match run with
  | 0 => []
  | 1 => [RegExp.TSeg]
  | _ => [RegExp.TAny]
  end.

Fixpoint pattern_tokens (run : nat) (s : string) : RegExp.t :=
  match s with
  | EmptyString => star_tokens run
  | String c s' =>
      if Ascii.eqb c "*" then pattern_tokens (S run) s'
      else star_tokens run ++ RegExp.TLit c :: pattern_tokens 0 s'
  end.

Fixpoint lits (s : string) : RegExp.t :=
  match s with
  | EmptyString => []
  | String c s' => RegExp.TLit c :: lits s'
  end.


(** What the output streams received on behalf of [command], in order. *)
Definition written_for (command : string) (st : state) : list chunk :=
  map written (List.filter (fun w => String.eqb (by_command w) command) (console st)).

(** What is still buffered for [command]. *)
Definition buffered_for (command : string) (st : state) : list chunk :=
  default [] (map_get command (buffers st)).

Definition is_final (e : child_event) : bool :=
  match e with
  | Data _ _ => false
  | _ => true
  end.

(** The events come from the [n] children that were started, and a child
    emits no data once it has emitted ['error'] or ['close']. *)
Fixpoint orderly (n : nat) (ended : list nat) (evs : list event) : bool :=
  match evs with
  | [] => true
  | (pid, e) :: evs' =>
      (pid <? n)%nat &&
      if is_final e then orderly n (pid :: ended) evs'
      else negb (existsb (Nat.eqb pid) ended) && orderly n ended evs'
  end.

(** Every one of the [n] children emits ['error'] or ['close']. *)
Definition all_end (n : nat) (evs : list event) : bool :=
  forallb (fun pid => existsb (fun ev => Nat.eqb (fst ev) pid && is_final (snd ev)) evs) (seq 0 n).

(** The failures among the events, in the order they occur: for each
    child the first ['error'] or ['close'] counts, and it is a failure
    unless it is a ['close'] with code 0. [ended] lists the children
    that have had theirs. *)
Fixpoint failures (commands : list string) (ended : list nat) (evs : list event) : list Error :=
  match evs with
  | [] => []
  | (pid, e) :: evs' =>
      match commands !! pid with
      | Some command =>
          if existsb (Nat.eqb pid) ended then failures commands ended evs'
          else
            match e with
            | Data _ _ => failures commands ended evs'
            | Errored err => err :: failures commands (pid :: ended) evs'
            | Close code =>
                if is_zero code then failures commands (pid :: ended) evs'
                else exit_error command code :: failures commands (pid :: ended) evs'
            end
      | None => failures commands ended evs'
      end
  end.

(** What an event of a child does to the promise of that child. *)
Definition step_promise (command : string) (e : child_event) (pr : promise) : promise :=
  match pr with
  | Pending =>
      match e with
      | Data _ _ => Pending
      | Errored err => Rejected err
      | Close code => if is_zero code then Resolved else Rejected (exit_error command code)
      end
  | _ => pr
  end.

Definition step_child (e : child_event) (ch : child) : child :=
  set_promise (step_promise (ch_command ch) e (ch_promise ch)) ch.

(** The error that an event of a pending child records, if any. *)
Definition failure_of (command : string) (e : child_event) : list Error :=
  match e with
  | Data _ _ => []
  | Errored err => [err]
  | Close code => if is_zero code then [] else [exit_error command code]
  end.

(** Everything emitted so far for [command] that is written or waits in
    the buffer. *)
Definition accounted_for (command : string) (st : state) : list chunk :=
  written_for command st ++ buffered_for command st.

(** The primary command has no buffer. *)
Definition primary_unbuffered (st : state) : Prop :=
  forall c, getPrimaryCommand st = Some c -> map_get c (buffers st) = None.

(** The children of [st] run [commands] in parallel mode, and those
    listed in [ended] are the ones whose promise is settled. *)
Definition agrees (commands : list string) (ended : list nat) (st : state) : Prop :=
  forall pid,
    match children st !! pid with
    | Some ch =>
        commands !! pid = Some (ch_command ch)
        /\ ch_parallel ch = true
        /\ settled (ch_promise ch) = existsb (Nat.eqb pid) ended
    | None => commands !! pid = None
    end.

(** The command and the mode of every child, without the promises. *)
Definition shape (st : state) : list (string * bool) :=
  map (fun ch => (ch_command ch, ch_parallel ch)) (children st).


(** How the child running [command] ends, given the events it emits. *)
Fixpoint outcome (command : string) (es : list child_event) : option promise :=
  match es with
  | [] => None
  | Data _ _ :: es' => outcome command es'
  | Errored err :: _ => Some (Rejected err)
  | Close code :: _ =>
      Some (if is_zero code then Resolved else Rejected (exit_error command code))
  end.

(** The events of children that run one after the other: those of child
    [first], then those of child [first + 1], and so on. *)
Fixpoint schedule (first : nat) (bs : list (list child_event)) : list event :=
  match bs with
  | [] => []
  | b :: bs' => map (pair first) b ++ schedule (S first) bs'
  end.

(** The options [{ ...options, parallel: false }] of the sequential
    branch. *)
Definition sequential (o : RunOptions) : RunOptions :=
  {| parallel := false; silent := silent o |}.

(** Nothing of the parallel mode is in [st]: no buffer, nothing written
    by [write] or [flush], no child with ['data'] handlers, no child
    with piped output or with an environment of its own. *)
Definition plain (p : process) (st : state) : Prop :=
  buffers st = []
  /\ console st = []
  /\ Forall (fun x => snd x = false) (shape st)
  /\ Forall (fun sp => sp_stdio sp = [Inherit; Inherit; Inherit] /\ sp_env sp = env p)
            (spawns st).

(** ** Sample inputs *)

Definition sample_process : process :=
  {| env := {[ "PATH" := "/usr/bin" ]}; stdout_depth := Some 8%Z; stderr_depth := Some 24%Z |}.

(** A process whose environment has no variable at all. *)
Definition bare_process : process :=
  {| env := ∅; stdout_depth := None; stderr_depth := None |}.

Definition in_parallel : RunOptions := {| parallel := true; silent := false |}.

Definition in_sequence : RunOptions := {| parallel := false; silent := false |}.

(** Three children; the first started is the last to end, and the third
    fails before the second. *)
Definition sample_events : list event :=
  [ (1, Data Stdout "b1"); (0, Data Stdout "a1"); (2, Data Stderr "c1");
    (1, Data Stdout "b2"); (2, Close None); (0, Data Stderr "a2");
    (1, Close (Some 1%Z)); (0, Close (Some 0%Z)) ]%nat.

Definition sample_scripts : scripts :=
  [ ("clean", "rm -rf lib"); ("build", "run build:*"); ("build:compile", "tsc");
    ("build:schema", "run -p build:schema:*"); ("build:schema:a", "generate a");
    ("build:schema:b", "generate b"); ("test", "node --test") ].

(** ** The manifest ([findNearestPackageJson]) *)

(** A directory is the list of its names, the innermost first; the root
    is the empty list. [dirname] drops the innermost name and leaves the
    root as it is; [join] puts a name below a directory. *)
Definition dirname (dir : list string) : list string := tail dir.

Definition join (dir : list string) (name : string) : list string := name :: dir.

(** [access] tells whether [access(candidate, constants.F_OK)] succeeds.
    At the root [dirname(dir) === dir] and the search throws. *)
Fixpoint findNearestPackageJson (access : list string -> bool) (dir : list string)
  : Error + list string :=
  let candidate := join dir "package.json" in
  if access candidate then inr candidate
  else
    match dir with
    | [] => inl {| message := "Unable to locale package.json" |}
    | _ :: parent => findNearestPackageJson access parent
    end.

(** ** Further vocabulary *)

(** [s] is a segment followed by [after]. *)
Fixpoint segment_before (after s : string) : bool :=
  match s with
  | EmptyString => false
  | String c s' =>
      negb (Ascii.eqb c ":") && (segment_before after s' || String.eqb s' after)
  end.

(** [name] is [before], a segment and [after]. *)
Definition is_between (before after name : string) : bool :=
  match strip_prefix before name with
  | Some rest => segment_before after rest
  | None => false
  end.

(** The commands for which a ['close'] is among the events. *)
Fixpoint closed_commands (commands : list string) (evs : list event) : list string :=
  match evs with
  | [] => []
  | (pid, Close _) :: evs' =>
      match commands !! pid with
      | Some c => c :: closed_commands commands evs'
      | None => closed_commands commands evs'
      end
  | _ :: evs' => closed_commands commands evs'
  end.

Definition is_closed (commands : list string) (evs : list event) (c : string) : bool :=
  existsb (String.eqb c) (closed_commands commands evs).

(** The commands on whose behalf the streams were written to, in order. *)
Definition labels (st : state) : list string := map by_command (console st).

(** Between two entries for one command there are only entries for that
    command. *)
Definition grouped (l : list string) : Prop :=
  forall i j k c,
    (i < j)%nat -> (j < k)%nat -> l !! i = Some c -> l !! k = Some c -> l !! j = Some c.

(** What [flush] writes for one buffer. *)
Definition block (entry : string * list chunk) : list write_call :=
  map (fun data => {| by_command := fst entry; written := data |}) (snd entry).

(** [c] has ended for good: it is not running, it has no buffer, and its
    children have emitted ['error'] or ['close']. *)
Definition finished (commands : list string) (ended : list nat) (st : state) (c : string) : Prop :=
  ~ In c (runningCommands st)
  /\ map_get c (buffers st) = None
  /\ forall pid, commands !! pid = Some c -> In pid ended.

(** What holds of the streams while distinct commands run in parallel. *)
Definition tidy (commands : list string) (ended : list nat) (st : state) : Prop :=
  shape st = map (fun c => (c, true)) commands
  /\ primary_unbuffered st
  /\ NoDup (map fst (buffers st))
  /\ grouped (labels st)
  /\ (forall p, getPrimaryCommand st = Some p -> In p (labels st) -> last (labels st) = Some p)
  /\ (forall c, In c (labels st) -> getPrimaryCommand st <> Some c ->
                finished commands ended st c).

(** A parallel child whose promise is rejected has its error recorded. *)
Definition rejections_recorded (st : state) : Prop :=
  forall pid ch e,
    children st !! pid = Some ch -> ch_parallel ch = true ->
    ch_promise ch = Rejected e -> In e (errors st).

(** Every recorded error is the rejection of some child. *)
Definition errors_rejected (st : state) : Prop :=
  forall e, In e (errors st) ->
    exists pid ch, children st !! pid = Some ch /\ ch_promise ch = Rejected e.

(** The promise of every child is resolved. *)
Definition all_resolved (st : state) : Prop :=
  Forall (fun ch => ch_promise ch = Resolved) (children st).

(** The commands whose children have emitted data, each once, in the
    order of their first chunk. *)
Definition note_data (commands : list string) (seen : list string) (ev : nat * child_event)
  : list string :=
  match ev with
  | (pid, Data _ _) =>
      match commands !! pid with
      | Some c => if existsb (String.eqb c) seen then seen else seen ++ [c]
      | None => seen
      end
  | _ => seen
  end.

Definition first_data (commands : list string) (evs : list event) : list string :=
  fold_left (note_data commands) evs [].

(** The buffers are in the order of [seen], and a command in [seen] is
    the primary one, has a buffer, or has a child that has ended. *)
Definition queued (commands : list string) (ended : list nat) (seen : list string)
    (st : state) : Prop :=
  shape st = map (fun c => (c, true)) commands
  /\ NoDup seen
  /\ sublist (map fst (buffers st)) seen
  /\ forall c, In c seen ->
       getPrimaryCommand st = Some c
       \/ In c (map fst (buffers st))
       \/ exists pid, commands !! pid = Some c /\ In pid ended.

(** * Part II: properties *)

(** ** Strings *)

Lemma str_app_nil_l (s : string) : "" +:+ s = s.
Proof. reflexivity. Qed.

Lemma str_app_cons (c : ascii) (s t : string) : String c s +:+ t = String c (s +:+ t).
Proof. reflexivity. Qed.

Lemma str_app_nil_r (s : string) : s +:+ "" = s.
Proof. induction s as [|c s IH]; [reflexivity | rewrite str_app_cons; f_equal; exact IH]. Qed.

Lemma str_app_assoc (s t u : string) : (s +:+ t) +:+ u = s +:+ (t +:+ u).
Proof. induction s as [|c s IH]; [reflexivity | rewrite !str_app_cons; f_equal; exact IH]. Qed.

Lemma includes_app c s t : Str.includes c (s +:+ t) = Str.includes c s || Str.includes c t.
Proof.
  induction s as [|c' s IH]; [reflexivity|].
  rewrite str_app_cons. simpl. rewrite <- orb_assoc. f_equal. exact IH.
Qed.

Lemma strip_prefix_app (a b s : string) :
  strip_prefix (a +:+ b) s =
  match strip_prefix a s with
  | Some rest => strip_prefix b rest
  | None => None
  end.
Proof.
  revert s. induction a as [|c a IH]; intros s; [reflexivity|].
  rewrite str_app_cons. destruct s as [|c' s]; simpl; [reflexivity|].
  destruct (Ascii.eqb c' c); [apply IH | reflexivity].
Qed.

Lemma strip_prefix_Some (a s rest : string) :
  strip_prefix a s = Some rest <-> s = a +:+ rest.
Proof.
  revert s. induction a as [|c a IH]; intros s; simpl.
  - rewrite str_app_nil_l. split; [intros [= ->] | intros ->]; reflexivity.
  - rewrite str_app_cons. destruct s as [|c' s].
    + split; discriminate.
    + destruct (Ascii.eqb_spec c' c) as [->|Hne].
      * rewrite IH. split; [intros -> | intros [= ->]]; reflexivity.
      * split; [discriminate | intros [= -> _]; contradiction].
Qed.

Lemma str_app_inv_l (s t u : string) : s +:+ t = s +:+ u -> t = u.
Proof.
  induction s as [|c s IH]; intros H.
  - rewrite !str_app_nil_l in H. exact H.
  - rewrite !str_app_cons in H. injection H as H. apply IH, H.
Qed.

(** ** The regular expression of a pattern *)

Lemma special_is_syntax (c : ascii) :
  is_special c = true -> RegExp.is_syntax_char c = true /\ Ascii.eqb c "*" = false.
Proof.
  destruct c as [[] [] [] [] [] [] [] []]; intros H; cbv in H; try discriminate H;
    split; reflexivity.
Qed.

Lemma parse_plain (c : ascii) (s : string) :
  is_special c = false -> Ascii.eqb c "*" = false ->
  RegExp.parse (String c s) = option_map (cons (RegExp.TLit c)) (RegExp.parse s).
Proof.
  destruct c as [[] [] [] [] [] [] [] []]; intros H1 H2; cbv in H1, H2;
    try discriminate H1; try discriminate H2; reflexivity.
Qed.

Lemma parse_escaped (c : ascii) (s : string) :
  RegExp.is_syntax_char c = true ->
  RegExp.parse (String "\" (String c s)) = option_map (cons (RegExp.TLit c)) (RegExp.parse s).
Proof. intros H. simpl. rewrite H. reflexivity. Qed.

Lemma parse_star_replacement (run : nat) (s : string) :
  RegExp.parse (star_replacement run +:+ s) = option_map (app (star_tokens run)) (RegExp.parse s).
Proof.
  destruct run as [|[|run]]; simpl; rewrite ?str_app_cons, ?str_app_nil_l;
    destruct (RegExp.parse s); reflexivity.
Qed.

Lemma parse_replace_stars (s : string) : forall run,
  RegExp.parse (replace_stars run (escape s) +:+ "$")
  = Some (pattern_tokens run s ++ [RegExp.TEnd]).
Proof.
  induction s as [|c s IH]; intros run.
  - simpl. rewrite parse_star_replacement. reflexivity.
  - simpl. destruct (is_special c) eqn:Hsp.
    + destruct (special_is_syntax c Hsp) as [Hsy Hst].
      simpl. rewrite Hst. rewrite str_app_nil_l, str_app_assoc, !str_app_cons.
      rewrite parse_star_replacement, (parse_escaped _ _ Hsy), IH.
      simpl. rewrite <- app_assoc. reflexivity.
    + simpl. destruct (Ascii.eqb c "*") eqn:Hst.
      * apply IH.
      * rewrite str_app_assoc, str_app_cons.
        rewrite parse_star_replacement, (parse_plain _ _ Hsp Hst), IH.
        simpl. rewrite <- app_assoc. reflexivity.
Qed.

(** [new RegExp] never refuses the source that [commandToRegExp] builds,
    and the expression it gives is the one read off the pattern. *)
Lemma commandToRegExp_tokens (command : string) :
  commandToRegExp command
  = Some (RegExp.TStart :: pattern_tokens 0 command ++ [RegExp.TEnd]).
Proof.
  unfold commandToRegExp, regexp_source.
  rewrite str_app_cons, str_app_nil_l.
  change (RegExp.parse (String "^" ?s)) with (option_map (cons RegExp.TStart) (RegExp.parse s)).
  rewrite parse_replace_stars. reflexivity.
Qed.

Lemma pattern_tokens_literal (X rest : string) :
  Str.includes "*" X = false ->
  pattern_tokens 0 (X +:+ rest) = lits X ++ pattern_tokens 0 rest.
Proof.
  induction X as [|c X IH]; intros H; [reflexivity|].
  simpl in H. apply orb_false_iff in H as [Hc HX].
  rewrite str_app_cons. simpl. rewrite Hc. simpl. f_equal. apply IH, HX.
Qed.

(** ** Matching *)

Lemma search_start_later (r : RegExp.t) (s : string) :
  RegExp.search (RegExp.TStart :: r) false s = false.
Proof. induction s as [|c s IH]; simpl; [reflexivity | exact IH]. Qed.

(** An expression that begins with [^] matches at index 0 or not at all. *)
Lemma test_anchored (r : RegExp.t) (s : string) :
  RegExp.test (RegExp.TStart :: r) s = RegExp.match_here r true s.
Proof.
  unfold RegExp.test. destruct s as [|c s]; simpl.
  - apply orb_false_r.
  - rewrite search_start_later. apply orb_false_r.
Qed.

Lemma match_seg_cons (r : RegExp.t) (b : bool) (c : ascii) (s : string) :
  RegExp.match_here (RegExp.TSeg :: r) b (String c s)
  = negb (Ascii.eqb c ":")
    && (RegExp.match_here (RegExp.TSeg :: r) false s || RegExp.match_here r false s).
Proof. reflexivity. Qed.

Lemma match_any_cons (r : RegExp.t) (b : bool) (c : ascii) (s : string) :
  RegExp.match_here (RegExp.TAny :: r) b (String c s)
  = (negb (RegExp.is_line_terminator c) && RegExp.match_here (RegExp.TAny :: r) false s)
    || RegExp.match_here r b (String c s).
Proof. reflexivity. Qed.

Lemma match_seg_end (s : string) : forall b,
  RegExp.match_here [RegExp.TSeg; RegExp.TEnd] b s = is_segment s.
Proof.
  induction s as [|c s IH]; intros b; [reflexivity|].
  rewrite match_seg_cons, IH. unfold is_segment. simpl.
  destruct (Ascii.eqb c ":"); simpl; [reflexivity|].
  destruct s; simpl; [reflexivity | apply orb_false_r].
Qed.

Lemma match_any_end (s : string) : forall b,
  RegExp.match_here [RegExp.TAny; RegExp.TEnd] b s = no_line_terminator s.
Proof.
  induction s as [|c s IH]; intros b; [reflexivity|].
  rewrite match_any_cons, IH. simpl. apply orb_false_r.
Qed.

(** Literal characters in front of an expression take the same
    characters off the input. *)
Lemma match_lits (r : RegExp.t) (f : string -> bool) (X : string) :
  (forall b s, RegExp.match_here r b s = f s) ->
  forall b name,
    RegExp.match_here (lits X ++ r) b name =
    match strip_prefix X name with
    | Some rest => f rest
    | None => false
    end.
Proof.
  intros Hr. induction X as [|c X IH]; intros b name; simpl.
  - apply Hr.
  - destruct name as [|c' name]; [reflexivity|].
    destruct (Ascii.eqb c' c); simpl; [apply IH | reflexivity].
Qed.

Lemma lits_app (a b : string) : lits (a +:+ b) = lits a ++ lits b.
Proof.
  induction a as [|c a IH]; [reflexivity|].
  rewrite str_app_cons. simpl. f_equal. exact IH.
Qed.

Lemma filter_ext_in_list {A : Type} (f g : A -> bool) (l : list A) :
  (forall x, In x l -> f x = g x) -> List.filter f l = List.filter g l.
Proof.
  induction l as [|x l IH]; intros H; [reflexivity|].
  simpl. rewrite (H x (or_introl eq_refl)), IH; [reflexivity|].
  intros y Hy. apply H. right. exact Hy.
Qed.

(** What [X:*] and [X:**] match, for a prefix [X] without asterisk. *)
Lemma test_child_pattern (X name : string) :
  Str.includes "*" X = false ->
  RegExp.test (RegExp.TStart :: pattern_tokens 0 (X +:+ ":*") ++ [RegExp.TEnd]) name
  = is_child_of X name.
Proof.
  intros HX. rewrite test_anchored, (pattern_tokens_literal _ _ HX).
  change (pattern_tokens 0 ":*") with (lits ":" ++ [RegExp.TSeg]).
  rewrite app_assoc, <- lits_app, <- app_assoc. simpl app at 2.
  rewrite (match_lits _ is_segment); [reflexivity|].
  intros b s. apply match_seg_end.
Qed.

Lemma test_descendant_pattern (X name : string) :
  Str.includes "*" X = false ->
  RegExp.test (RegExp.TStart :: pattern_tokens 0 (X +:+ ":**") ++ [RegExp.TEnd]) name
  = match strip_prefix (X +:+ ":") name with
    | Some rest => no_line_terminator rest
    | None => false
    end.
Proof.
  intros HX. rewrite test_anchored, (pattern_tokens_literal _ _ HX).
  change (pattern_tokens 0 ":**") with (lits ":" ++ [RegExp.TAny]).
  rewrite app_assoc, <- lits_app, <- app_assoc. simpl app at 2.
  rewrite (match_lits _ no_line_terminator); [reflexivity|].
  intros b s. apply match_any_end.
Qed.

Lemma resolve_one (R : scripts) (command : string) :
  resolveCommands R [command] =
  if Str.includes "*" command then
    Some (List.filter
            (RegExp.test (RegExp.TStart :: pattern_tokens 0 command ++ [RegExp.TEnd]))
            (existingCommands R))
  else Some [command].
Proof.
  unfold resolveCommands, resolveCommand. simpl.
  destruct (Str.includes "*" command); [|reflexivity].
  rewrite commandToRegExp_tokens, app_nil_r. reflexivity.
Qed.

Lemma is_segment_spec (s : string) :
  is_segment s = true <-> s <> "" /\ Str.includes ":" s = false.
Proof.
  unfold is_segment. rewrite andb_true_iff, !negb_true_iff.
  destruct s as [|c s]; simpl; [intuition congruence|].
  intuition congruence.
Qed.

Lemma no_line_terminator_app (a b : string) :
  no_line_terminator (a +:+ b) = no_line_terminator a && no_line_terminator b.
Proof.
  induction a as [|c a IH]; [reflexivity|].
  rewrite str_app_cons. simpl. rewrite IH. apply andb_assoc.
Qed.

Lemma resolve_children (R : scripts) (X : string) :
  Str.includes "*" X = false ->
  resolveCommands R [X +:+ ":*"] = Some (List.filter (is_child_of X) (existingCommands R)).
Proof.
  intros HX. rewrite resolve_one, includes_app. simpl. rewrite orb_true_r.
  f_equal. apply filter_ext_in_list. intros name _. apply test_child_pattern, HX.
Qed.

(** ** C4 *)

(** C4. For a prefix [X] without asterisk, resolving [X:*] gives the
    registered names that are [X], a colon and exactly one further
    segment (one or more characters, none a colon), in the order of the
    registry. *)
Theorem C4_star_resolves_children (R : scripts) (X : string) :
  Str.includes "*" X = false ->
  resolveCommands R [X +:+ ":*"] = Some (List.filter (is_child_of X) (existingCommands R))
  /\ forall name,
       is_child_of X name = true <->
       exists seg, name = X +:+ ":" +:+ seg /\ seg <> "" /\ Str.includes ":" seg = false.
Proof.
  intros HX. split.
  - apply resolve_children, HX.
  - intros name. unfold is_child_of. split.
    + destruct (strip_prefix (X +:+ ":") name) as [rest|] eqn:E; [|discriminate].
      intros Hseg. exists rest. apply strip_prefix_Some in E.
      rewrite str_app_assoc in E. apply is_segment_spec in Hseg. tauto.
    + intros (seg & -> & Hne & Hc).
      assert (E : strip_prefix (X +:+ ":") (X +:+ ":" +:+ seg) = Some seg)
        by (apply strip_prefix_Some; rewrite str_app_assoc; reflexivity).
      rewrite E. apply is_segment_spec. tauto.
Qed.

Lemma C4_witness :
  resolveCommands [("build", "a"); ("build:compile", "b"); ("build:schema:a", "c"); ("build:x", "d")]
                  ["build" +:+ ":*"]
  = Some ["build:compile"; "build:x"].
Proof.
  destruct (C4_star_resolves_children
              [("build", "a"); ("build:compile", "b"); ("build:schema:a", "c"); ("build:x", "d")]
              "build" eq_refl) as [H _].
  exact H.
Defined.

(** ** C6 *)

(** C6. A pattern without asterisk resolves to itself, whatever the
    registry holds, and [run] hands it to the engine as its only
    command, in sequential mode. *)
Theorem C6_literal_passes_through (R : scripts) (P : string) :
  Str.includes "*" P = false ->
  resolveCommands R [P] = Some [P]
  /\ forall p o evs, run p (Scripts R) [P] o evs = run_sequential p [P] o evs init.
Proof.
  intros HP.
  assert (E : resolveCommands R [P] = Some [P]) by (rewrite resolve_one, HP; reflexivity).
  split; [exact E|].
  intros p o evs. unfold run. rewrite E. simpl. rewrite andb_false_r. reflexivity.
Qed.

Lemma C6_witness :
  resolveCommands [("build", "tsc")] ["deploy"] = Some ["deploy"].
Proof.
  exact (proj1 (C6_literal_passes_through [("build", "tsc")] "deploy" eq_refl)).
Defined.

(** ** C5 *)

Lemma has_prefix_spec (X name : string) :
  has_prefix X name = true <-> exists rest, name = X +:+ ":" +:+ rest.
Proof.
  unfold has_prefix. split.
  - destruct (strip_prefix (X +:+ ":") name) as [rest|] eqn:E; [|discriminate].
    intros _. exists rest. apply strip_prefix_Some in E.
    rewrite str_app_assoc in E. exact E.
  - intros [rest ->].
    assert (E : strip_prefix (X +:+ ":") (X +:+ ":" +:+ rest) = Some rest)
      by (apply strip_prefix_Some; rewrite str_app_assoc; reflexivity).
    rewrite E. reflexivity.
Qed.

(** What [X:**] resolves to, whatever the names are: the wildcard [.*]
    stops at a line terminator. *)
Lemma resolve_descendants (R : scripts) (X : string) :
  Str.includes "*" X = false ->
  resolveCommands R [X +:+ ":**"]
  = Some (List.filter
            (fun name =>
               match strip_prefix (X +:+ ":") name with
               | Some rest => no_line_terminator rest
               | None => false
               end)
            (existingCommands R)).
Proof.
  intros HX. rewrite resolve_one, includes_app. simpl. rewrite orb_true_r.
  f_equal. apply filter_ext_in_list. intros name _. apply test_descendant_pattern, HX.
Qed.

Lemma incl_filter_filter {A : Type} (f g : A -> bool) (l : list A) :
  (forall x, In x l -> f x = true -> g x = true) ->
  incl (List.filter f l) (List.filter g l).
Proof.
  intros H x Hx. apply filter_In in Hx as [Hin Hf].
  apply filter_In. split; [exact Hin | apply H; assumption].
Qed.

(** C5, as the code has it. For a registry whose names hold no line
    terminator and a prefix [X] without asterisk, resolving [X:**] gives
    the registered names that begin with [X] and a colon, whatever
    follows the colon (nothing at all included), in the order of the
    registry; every name that [X:*] resolves to is among them. *)
Theorem C5_star_star_resolves_prefixed (R : scripts) (X : string) :
  Str.includes "*" X = false ->
  Forall (fun name => no_line_terminator name = true) (existingCommands R) ->
  resolveCommands R [X +:+ ":**"] = Some (List.filter (has_prefix X) (existingCommands R))
  /\ (forall name, has_prefix X name = true <-> exists rest, name = X +:+ ":" +:+ rest)
  /\ incl (List.filter (is_child_of X) (existingCommands R))
          (List.filter (has_prefix X) (existingCommands R))
  /\ resolveCommands R [X +:+ ":*"] = Some (List.filter (is_child_of X) (existingCommands R)).
Proof.
  intros HX Hnames. repeat split.
  - rewrite (resolve_descendants _ _ HX). f_equal.
    apply filter_ext_in_list. intros name Hin. unfold has_prefix.
    destruct (strip_prefix (X +:+ ":") name) as [rest|] eqn:E; [|reflexivity].
    apply strip_prefix_Some in E.
    rewrite List.Forall_forall in Hnames. specialize (Hnames name Hin).
    rewrite E, no_line_terminator_app in Hnames.
    apply andb_true_iff in Hnames. tauto.
  - apply has_prefix_spec.
  - apply has_prefix_spec.
  - apply incl_filter_filter. intros name _. unfold is_child_of, has_prefix.
    destruct (strip_prefix (X +:+ ":") name); [reflexivity | discriminate].
  - apply resolve_children, HX.
Qed.

Lemma C5_witness :
  resolveCommands [("build", "a"); ("build:compile", "b"); ("build:schema:a", "c"); ("test", "d")]
                  ["build" +:+ ":**"]
  = Some ["build:compile"; "build:schema:a"].
Proof.
  refine (proj1 (C5_star_star_resolves_prefixed
                   [("build", "a"); ("build:compile", "b"); ("build:schema:a", "c"); ("test", "d")]
                   "build" eq_refl _)).
  repeat constructor.
Defined.

(** C5 as it is worded fails twice. The name [b:] is [b] and a colon
    with no segment after it, and [b:**] resolves to it. The name
    [b:a], line feed, [c] is one segment below [b], so [b:*] resolves to
    it, and [b:**] does not. *)
Lemma C5_counterexample :
  (resolveCommands [("b:", "x")] ["b" +:+ ":**"] = Some ["b:"]
   /\ List.filter (is_descendant_of "b") (existingCommands [("b:", "x")]) = [])
  /\ (resolveCommands [("b:a" +:+ Str.nl +:+ "c", "x")] ["b" +:+ ":*"]
      = Some ["b:a" +:+ Str.nl +:+ "c"]
      /\ resolveCommands [("b:a" +:+ Str.nl +:+ "c", "x")] ["b" +:+ ":**"] = Some []).
Proof. repeat split; reflexivity. Qed.

(** ** The handlers: what they leave alone *)

Lemma set_promise_same (ch : child) : set_promise (ch_promise ch) ch = ch.
Proof. destruct ch; reflexivity. Qed.

Lemma alter_same {A : Type} (f : A -> A) (i : nat) (l : list A) :
  (forall x, l !! i = Some x -> f x = x) -> alter f i l = l.
Proof.
  revert i. induction l as [|y l IH]; intros i H; [reflexivity|].
  destruct i as [|i]; simpl.
  - f_equal. apply H. reflexivity.
  - f_equal. apply IH. intros x Hx. apply H. exact Hx.
Qed.

Lemma write_frame (s : Stream) (text command : string) (st : state) :
  runningCommands (write s text command st) = runningCommands st
  /\ spawns (write s text command st) = spawns st
  /\ children (write s text command st) = children st
  /\ errors (write s text command st) = errors st.
Proof. unfold write. destruct (is_primary command st); simpl; tauto. Qed.

Lemma flush_frame (c : option string) (st : state) :
  runningCommands (flush c st) = runningCommands st
  /\ spawns (flush c st) = spawns st
  /\ children (flush c st) = children st
  /\ errors (flush c st) = errors st.
Proof.
  unfold flush. destruct c as [c|]; [|tauto].
  destruct (map_get c (buffers st)); simpl; tauto.
Qed.

Lemma on_close_frame (command : string) (st : state) :
  spawns (on_close command st) = spawns st
  /\ children (on_close command st) = children st
  /\ errors (on_close command st) = errors st.
Proof.
  unfold on_close.
  match goal with |- context [flush ?c ?s] => destruct (flush_frame c s) as (_ & H1 & H2 & H3) end.
  rewrite H1, H2, H3. simpl. tauto.
Qed.

Lemma resolve_spec (pid : nat) (st : state) :
  runningCommands (resolve pid st) = runningCommands st
  /\ buffers (resolve pid st) = buffers st
  /\ console (resolve pid st) = console st
  /\ spawns (resolve pid st) = spawns st
  /\ errors (resolve pid st) = errors st
  /\ children (resolve pid st)
     = alter (fun ch => match ch_promise ch with
                        | Pending => set_promise Resolved ch
                        | _ => ch
                        end) pid (children st).
Proof.
  unfold resolve. destruct (children st !! pid) as [[c par pr]|] eqn:E.
  - destruct pr; simpl; repeat split; try reflexivity.
    + apply list_alter_ext; [|reflexivity]. intros x Hx. rewrite E in Hx.
      injection Hx as <-. reflexivity.
    + symmetry. apply alter_same. intros x Hx. rewrite E in Hx.
      injection Hx as <-. reflexivity.
    + symmetry. apply alter_same. intros x Hx. rewrite E in Hx.
      injection Hx as <-. reflexivity.
  - repeat split; try reflexivity. symmetry. apply alter_same.
    intros x Hx. rewrite E in Hx. discriminate.
Qed.

Lemma reject_spec (pid : nat) (e : Error) (st : state) :
  runningCommands (reject pid e st) = runningCommands st
  /\ buffers (reject pid e st) = buffers st
  /\ console (reject pid e st) = console st
  /\ spawns (reject pid e st) = spawns st
  /\ errors (reject pid e st)
     = errors st ++
       match children st !! pid with
       | Some ch => if ch_parallel ch && negb (settled (ch_promise ch)) then [e] else []
       | None => []
       end
  /\ children (reject pid e st)
     = alter (fun ch => match ch_promise ch with
                        | Pending => set_promise (Rejected e) ch
                        | _ => ch
                        end) pid (children st).
Proof.
  unfold reject. destruct (children st !! pid) as [[c par pr]|] eqn:E.
  - destruct pr; simpl; repeat split; try reflexivity.
    + destruct par; simpl; [reflexivity | symmetry; apply app_nil_r].
    + apply list_alter_ext; [|reflexivity]. intros x Hx. rewrite E in Hx.
      injection Hx as <-. reflexivity.
    + rewrite andb_false_r. symmetry. apply app_nil_r.
    + symmetry. apply alter_same. intros x Hx. rewrite E in Hx.
      injection Hx as <-. reflexivity.
    + rewrite andb_false_r. symmetry. apply app_nil_r.
    + symmetry. apply alter_same. intros x Hx. rewrite E in Hx.
      injection Hx as <-. reflexivity.
  - repeat split; try reflexivity; [symmetry; apply app_nil_r|].
    symmetry. apply alter_same. intros x Hx. rewrite E in Hx. discriminate.
Qed.

(** No handler calls [spawn]. *)
Lemma handle_spawns (ev : event) (st : state) : spawns (handle ev st) = spawns st.
Proof.
  destruct ev as [pid e]. unfold handle.
  destruct (children st !! pid) as [ch|]; [|reflexivity].
  destruct e as [s text|err|code].
  - destruct (ch_parallel ch); [apply write_frame | reflexivity].
  - apply reject_spec.
  - destruct (is_zero code).
    + rewrite (proj1 (proj2 (proj2 (proj2 (resolve_spec _ _))))). apply on_close_frame.
    + rewrite (proj1 (proj2 (proj2 (proj2 (reject_spec _ _ _))))). apply on_close_frame.
Qed.

(** An event changes the promise of its own child and no other child. *)
Lemma handle_children (pid : nat) (e : child_event) (st : state) :
  children (handle (pid, e) st) = alter (step_child e) pid (children st).
Proof.
  unfold handle. destruct (children st !! pid) as [ch|] eqn:E.
  - destruct e as [s text|err|code].
    + transitivity (children st).
      * destruct (ch_parallel ch); [apply write_frame | reflexivity].
      * symmetry. apply alter_same. intros x Hx. unfold step_child, step_promise.
        destruct (ch_promise x) eqn:Ep; rewrite <- Ep; apply set_promise_same.
    + rewrite (proj2 (proj2 (proj2 (proj2 (proj2 (reject_spec _ _ _)))))).
      apply list_alter_ext; [|reflexivity]. intros x _.
      unfold step_child, step_promise.
      destruct (ch_promise x) eqn:Ep; try reflexivity; rewrite <- Ep; symmetry; apply set_promise_same.
    + destruct (is_zero code) eqn:Ez.
      * rewrite (proj2 (proj2 (proj2 (proj2 (proj2 (resolve_spec _ _)))))).
        rewrite (proj1 (proj2 (on_close_frame _ _))).
        apply list_alter_ext; [|reflexivity]. intros x _.
        unfold step_child, step_promise. rewrite Ez.
        destruct (ch_promise x) eqn:Ep; try reflexivity; rewrite <- Ep; symmetry; apply set_promise_same.
      * rewrite (proj2 (proj2 (proj2 (proj2 (proj2 (reject_spec _ _ _)))))).
        rewrite (proj1 (proj2 (on_close_frame _ _))).
        apply list_alter_ext; [|reflexivity]. intros x Hx. rewrite E in Hx.
        injection Hx as <-.
        unfold step_child, step_promise. rewrite Ez.
        destruct (ch_promise ch) eqn:Ep; try reflexivity; rewrite <- Ep; symmetry; apply set_promise_same.
  - symmetry. apply alter_same. intros x Hx. rewrite E in Hx. discriminate.
Qed.

Lemma handle_errors (pid : nat) (e : child_event) (st : state) :
  errors (handle (pid, e) st)
  = errors st ++
    match children st !! pid with
    | Some ch =>
        if ch_parallel ch && negb (settled (ch_promise ch))
        then failure_of (ch_command ch) e else []
    | None => []
    end.
Proof.
  unfold handle. destruct (children st !! pid) as [ch|] eqn:E;
    [|symmetry; apply app_nil_r].
  destruct e as [s text|err|code]; simpl.
  - transitivity (errors st).
    + destruct (ch_parallel ch); [apply write_frame | reflexivity].
    + destruct (ch_parallel ch && negb (settled (ch_promise ch))); symmetry; apply app_nil_r.
  - rewrite (proj1 (proj2 (proj2 (proj2 (proj2 (reject_spec _ _ _)))))), E. reflexivity.
  - destruct (is_zero code).
    + rewrite (proj1 (proj2 (proj2 (proj2 (proj2 (resolve_spec _ _)))))).
      rewrite (proj2 (proj2 (on_close_frame _ _))).
      destruct (ch_parallel ch && negb (settled (ch_promise ch))); symmetry; apply app_nil_r.
    + rewrite (proj1 (proj2 (proj2 (proj2 (proj2 (reject_spec _ _ _)))))).
      rewrite (proj1 (proj2 (on_close_frame _ _))), (proj2 (proj2 (on_close_frame _ _))), E.
      reflexivity.
Qed.

Lemma shape_alter (e : child_event) (pid : nat) (l : list child) :
  map (fun ch => (ch_command ch, ch_parallel ch)) (alter (step_child e) pid l)
  = map (fun ch => (ch_command ch, ch_parallel ch)) l.
Proof.
  revert pid. induction l as [|ch l IH]; intros pid; [reflexivity|].
  destruct pid as [|pid]; simpl; [reflexivity|]. f_equal. apply IH.
Qed.

Lemma handle_shape (ev : event) (st : state) : shape (handle ev st) = shape st.
Proof. destruct ev as [pid e]. unfold shape. rewrite handle_children. apply shape_alter. Qed.

Lemma handle_all_shape (evs : list event) (st : state) :
  shape (handle_all evs st) = shape st.
Proof.
  revert st. induction evs as [|ev evs IH]; intros st; [reflexivity|].
  simpl. rewrite IH. apply handle_shape.
Qed.

Lemma handle_all_spawns (evs : list event) (st : state) :
  spawns (handle_all evs st) = spawns st.
Proof.
  revert st. induction evs as [|ev evs IH]; intros st; [reflexivity|].
  simpl. rewrite IH. apply handle_spawns.
Qed.

Lemma handle_all_cons (ev : event) (evs : list event) (st : state) :
  handle_all (ev :: evs) st = handle_all evs (handle ev st).
Proof. reflexivity. Qed.

Lemma handle_all_app (a b : list event) (st : state) :
  handle_all (a ++ b) st = handle_all b (handle_all a st).
Proof. apply fold_left_app. Qed.

Lemma shape_lookup (st : state) (pid : nat) :
  shape st !! pid = (fun ch => (ch_command ch, ch_parallel ch)) <$> children st !! pid.
Proof. unfold shape. apply list_lookup_fmap. Qed.

Lemma promise_of_handle_same (pid : nat) (e : child_event) (st : state) (ch : child) :
  children st !! pid = Some ch ->
  promise_of pid (handle (pid, e) st) = step_promise (ch_command ch) e (ch_promise ch).
Proof.
  intros E. unfold promise_of. rewrite handle_children, list_lookup_alter_eq, E. reflexivity.
Qed.

Lemma promise_of_handle_other (pid pid' : nat) (e : child_event) (st : state) :
  pid <> pid' -> promise_of pid (handle (pid', e) st) = promise_of pid st.
Proof.
  intros H. unfold promise_of. rewrite handle_children, list_lookup_alter_ne; [reflexivity|].
  congruence.
Qed.

Lemma step_promise_settled (c : string) (e : child_event) (pr : promise) :
  settled pr = true -> step_promise c e pr = pr.
Proof. destruct pr; [discriminate | reflexivity | reflexivity]. Qed.

Lemma step_promise_final (c : string) (e : child_event) (pr : promise) :
  is_final e = true -> settled (step_promise c e pr) = true.
Proof.
  destruct pr; try reflexivity. destruct e as [| |code]; try discriminate; intros _; simpl;
    [reflexivity | destruct (is_zero code); reflexivity].
Qed.

(** A settled promise stays as it is. *)
Lemma promise_of_handle_settled (pid : nat) (ev : event) (st : state) :
  settled (promise_of pid st) = true ->
  promise_of pid (handle ev st) = promise_of pid st.
Proof.
  intros H. destruct ev as [pid' e]. destruct (Nat.eq_dec pid pid') as [<-|Hne].
  - unfold promise_of in H |- *. rewrite handle_children, list_lookup_alter_eq.
    destruct (children st !! pid) as [ch|]; [|reflexivity].
    simpl in *. apply step_promise_settled. exact H.
  - apply promise_of_handle_other. exact Hne.
Qed.

Lemma promise_of_handle_all_settled (pid : nat) (evs : list event) (st : state) :
  settled (promise_of pid st) = true ->
  promise_of pid (handle_all evs st) = promise_of pid st.
Proof.
  revert st. induction evs as [|ev evs IH]; intros st H; [reflexivity|].
  simpl. rewrite IH; rewrite promise_of_handle_settled; auto.
Qed.

Lemma handle_length (ev : event) (st : state) :
  length (children (handle ev st)) = length (children st).
Proof. destruct ev as [pid e]. rewrite handle_children. apply length_alter. Qed.

Lemma handle_all_length (evs : list event) (st : state) :
  length (children (handle_all evs st)) = length (children st).
Proof.
  revert st. induction evs as [|ev evs IH]; intros st; [reflexivity|].
  simpl. rewrite IH. apply handle_length.
Qed.

(** ** The output buffer *)

Lemma map_get_delete (c c' : string) (m : list (string * list chunk)) :
  map_get c' (map_delete c m) = if String.eqb c' c then None else map_get c' m.
Proof.
  induction m as [|[k v] m IH]; simpl.
  - destruct (String.eqb c' c); reflexivity.
  - destruct (String.eqb_spec c k) as [->|Hck]; simpl.
    + rewrite IH. destruct (String.eqb c' k); reflexivity.
    + rewrite IH. destruct (String.eqb_spec c' k) as [->|Hc'k]; [|reflexivity].
      destruct (String.eqb_spec k c) as [->|]; [contradiction | reflexivity].
Qed.

Lemma map_get_push (c c' : string) (x : chunk) (m : list (string * list chunk)) :
  map_get c' (map_push c x m)
  = if String.eqb c' c then option_map (fun v => v ++ [x]) (map_get c m) else map_get c' m.
Proof.
  induction m as [|[k v] m IH]; simpl.
  - destruct (String.eqb c' c); reflexivity.
  - destruct (String.eqb_spec c k) as [->|Hck]; simpl.
    + destruct (String.eqb c' k); reflexivity.
    + rewrite IH. destruct (String.eqb_spec c' k) as [->|Hc'k]; [|reflexivity].
      destruct (String.eqb_spec k c) as [->|]; [contradiction | reflexivity].
Qed.

Lemma map_get_new (c c' : string) (m : list (string * list chunk)) :
  map_get c' (m ++ [(c, [])])
  = match map_get c' m with
    | Some v => Some v
    | None => if String.eqb c' c then Some [] else None
    end.
Proof.
  induction m as [|[k v] m IH]; simpl; [reflexivity|].
  destruct (String.eqb c' k); [reflexivity | exact IH].
Qed.

Lemma is_primary_spec (c : string) (st : state) :
  is_primary c st = true <-> getPrimaryCommand st = Some c.
Proof.
  unfold is_primary. destruct (getPrimaryCommand st) as [c'|].
  - rewrite String.eqb_eq. split; congruence.
  - split; discriminate.
Qed.

Lemma written_for_app (c : string) (ws : list write_call) (st st' : state) :
  console st' = console st ++ ws ->
  written_for c st'
  = written_for c st ++ map written (List.filter (fun w => String.eqb (by_command w) c) ws).
Proof. intros H. unfold written_for. rewrite H, List.filter_app, List.map_app. reflexivity. Qed.

Lemma written_tagged (c c' : string) (buffer : list chunk) :
  map written
      (List.filter (fun w => String.eqb (by_command w) c')
                   (map (fun data => {| by_command := c; written := data |}) buffer))
  = if String.eqb c c' then buffer else [].
Proof.
  induction buffer as [|x buffer IH]; simpl.
  - destruct (String.eqb c c'); reflexivity.
  - destruct (String.eqb c c'); simpl; [f_equal|]; exact IH.
Qed.

(** The two branches of [write]: the primary command's text goes to the
    stream at once, any other command's text goes to the end of its
    buffer. *)
Lemma write_primary (s : Stream) (text c : string) (st : state) :
  getPrimaryCommand st = Some c ->
  console (write s text c st)
  = console st ++ [{| by_command := c; written := {| stream := s; text := text |} |}]
  /\ buffers (write s text c st) = buffers st.
Proof.
  intros H. apply is_primary_spec in H. unfold write. rewrite H. simpl. tauto.
Qed.

Lemma write_buffered (s : Stream) (text c : string) (st : state) :
  getPrimaryCommand st <> Some c ->
  console (write s text c st) = console st
  /\ buffered_for c (write s text c st)
     = buffered_for c st ++ [{| stream := s; text := text |}]
  /\ forall c', c' <> c -> map_get c' (buffers (write s text c st)) = map_get c' (buffers st).
Proof.
  intros H. assert (Hp : is_primary c st = false).
  { destruct (is_primary c st) eqn:E; [|reflexivity]. apply is_primary_spec in E. contradiction. }
  unfold write, buffered_for. rewrite Hp. simpl. split; [reflexivity|]. split.
  - rewrite map_get_push, String.eqb_refl.
    destruct (map_get c (buffers st)) as [v|] eqn:E.
    + rewrite E. reflexivity.
    + rewrite map_get_new, E, String.eqb_refl. reflexivity.
  - intros c' Hc'. rewrite map_get_push.
    destruct (String.eqb_spec c' c) as [->|_]; [contradiction|].
    destruct (map_get c (buffers st)); [reflexivity|].
    rewrite map_get_new.
    destruct (String.eqb_spec c' c) as [->|_]; [contradiction|].
    destruct (map_get c' (buffers st)); reflexivity.
Qed.

Lemma primary_write (s : Stream) (text c : string) (st : state) :
  getPrimaryCommand (write s text c st) = getPrimaryCommand st.
Proof. unfold getPrimaryCommand. f_equal. apply write_frame. Qed.

Lemma primary_flush (c : option string) (st : state) :
  getPrimaryCommand (flush c st) = getPrimaryCommand st.
Proof. unfold getPrimaryCommand. f_equal. apply flush_frame. Qed.

Lemma write_accounted (s : Stream) (text c c' : string) (st : state) :
  primary_unbuffered st ->
  primary_unbuffered (write s text c st)
  /\ accounted_for c' (write s text c st)
     = accounted_for c' st
       ++ (if String.eqb c c' then [{| stream := s; text := text |}] else []).
Proof.
  intros Hinv. unfold accounted_for.
  destruct (is_primary c st) eqn:Hp.
  - apply is_primary_spec in Hp. destruct (write_primary s text c st Hp) as [Hc Hb].
    split.
    + intros p Hprim. rewrite Hb. apply Hinv.
      rewrite <- Hprim. symmetry. apply primary_write.
    + rewrite (written_for_app c' _ st _ Hc). unfold buffered_for. rewrite Hb. simpl.
      destruct (String.eqb_spec c c') as [<-|Hne]; simpl.
      * rewrite (Hinv c Hp). simpl. rewrite !app_nil_r. reflexivity.
      * rewrite !app_nil_r. reflexivity.
  - assert (Hn : getPrimaryCommand st <> Some c).
    { intros E. apply is_primary_spec in E. congruence. }
    destruct (write_buffered s text c st Hn) as (Hc & Hb & Ho).
    split.
    + intros p Hprim.
      assert (Hp' : getPrimaryCommand st = Some p).
      { rewrite <- Hprim. symmetry. apply primary_write. }
      rewrite Ho; [apply Hinv, Hp' | congruence].
    + unfold written_for. rewrite Hc.
      destruct (String.eqb_spec c c') as [<-|Hne].
      * rewrite Hb. apply app_assoc.
      * unfold buffered_for. rewrite Ho; [|congruence]. rewrite app_nil_r. reflexivity.
Qed.

Lemma flush_accounted (c : option string) (c' : string) (st : state) :
  accounted_for c' (flush c st) = accounted_for c' st
  /\ (forall k, c = Some k -> map_get k (buffers (flush c st)) = None)
  /\ (forall k, map_get k (buffers st) = None -> map_get k (buffers (flush c st)) = None).
Proof.
  unfold flush, accounted_for. destruct c as [c|]; [|repeat split; [discriminate | tauto]].
  destruct (map_get c (buffers st)) as [buffer|] eqn:E.
  - repeat split.
    + erewrite (written_for_app c' _ st); [|simpl; reflexivity].
      rewrite written_tagged.
      unfold buffered_for. simpl. rewrite map_get_delete.
      destruct (String.eqb_spec c c') as [<-|Hne].
      * rewrite String.eqb_refl, E. simpl. rewrite app_nil_r. reflexivity.
      * destruct (String.eqb_spec c' c) as [->|_]; [contradiction|].
        rewrite app_nil_r. reflexivity.
    + intros k [= <-]. simpl. rewrite map_get_delete, String.eqb_refl. reflexivity.
    + intros k Hk. simpl. rewrite map_get_delete, Hk. destruct (String.eqb k c); reflexivity.
  - repeat split; [intros k [= <-]; exact E | tauto].
Qed.

Lemma on_close_accounted (c c' : string) (st : state) :
  primary_unbuffered (on_close c st)
  /\ accounted_for c' (on_close c st) = accounted_for c' st.
Proof.
  unfold on_close. set (st1 := {| runningCommands := set_delete c (runningCommands st);
                                  buffers := buffers st; console := console st;
                                  spawns := spawns st; children := children st;
                                  errors := errors st |}).
  destruct (flush_accounted (getPrimaryCommand st1) c' st1) as (Ha & Hk & _).
  split; [|exact Ha].
  intros p Hp. apply Hk. rewrite <- Hp. symmetry. apply primary_flush.
Qed.


Lemma shape_child (commands : list string) (st : state) (pid : nat) :
  shape st = map (fun c => (c, true)) commands ->
  match children st !! pid with
  | Some ch => commands !! pid = Some (ch_command ch) /\ ch_parallel ch = true
  | None => commands !! pid = None
  end.
Proof.
  intros H. assert (E := shape_lookup st pid). rewrite H, list_lookup_fmap in E.
  destruct (children st !! pid) as [ch|], (commands !! pid) as [c|]; simpl in E;
    try discriminate; [|reflexivity].
  injection E as -> ->. split; reflexivity.
Qed.




(** [flushAll] writes what every buffer holds and leaves no buffer. *)
Lemma flush_keys (keys : list string) : forall st,
  (forall c, accounted_for c (fold_left (fun st k => flush (Some k) st) keys st)
             = accounted_for c st)
  /\ (forall k, In k keys \/ map_get k (buffers st) = None ->
                map_get k (buffers (fold_left (fun st k => flush (Some k) st) keys st)) = None).
Proof.
  induction keys as [|k0 keys IH]; intros st; cbn [fold_left].
  - split; [reflexivity|]. intros k [[]|H]. exact H.
  - destruct (IH (flush (Some k0) st)) as [Hacc Hnone]. split.
    + intros c. rewrite Hacc. apply flush_accounted.
    + intros k Hk. apply Hnone.
      destruct (flush_accounted (Some k0) "" st) as (_ & Hdel & Hkeep).
      destruct Hk as [[<-|Hin]|Hn]; [right; apply Hdel; reflexivity | left; exact Hin|].
      right. apply Hkeep, Hn.
Qed.

Lemma map_get_None_all (m : list (string * list chunk)) :
  (forall k, map_get k m = None) -> m = [].
Proof.
  destruct m as [|[k v] m]; [reflexivity|]. intros H. specialize (H k).
  simpl in H. rewrite String.eqb_refl in H. discriminate.
Qed.

Lemma map_get_key (k : string) (m : list (string * list chunk)) :
  In k (map fst m) \/ map_get k m = None.
Proof.
  induction m as [|[k' v] m IH]; simpl; [right; reflexivity|].
  destruct (String.eqb_spec k k') as [->|Hne]; [left; left; reflexivity|].
  destruct IH as [H|H]; [left; right; exact H | right; exact H].
Qed.

Lemma flush_fold_frame (keys : list string) : forall st,
  spawns (fold_left (fun st k => flush (Some k) st) keys st) = spawns st
  /\ children (fold_left (fun st k => flush (Some k) st) keys st) = children st
  /\ errors (fold_left (fun st k => flush (Some k) st) keys st) = errors st.
Proof.
  induction keys as [|k keys IH]; intros st; cbn [fold_left]; [tauto|].
  destruct (flush_frame (Some k) st) as (_ & H1 & H2 & H3).
  rewrite <- H1, <- H2, <- H3. apply IH.
Qed.

Lemma flushAll_spec (st : state) :
  buffers (flushAll st) = []
  /\ (forall c, written_for c (flushAll st) = accounted_for c st)
  /\ spawns (flushAll st) = spawns st
  /\ children (flushAll st) = children st
  /\ errors (flushAll st) = errors st.
Proof.
  unfold flushAll. destruct (flush_keys (map fst (buffers st)) st) as [Hacc Hnone].
  assert (Hb : buffers (fold_left (fun st k => flush (Some k) st) (map fst (buffers st)) st) = []).
  { apply map_get_None_all. intros k. apply Hnone, map_get_key. }
  split; [exact Hb|]. split.
  - intros c. rewrite <- Hacc. unfold accounted_for, buffered_for. rewrite Hb. simpl.
    symmetry. apply app_nil_r.
  - apply flush_fold_frame.
Qed.

(** ** Starting and awaiting *)

Lemma start_all_spec (p : process) (o : RunOptions) (commands : list string) : forall st,
  buffers (start_all p commands o st) = buffers st
  /\ console (start_all p commands o st) = console st
  /\ errors (start_all p commands o st) = errors st
  /\ spawns (start_all p commands o st)
     = spawns st ++ map (fun c => spawn_of p c o) commands
  /\ children (start_all p commands o st)
     = children st
       ++ map (fun c => {| ch_command := c; ch_parallel := parallel o; ch_promise := Pending |})
              commands.
Proof.
  induction commands as [|c commands IH]; intros st.
  - simpl. rewrite !app_nil_r. tauto.
  - unfold start_all in *. cbn [fold_left].
    destruct (IH (runCommand p c o st)) as (H1 & H2 & H3 & H4 & H5).
    rewrite H1, H2, H3, H4, H5. simpl. rewrite <- !app_assoc. tauto.
Qed.

Lemma all_settled_spec (st : state) :
  all_settled st = true <->
  forall pid, (pid < length (children st))%nat -> settled (promise_of pid st) = true.
Proof.
  unfold all_settled, promise_of. generalize (children st). intros l.
  induction l as [|ch l IH]; simpl.
  - split; [intros _ pid H; lia | reflexivity].
  - rewrite andb_true_iff, IH. split.
    + intros [H0 H] [|pid] Hlt; [exact H0 | apply H; lia].
    + intros H. split; [apply (H 0%nat); lia|]. intros pid Hlt. apply (H (S pid)). lia.
Qed.

Lemma promise_of_outside (pid : nat) (st : state) :
  (length (children st) <= pid)%nat -> promise_of pid st = Pending.
Proof.
  intros H. unfold promise_of. rewrite (proj2 (lookup_ge_None _ _) H). reflexivity.
Qed.

(** When the events settle every promise, [Promise.allSettled] resolves,
    after some of them. *)
Lemma await_all_returns (evs : list event) : forall st,
  all_settled (handle_all evs st) = true ->
  exists consumed rest,
    evs = consumed ++ rest
    /\ await_all evs st = Some (handle_all consumed st, rest)
    /\ all_settled (handle_all consumed st) = true
    /\ forall a b, consumed = a ++ b -> b <> [] -> all_settled (handle_all a st) = false.
Proof.
  induction evs as [|ev evs IH]; intros st H.
  - exists [], []. simpl in *. rewrite H. repeat split; auto.
    intros a b E Hb. symmetry in E. apply app_eq_nil in E as [_ ->]. contradiction.
  - simpl await_all. destruct (all_settled st) eqn:E.
    + exists [], (ev :: evs). repeat split; auto.
      intros a b Eab Hb. symmetry in Eab. apply app_eq_nil in Eab as [_ ->]. contradiction.
    + destruct (IH (handle ev st) H) as (consumed & rest & -> & Haw & Hs & Hmin).
      exists (ev :: consumed), rest. repeat split; auto.
      intros [|ev' a] b Eab Hb; [exact E|].
      injection Eab as <- ->. rewrite handle_all_cons. apply (Hmin a b eq_refl Hb).
Qed.

Lemma final_settles (pid : nat) (evs : list event) : forall st,
  (pid < length (children st))%nat ->
  existsb (fun ev => Nat.eqb (fst ev) pid && is_final (snd ev)) evs = true ->
  settled (promise_of pid (handle_all evs st)) = true.
Proof.
  induction evs as [|[pid' e] evs IH]; intros st Hlt H; [discriminate|].
  simpl in H. rewrite handle_all_cons.
  destruct (Nat.eqb_spec pid' pid) as [E|Hne]; simpl in H.
  - subst pid'. destruct (is_final e) eqn:Ef.
    + destruct (lookup_lt_is_Some_2 _ _ Hlt) as [ch Hch].
      assert (Hs : settled (promise_of pid (handle (pid, e) st)) = true).
      { rewrite (promise_of_handle_same _ _ _ _ Hch). apply step_promise_final, Ef. }
      rewrite promise_of_handle_all_settled; exact Hs.
    + apply IH; [rewrite handle_length; exact Hlt | exact H].
  - apply IH; [rewrite handle_length; exact Hlt | exact H].
Qed.

Lemma all_end_settles (evs : list event) (st : state) :
  all_end (length (children st)) evs = true ->
  all_settled (handle_all evs st) = true.
Proof.
  intros H. apply all_settled_spec. intros pid Hlt. rewrite handle_all_length in Hlt.
  apply final_settles; [exact Hlt|].
  unfold all_end in H. rewrite forallb_forall in H. apply H, in_seq. lia.
Qed.




Lemma existsb_eqb_In (pid : nat) (l : list nat) :
  existsb (Nat.eqb pid) l = true <-> In pid l.
Proof.
  rewrite existsb_exists. split.
  - intros (x & Hx & E). apply Nat.eqb_eq in E. subst. exact Hx.
  - intros H. exists pid. split; [exact H | apply Nat.eqb_refl].
Qed.


(** The state in which [run] begins to wait in parallel mode. *)
Lemma start_all_init (p : process) (o : RunOptions) (commands : list string) :
  parallel o = true ->
  let st1 := start_all p commands o init in
  shape st1 = map (fun c => (c, true)) commands
  /\ primary_unbuffered st1
  /\ (forall c, accounted_for c st1 = [])
  /\ length (children st1) = length commands
  /\ (forall pid, promise_of pid st1 = Pending)
  /\ errors st1 = []
  /\ spawns st1 = map (fun c => spawn_of p c o) commands
  /\ agrees commands [] st1.
Proof.
  intros Hpar st1.
  destruct (start_all_spec p o commands init) as (Hb & Hc & He & Hs & Hch).
  fold st1 in Hb, Hc, He, Hs, Hch. simpl in Hb, Hc, He, Hs, Hch.
  repeat split.
  - unfold shape. rewrite Hch, map_map. simpl. rewrite Hpar. reflexivity.
  - intros c _. rewrite Hb. reflexivity.
  - intros c. unfold accounted_for, written_for, buffered_for. rewrite Hb, Hc. reflexivity.
  - rewrite Hch. apply length_map.
  - intros pid. unfold promise_of. rewrite Hch, list_lookup_fmap.
    destruct (commands !! pid); reflexivity.
  - exact He.
  - exact Hs.
  - intros pid. rewrite Hch, list_lookup_fmap.
    destruct (commands !! pid); simpl; [|reflexivity]. rewrite Hpar. auto.
Qed.

(** ** The primary command *)

Lemma handle_running (pid : nat) (e : child_event) (st : state) :
  runningCommands (handle (pid, e) st)
  = match children st !! pid, e with
    | Some ch, Close _ => set_delete (ch_command ch) (runningCommands st)
    | _, _ => runningCommands st
    end.
Proof.
  unfold handle. destruct (children st !! pid) as [ch|]; [|reflexivity].
  destruct e as [s text|err|code].
  - destruct (ch_parallel ch); [apply write_frame | reflexivity].
  - apply reject_spec.
  - transitivity (runningCommands (on_close (ch_command ch) st)).
    + destruct (is_zero code); [apply resolve_spec | apply reject_spec].
    + unfold on_close. rewrite (proj1 (flush_frame _ _)). reflexivity.
Qed.

Lemma child_command (commands : list string) (st : state) (pid : nat) :
  map fst (shape st) = commands ->
  match children st !! pid with
  | Some ch => commands !! pid = Some (ch_command ch)
  | None => commands !! pid = None
  end.
Proof.
  intros <-. unfold shape. rewrite map_map. simpl. rewrite list_lookup_fmap.
  destruct (children st !! pid); reflexivity.
Qed.

Lemma filter_filter_list {A : Type} (f g : A -> bool) (l : list A) :
  List.filter f (List.filter g l) = List.filter (fun x => g x && f x) l.
Proof.
  induction l as [|x l IH]; [reflexivity|]. simpl.
  destruct (g x); simpl; [destruct (f x); [f_equal|]; exact IH | exact IH].
Qed.

(** The set holds the started commands for which no ['close'] was
    handled. *)
Lemma running_after (commands : list string) (evs : list event) : forall st,
  map fst (shape st) = commands ->
  runningCommands (handle_all evs st)
  = List.filter (fun c => negb (is_closed commands evs c)) (runningCommands st).
Proof.
  unfold is_closed.
  induction evs as [|[pid e] evs IH]; intros st Hshape.
  - simpl. induction (runningCommands st) as [|c l IHl]; [reflexivity|].
    simpl. f_equal. exact IHl.
  - rewrite handle_all_cons, IH by (rewrite handle_shape; exact Hshape).
    rewrite handle_running. assert (Hc := child_command commands st pid Hshape).
    destruct (children st !! pid) as [ch|]; destruct e as [s text|err|code]; simpl;
      rewrite ?Hc; try reflexivity.
    unfold set_delete. rewrite filter_filter_list.
    apply filter_ext_in_list. intros c _. simpl.
    rewrite negb_orb. f_equal. f_equal. apply String.eqb_sym.
Qed.

Lemma start_all_running (p : process) (o : RunOptions) (commands : list string) : forall st,
  runningCommands (start_all p commands o st)
  = fold_left (fun set c => set_add c set) commands (runningCommands st)
  /\ map fst (shape (start_all p commands o st)) = map fst (shape st) ++ commands.
Proof.
  unfold start_all. induction commands as [|c commands IH]; intros st; cbn [fold_left].
  - rewrite app_nil_r. auto.
  - destruct (IH (runCommand p c o st)) as [H1 H2]. rewrite H1, H2. split; [reflexivity|].
    unfold shape. simpl. rewrite !map_app. simpl. rewrite <- app_assoc. reflexivity.
Qed.

Lemma set_add_spec (c : string) (set : list string) :
  (In c set -> set_add c set = set) /\ (~ In c set -> set_add c set = set ++ [c]).
Proof.
  unfold set_add. destruct (existsb (String.eqb c) set) eqn:E.
  - split; [reflexivity|]. intros H. exfalso. apply H.
    apply existsb_exists in E as (x & Hx & Heq). apply String.eqb_eq in Heq. subst. exact Hx.
  - split; [|reflexivity]. intros H. exfalso.
    assert (Ht : existsb (String.eqb c) set = true)
      by (apply existsb_exists; exists c; split; [exact H | apply String.eqb_refl]).
    congruence.
Qed.

Lemma head_filter_member {A : Type} (f : A -> bool) (x : A) (l k : list A) :
  In x l -> head (List.filter f (l ++ x :: k)) = head (List.filter f (l ++ k)).
Proof.
  intros Hin. rewrite !List.filter_app. simpl. destruct (f x) eqn:Hf; [|reflexivity].
  assert (Hx : In x (List.filter f l)) by (apply filter_In; auto).
  destruct (List.filter f l); [destruct Hx | reflexivity].
Qed.

(** Adding the commands one by one keeps the first of each, in order. *)
Lemma fold_set_add (f : string -> bool) (l : list string) : forall acc,
  head (List.filter f (fold_left (fun set c => set_add c set) l acc))
  = head (List.filter f (acc ++ l))
  /\ (forall c, In c (fold_left (fun set c => set_add c set) l acc) <-> In c acc \/ In c l)
  /\ (NoDup acc -> NoDup (fold_left (fun set c => set_add c set) l acc)).
Proof.
  induction l as [|x l IH]; intros acc; cbn [fold_left].
  - rewrite app_nil_r. repeat split; auto. intros [H|[]]. exact H.
  - destruct (IH (set_add x acc)) as (Hh & Hin & Hnd).
    destruct (in_dec string_dec x acc) as [Hx|Hx].
    + rewrite (proj1 (set_add_spec x acc) Hx) in *. split; [|split].
      * rewrite Hh. symmetry. apply head_filter_member, Hx.
      * intros c. rewrite Hin. simpl. split; [tauto|]. intros [H|[<-|H]]; auto.
      * exact Hnd.
    + rewrite (proj2 (set_add_spec x acc) Hx) in *. split; [|split].
      * rewrite Hh, <- app_assoc. reflexivity.
      * intros c. rewrite Hin, List.in_app_iff. simpl. tauto.
      * intros Hacc. apply Hnd. apply NoDup_app. split; [exact Hacc|]. split.
        -- intros y Hy Hy'. apply list_elem_of_In in Hy, Hy'. destruct Hy' as [<-|[]].
           contradiction.
        -- apply NoDup_singleton.
Qed.

Lemma running_from_start (p : process) (commands : list string) (o : RunOptions)
    (evs : list event) :
  runningCommands (handle_all evs (start_all p commands o init))
  = List.filter (fun c => negb (is_closed commands evs c))
                (fold_left (fun set c => set_add c set) commands []).
Proof.
  destruct (start_all_running p o commands init) as [Hrun Hshape].
  simpl in Hrun, Hshape. rewrite (running_after commands evs _ Hshape), Hrun. reflexivity.
Qed.

Lemma primary_from_start (p : process) (commands : list string) (o : RunOptions)
    (evs : list event) :
  getPrimaryCommand (handle_all evs (start_all p commands o init))
  = head (List.filter (fun c => negb (is_closed commands evs c)) commands).
Proof.
  unfold getPrimaryCommand. rewrite running_from_start.
  apply (fold_set_add (fun c => negb (is_closed commands evs c)) commands []).
Qed.

Lemma primary_on_close (c : string) (st : state) :
  getPrimaryCommand (on_close c st) = head (set_delete c (runningCommands st)).
Proof. unfold on_close. rewrite primary_flush. reflexivity. Qed.

Lemma primary_settle (pid : nat) (st : state) (e : Error) :
  getPrimaryCommand (resolve pid st) = getPrimaryCommand st
  /\ getPrimaryCommand (reject pid e st) = getPrimaryCommand st.
Proof.
  unfold getPrimaryCommand.
  rewrite (proj1 (resolve_spec pid st)), (proj1 (reject_spec pid e st)). auto.
Qed.

Lemma flush_console (c : option string) (st : state) :
  console (flush c st)
  = console st ++
    match c with
    | Some k => block (k, default [] (map_get k (buffers st)))
    | None => []
    end.
Proof.
  unfold flush, block. destruct c as [k|]; [|symmetry; apply app_nil_r].
  destruct (map_get k (buffers st)); simpl; [reflexivity | symmetry; apply app_nil_r].
Qed.

Lemma on_close_console (c : string) (st : state) :
  console (on_close c st)
  = console st ++
    match getPrimaryCommand (on_close c st) with
    | Some k => block (k, default [] (map_get k (buffers st)))
    | None => []
    end.
Proof.
  rewrite primary_on_close. unfold on_close. rewrite flush_console. reflexivity.
Qed.

(** ** C1 *)


(** ** Failures in parallel mode *)

Lemma agrees_unchanged (commands : list string) (ended : list nat) (st st' : state) :
  children st' = children st -> agrees commands ended st -> agrees commands ended st'.
Proof. intros E H pid. rewrite E. apply H. Qed.

Lemma agrees_ended (commands : list string) (ended : list nat) (st : state)
    (pid : nat) (e : child_event) (ch : child) :
  agrees commands ended st ->
  children st !! pid = Some ch ->
  ch_promise ch = Pending ->
  is_final e = true ->
  agrees commands (pid :: ended) (handle (pid, e) st).
Proof.
  intros H Hch Hp Hf q. rewrite handle_children.
  destruct (Nat.eq_dec pid q) as [<-|Hne].
  - rewrite list_lookup_alter_eq, Hch. simpl. specialize (H pid). rewrite Hch in H.
    destruct H as (H1 & H2 & _). repeat split; [exact H1 | exact H2|].
    rewrite Nat.eqb_refl. simpl. apply step_promise_final, Hf.
  - rewrite list_lookup_alter_ne by exact Hne. specialize (H q).
    destruct (children st !! q) as [ch'|]; [|exact H].
    destruct H as (H1 & H2 & H3). repeat split; [exact H1 | exact H2|].
    simpl. destruct (Nat.eqb_spec q pid) as [->|_]; [contradiction | exact H3].
Qed.

(** The [errors] array receives the failures in the order of the events
    that cause them. *)
Lemma errors_failures (commands : list string) (evs : list event) : forall ended st,
  agrees commands ended st ->
  errors (handle_all evs st) = errors st ++ failures commands ended evs.
Proof.
  induction evs as [|[pid e] evs IH]; intros ended st H.
  - simpl. symmetry. apply app_nil_r.
  - rewrite handle_all_cons. simpl failures.
    assert (Hpid := H pid). assert (Herr := handle_errors pid e st).
    destruct (children st !! pid) as [ch|] eqn:Hch.
    + destruct Hpid as (Hc & Hpar & Hs). rewrite Hc, <- Hs. rewrite Hpar in Herr.
      destruct (settled (ch_promise ch)) eqn:Hset; cbn [negb andb] in Herr.
      * rewrite app_nil_r in Herr. rewrite (IH ended), Herr; [reflexivity|].
        apply (agrees_unchanged _ _ st); [|exact H].
        rewrite handle_children. apply alter_same. intros x Hx. rewrite Hch in Hx.
        injection Hx as <-. unfold step_child.
        rewrite (step_promise_settled _ _ _ Hset). apply set_promise_same.
      * assert (Hp : ch_promise ch = Pending) by (destruct (ch_promise ch); [reflexivity | discriminate..]).
        destruct e as [s text|err|code].
        -- rewrite app_nil_r in Herr. rewrite (IH ended), Herr; [reflexivity|].
           apply (agrees_unchanged _ _ st); [|exact H].
           rewrite handle_children. apply alter_same. intros x Hx. rewrite Hch in Hx.
           injection Hx as <-. unfold step_child. rewrite Hp. simpl. rewrite <- Hp.
           apply set_promise_same.
        -- rewrite (IH (pid :: ended)), Herr.
           ++ simpl. rewrite <- app_assoc. reflexivity.
           ++ apply (agrees_ended _ _ _ _ _ ch); auto.
        -- rewrite (IH (pid :: ended)), Herr.
           ++ simpl. destruct (is_zero code); simpl; rewrite <- ?app_assoc; reflexivity.
           ++ apply (agrees_ended _ _ _ _ _ ch); auto.
    + rewrite Hpid, (IH ended), Herr, app_nil_r; [reflexivity|].
      apply (agrees_unchanged _ _ st); [|exact H].
      rewrite handle_children. apply alter_same. intros x Hx. rewrite Hch in Hx. discriminate.
Qed.

Lemma all_settled_handle (ev : event) (st : state) :
  all_settled st = true ->
  children (handle ev st) = children st /\ errors (handle ev st) = errors st.
Proof.
  intros H. destruct ev as [pid e].
  assert (Hs : forall ch, children st !! pid = Some ch -> settled (ch_promise ch) = true).
  { intros ch Hch. assert (Hlt := lookup_lt_Some _ _ _ Hch).
    generalize (proj1 (all_settled_spec st) H pid Hlt). unfold promise_of. rewrite Hch. auto. }
  split.
  - rewrite handle_children. apply alter_same. intros x Hx. unfold step_child.
    rewrite (step_promise_settled _ _ _ (Hs x Hx)). apply set_promise_same.
  - rewrite handle_errors. destruct (children st !! pid) as [ch|]; [|apply app_nil_r].
    rewrite (Hs ch eq_refl), andb_false_r. apply app_nil_r.
Qed.

(** Once every promise is settled no event changes a promise or records
    an error. *)
Lemma all_settled_stable (evs : list event) : forall st,
  all_settled st = true ->
  errors (handle_all evs st) = errors st /\ children (handle_all evs st) = children st.
Proof.
  induction evs as [|ev evs IH]; intros st H; [split; reflexivity|].
  rewrite handle_all_cons. destruct (all_settled_handle ev st H) as (Hc & He).
  assert (H' : all_settled (handle ev st) = true) by (unfold all_settled; rewrite Hc; exact H).
  destruct (IH _ H') as [IH1 IH2]. rewrite IH1, IH2. auto.
Qed.

(** ** C2 *)

(** C2. In parallel mode every command is started, and [run] returns
    when every child has ended and not before, whatever fails. The
    result follows the failures in the order of the events that cause
    them: none, [run] returns; one, that error is thrown; two or more,
    an aggregate error is thrown whose message gives their number and
    their messages in that order. *)
Theorem C2_parallel_collects_failures (p : process) (commands : list string) (o : RunOptions)
    (evs : list event) :
  parallel o = true ->
  all_end (length commands) evs = true ->
  exists st result consumed rest,
    run_parallel p commands o evs init = Some (st, result, rest)
    /\ evs = consumed ++ rest
    /\ spawns st = map (fun c => spawn_of p c o) commands
    /\ all_settled st = true
    /\ (forall a b, consumed = a ++ b -> b <> [] ->
          all_settled (handle_all a (start_all p commands o init)) = false)
    /\ errors st = failures commands [] evs
    /\ (failures commands [] evs = [] -> result = Return)
    /\ (forall e, failures commands [] evs = [e] -> result = Throw (ThrowError e))
    /\ ((2 <= length (failures commands [] evs))%nat ->
        result
        = Throw (ThrowAggregate
                   (failures commands [] evs)
                   ("Execution of " +:+ Str.of_nat (length (failures commands [] evs))
                    +:+ " commands failed" +:+ Str.nl +:+ "  "
                    +:+ Str.join (Str.nl +:+ "  ")
                                 (map message (failures commands [] evs))))).
Proof.
  intros Hpar Hend.
  destruct (start_all_init p o commands Hpar) as (_ & _ & _ & Hlen & _ & Herr & Hsp & Hag).
  set (st1 := start_all p commands o init) in *.
  assert (Hall : all_settled (handle_all evs st1) = true)
    by (apply all_end_settles; rewrite Hlen; exact Hend).
  destruct (await_all_returns evs st1 Hall) as (consumed & rest & E & Haw & Hs & Hmin).
  unfold run_parallel. fold st1. rewrite Haw.
  set (st2 := handle_all consumed st1) in *.
  destruct (flushAll_spec st2) as (_ & _ & Hsp3 & Hch3 & Herr3).
  assert (Hfail : errors (flushAll st2) = failures commands [] evs).
  { rewrite Herr3, <- (proj1 (all_settled_stable rest _ Hs)). unfold st2.
    rewrite <- handle_all_app, <- E.
    rewrite (errors_failures commands evs [] st1 Hag), Herr. reflexivity. }
  exists (flushAll st2), (gathered (errors (flushAll st2))), consumed, rest.
  repeat split.
  - exact E.
  - rewrite Hsp3. unfold st2. rewrite handle_all_spawns. exact Hsp.
  - unfold all_settled. rewrite Hch3. exact Hs.
  - exact Hmin.
  - exact Hfail.
  - intros H0. rewrite Hfail, H0. reflexivity.
  - intros e H1. rewrite Hfail, H1. reflexivity.
  - intros H2. rewrite Hfail.
    destruct (failures commands [] evs) as [|e1 [|e2 es]]; simpl in H2; try lia.
    reflexivity.
Qed.

Lemma C2_witness :
  exists st result rest,
    run_parallel sample_process ["a"; "b"; "c"] in_parallel sample_events init
    = Some (st, result, rest)
    /\ errors st = failures ["a"; "b"; "c"] [] sample_events.
Proof.
  destruct (C2_parallel_collects_failures sample_process ["a"; "b"; "c"] in_parallel
              sample_events eq_refl eq_refl)
    as (st & result & consumed & rest & H1 & _ & _ & _ & _ & H6 & _).
  exists st, result, rest. split; [exact H1 | exact H6].
Defined.


(** The sample run: the second and third commands surface after the
    first, each in its own order, and the failures are listed as they
    happened, the third command's before the second's. *)
Example sample_parallel_run :
  match run_parallel sample_process ["a"; "b"; "c"] in_parallel sample_events init with
  | Some (st, result, _) =>
      map (fun w => (by_command w, text (written w))) (console st)
      = [("a", "a1"); ("a", "a2"); ("b", "b1"); ("b", "b2"); ("c", "c1")]
      /\ result
         = Throw (ThrowAggregate
                    [ {| message := "c exited with code null" |};
                      {| message := "b exited with code 1" |} ]
                    ("Execution of 2 commands failed" +:+ Str.nl
                     +:+ "  c exited with code null" +:+ Str.nl
                     +:+ "  b exited with code 1"))
  | None => False
  end.
Proof. vm_compute. split; reflexivity. Qed.

(** ** Sequential mode *)

Lemma await_settled (pid : nat) (evs : list event) (st : state) :
  settled (promise_of pid st) = true -> await pid evs st = Some (st, evs).
Proof. intros H. destruct evs; simpl; rewrite H; reflexivity. Qed.

Lemma await_pending (pid : nat) (ev : event) (evs : list event) (st : state) :
  promise_of pid st = Pending -> await pid (ev :: evs) st = await pid evs (handle ev st).
Proof. intros H. simpl. rewrite H. reflexivity. Qed.

(** Events of other children do not end the wait. *)
Lemma await_others (pid : nat) (junk : list event) : forall evs st,
  Forall (fun ev => fst ev <> pid) junk ->
  promise_of pid st = Pending ->
  await pid (junk ++ evs) st = await pid evs (handle_all junk st)
  /\ promise_of pid (handle_all junk st) = Pending.
Proof.
  induction junk as [|[pid' e] junk IH]; intros evs st Hj Hp; [split; [reflexivity | exact Hp]|].
  apply Forall_cons_1 in Hj as [Hne Hj]. simpl in Hne.
  rewrite <- app_comm_cons, (await_pending _ _ _ _ Hp), handle_all_cons.
  apply IH; [exact Hj|]. rewrite promise_of_handle_other; [exact Hp | congruence].
Qed.

(** The events of the awaited child end the wait at the first ['error']
    or ['close']. *)
Lemma await_own (pid : nat) (b : list child_event) (more : list event) : forall st ch pr,
  children st !! pid = Some ch ->
  ch_promise ch = Pending ->
  outcome (ch_command ch) b = Some pr ->
  exists b1 b2,
    b = b1 ++ b2
    /\ await pid (map (pair pid) b ++ more) st
       = Some (handle_all (map (pair pid) b1) st, map (pair pid) b2 ++ more)
    /\ promise_of pid (handle_all (map (pair pid) b1) st) = pr.
Proof.
  induction b as [|e b IH]; intros st ch pr Hch Hp Hout; [discriminate|].
  assert (Hpend : promise_of pid st = Pending) by (unfold promise_of; rewrite Hch; exact Hp).
  assert (Hstep := promise_of_handle_same pid e st ch Hch).
  rewrite Hp in Hstep.
  simpl map. rewrite <- app_comm_cons, (await_pending _ _ _ _ Hpend).
  destruct e as [s text|err|code]; simpl in Hout, Hstep.
  - assert (Hch' : children (handle (pid, Data s text) st) !! pid
                   = Some (step_child (Data s text) ch))
      by (rewrite handle_children, list_lookup_alter_eq, Hch; reflexivity).
    destruct (IH _ _ pr Hch') as (b1 & b2 & -> & Haw & Hpr).
    + unfold step_child. rewrite Hp. reflexivity.
    + exact Hout.
    + exists (Data s text :: b1), b2. auto.
  - injection Hout as <-. exists [Errored err], b. split; [reflexivity|].
    split; [|exact Hstep]. apply await_settled. simpl. rewrite Hstep. reflexivity.
  - injection Hout as <-. exists [Close code], b. split; [reflexivity|].
    split; [|exact Hstep]. apply await_settled. simpl. rewrite Hstep.
    destruct (is_zero code); reflexivity.
Qed.

Lemma child_eq (a b : child) :
  ch_command a = ch_command b -> ch_parallel a = ch_parallel b ->
  ch_promise a = ch_promise b -> a = b.
Proof. destruct a, b. simpl. intros -> -> ->. reflexivity. Qed.

(** Whatever the events, the children are those there were, each with
    the promise it has now. *)
Lemma children_by_promise (st st' : state) (pid : nat) :
  shape st' = shape st ->
  (forall q, q <> pid -> promise_of q st' = promise_of q st) ->
  children st' = alter (set_promise (promise_of pid st')) pid (children st).
Proof.
  intros Hshape Hothers. apply list_eq. intros q.
  assert (Hs := shape_lookup st q). assert (Hs' := shape_lookup st' q).
  rewrite Hshape, Hs in Hs'.
  destruct (Nat.eq_dec pid q) as [<-|Hne].
  - rewrite list_lookup_alter_eq. unfold promise_of.
    destruct (children st !! pid) as [ch|], (children st' !! pid) as [ch'|];
      simpl in *; try discriminate; [|reflexivity].
    injection Hs' as Hc Hp. f_equal. apply child_eq; simpl; congruence.
  - rewrite list_lookup_alter_ne by exact Hne.
    assert (Ho := Hothers q (not_eq_sym Hne)). unfold promise_of in Ho.
    destruct (children st !! q) as [ch|], (children st' !! q) as [ch'|];
      simpl in *; try discriminate; [|reflexivity].
    injection Hs' as Hc Hp. f_equal. apply child_eq; simpl; congruence.
Qed.

Lemma runCommand_spec (p : process) (c : string) (o : RunOptions) (st : state) :
  spawns (runCommand p c o st) = spawns st ++ [spawn_of p c o]
  /\ children (runCommand p c o st)
     = children st ++ [{| ch_command := c; ch_parallel := parallel o; ch_promise := Pending |}]
  /\ buffers (runCommand p c o st) = buffers st
  /\ console (runCommand p c o st) = console st
  /\ errors (runCommand p c o st) = errors st.
Proof. repeat split. Qed.

(** One turn of the loop of the sequential branch. [junk] holds late
    events of children that have ended; [b] is what the new child emits. *)
Lemma sequential_step (p : process) (c : string) (o : RunOptions) (st : state)
    (junk : list event) (b : list child_event) (more : list event) (pr : promise) :
  all_settled st = true ->
  Forall (fun ev => (fst ev < length (children st))%nat) junk ->
  outcome c b = Some pr ->
  let pid := length (children st) in
  exists st2 junk2,
    await pid (junk ++ map (pair pid) b ++ more) (runCommand p c (sequential o) st)
    = Some (st2, junk2 ++ more)
    /\ promise_of pid st2 = pr
    /\ spawns st2 = spawns st ++ [spawn_of p c (sequential o)]
    /\ children st2
       = children st ++ [{| ch_command := c; ch_parallel := false; ch_promise := pr |}]
    /\ Forall (fun ev => (fst ev < S (length (children st)))%nat) junk2.
Proof.
  intros Hall Hjunk Hout pid.
  destruct (runCommand_spec p c (sequential o) st) as (Hsp & Hch & _ & _ & Herr).
  set (st1 := runCommand p c (sequential o) st) in *.
  set (new := {| ch_command := c; ch_parallel := false; ch_promise := Pending |}).
  assert (Hnew : children st1 !! pid = Some new).
  { rewrite Hch. unfold pid. rewrite lookup_app_r, Nat.sub_diag by lia. reflexivity. }
  assert (Hpend : promise_of pid st1 = Pending) by (unfold promise_of; rewrite Hnew; reflexivity).
  assert (Hj : Forall (fun ev => fst ev <> pid) junk).
  { eapply List.Forall_impl; [|exact Hjunk]. simpl. intros ev H. unfold pid. lia. }
  destruct (await_others pid junk (map (pair pid) b ++ more) st1 Hj Hpend) as [Haw1 Hpend1].
  set (st1' := handle_all junk st1) in *.
  assert (Hnew' : children st1' !! pid = Some new).
  { generalize (shape_lookup st1' pid). unfold st1'. rewrite handle_all_shape, shape_lookup, Hnew.
    fold st1'. unfold promise_of in Hpend1.
    destruct (children st1' !! pid) as [ch'|]; simpl; [|discriminate].
    intros [= Hc Hp]. f_equal. apply child_eq; simpl; congruence. }
  destruct (await_own pid b more st1' new pr Hnew' eq_refl Hout) as (b1 & b2 & -> & Haw2 & Hpr).
  set (st2 := handle_all (map (pair pid) b1) st1') in *.
  assert (Est2 : st2 = handle_all (junk ++ map (pair pid) b1) st1)
    by (rewrite handle_all_app; reflexivity).
  exists st2, (map (pair pid) b2). split; [rewrite Haw1; exact Haw2|].
  split; [exact Hpr|]. split; [rewrite Est2, handle_all_spawns; exact Hsp|]. split.
  - rewrite (children_by_promise st1 st2 pid).
    + rewrite Hpr, Hch. unfold pid.
      rewrite <- (Nat.add_0_r (length (children st))) at 1. rewrite alter_app_r. reflexivity.
    + rewrite Est2. apply handle_all_shape.
    + intros q Hq. rewrite Est2.
      destruct (Nat.lt_ge_cases q pid) as [Hlt|Hge].
      * apply promise_of_handle_all_settled.
        generalize (proj1 (all_settled_spec st) Hall q Hlt). unfold promise_of.
        rewrite Hch, lookup_app_l by exact Hlt. auto.
      * rewrite !promise_of_outside; [reflexivity| |].
        -- rewrite Hch, length_app. simpl. unfold pid in *. lia.
        -- rewrite handle_all_length, Hch, length_app. simpl. unfold pid in *. lia.
  - apply List.Forall_forall. intros ev Hin. apply in_map_iff in Hin as (e & <- & _). simpl.
    unfold pid. lia.
Qed.

Lemma schedule_app (a b : list (list child_event)) : forall n,
  schedule n (a ++ b) = schedule n a ++ schedule (n + length a) b.
Proof.
  induction a as [|x a IH]; intros n; simpl.
  - rewrite Nat.add_0_r. reflexivity.
  - rewrite IH, <- app_assoc. do 3 f_equal. lia.
Qed.

Lemma all_settled_snoc (st st' : state) (ch : child) :
  children st' = children st ++ [ch] ->
  all_settled st = true -> settled (ch_promise ch) = true -> all_settled st' = true.
Proof.
  intros E H Hch. unfold all_settled in *. rewrite E, forallb_app, H. simpl. rewrite Hch.
  reflexivity.
Qed.

(** While the commands succeed, the loop starts them one after the
    other, each when the one before has ended. *)
Lemma run_sequential_prefix (p : process) (o : RunOptions) (pre : list string)
    (bs : list (list child_event)) :
  Forall2 (fun c b => outcome c b = Some Resolved) pre bs ->
  forall st junk more_commands more,
    all_settled st = true ->
    Forall (fun ev => (fst ev < length (children st))%nat) junk ->
    exists st' junk',
      run_sequential p (pre ++ more_commands) o
                     (junk ++ schedule (length (children st)) bs ++ more) st
      = run_sequential p more_commands o (junk' ++ more) st'
      /\ spawns st' = spawns st ++ map (fun c => spawn_of p c (sequential o)) pre
      /\ children st'
         = children st
           ++ map (fun c => {| ch_command := c; ch_parallel := false; ch_promise := Resolved |}) pre
      /\ all_settled st' = true
      /\ Forall (fun ev => (fst ev < length (children st'))%nat) junk'.
Proof.
  induction 1 as [|c b pre bs Hout _ IH]; intros st junk more_commands more Hall Hjunk.
  - exists st, junk. simpl. rewrite !app_nil_r. auto.
  - destruct (sequential_step p c o st junk b (schedule (S (length (children st))) bs ++ more)
                              Resolved Hall Hjunk Hout)
      as (st2 & junk2 & Haw & Hpr & Hsp & Hch & Hj2).
    assert (Hlen : length (children st2) = S (length (children st)))
      by (rewrite Hch, length_app; simpl; lia).
    assert (Hall2 : all_settled st2 = true)
      by (apply (all_settled_snoc st st2 _ Hch Hall); reflexivity).
    rewrite <- Hlen in Hj2.
    destruct (IH st2 junk2 more_commands more Hall2 Hj2)
      as (st' & junk' & Hrun & Hsp' & Hch' & Hall' & Hj').
    exists st', junk'. split; [|split; [|split; [|split]]].
    + rewrite <- Hrun, Hlen. simpl. rewrite <- app_assoc.
      fold (sequential o). rewrite Haw, Hpr. reflexivity.
    + rewrite Hsp', Hsp, <- app_assoc. reflexivity.
    + rewrite Hch', Hch, <- app_assoc. reflexivity.
    + exact Hall'.
    + exact Hj'.
Qed.

(** The sequential branch throws what [await] throws: the error of one
    child. *)
Lemma run_sequential_single_error (p : process) (o : RunOptions) (commands : list string) :
  forall evs st st' result rest,
    run_sequential p commands o evs st = Some (st', result, rest) ->
    result = Return \/ exists e, result = Throw (ThrowError e).
Proof.
  induction commands as [|c commands IH]; intros evs st st' result rest H; simpl in H.
  - injection H as _ <- _. left. reflexivity.
  - destruct (await (length (children st)) evs _) as [[st2 rest2]|]; [|discriminate].
    destruct (promise_of (length (children st)) st2) as [| |e].
    + apply (IH _ _ _ _ _ H).
    + apply (IH _ _ _ _ _ H).
    + injection H as _ <- _. right. exists e. reflexivity.
Qed.

(** ** C3 *)

(** C3. In the sequential branch the commands run one at a time in the
    order of the list. When the commands of [pre] succeed and the next
    command [c] fails with [e], [run] throws [e] alone as soon as [c]
    has failed: the children started are those of [pre] and [c], each
    one but the last resolved before the next was started, and no
    command of [post] is started. No list of events makes the sequential
    branch throw an aggregate error. *)
Theorem C3_sequential_stops_at_first_failure (p : process) (o : RunOptions)
    (pre : list string) (c : string) (post : list string)
    (bs : list (list child_event)) (b : list child_event) (e : Error) (later : list event) :
  Forall2 (fun c b => outcome c b = Some Resolved) pre bs ->
  outcome c b = Some (Rejected e) ->
  (exists st rest,
      run_sequential p (pre ++ c :: post) o (schedule 0 (bs ++ [b]) ++ later) init
      = Some (st, Throw (ThrowError e), rest)
      /\ spawns st = map (fun c => spawn_of p c (sequential o)) (pre ++ [c])
      /\ children st
         = map (fun c => {| ch_command := c; ch_parallel := false; ch_promise := Resolved |}) pre
           ++ [{| ch_command := c; ch_parallel := false; ch_promise := Rejected e |}])
  /\ forall evs st result rest,
       run_sequential p (pre ++ c :: post) o evs init = Some (st, result, rest) ->
       forall errors message, result <> Throw (ThrowAggregate errors message).
Proof.
  intros Hpre Hc. split.
  - destruct (run_sequential_prefix p o pre bs Hpre init [] (c :: post)
                (map (pair (length bs)) b ++ later) eq_refl (List.Forall_nil _))
      as (st' & junk' & Hrun & Hsp' & Hch' & Hall' & Hj').
    simpl in Hrun, Hsp', Hch'.
    rewrite schedule_app. simpl. rewrite app_nil_r, <- app_assoc, Hrun.
    destruct (sequential_step p c o st' junk' b later (Rejected e) Hall' Hj' Hc)
      as (st2 & junk2 & Haw & Hpr & Hsp & Hch & _).
    assert (Hlen : length (children st') = length bs).
    { rewrite Hch', length_map. apply (Forall2_length _ _ _ Hpre). }
    rewrite Hlen in Haw, Hpr.
    exists st2, (junk2 ++ later). split; [|split].
    + simpl. fold (sequential o). rewrite Hlen, Haw, Hpr. reflexivity.
    + rewrite Hsp, Hsp', map_app. reflexivity.
    + rewrite Hch, Hch'. reflexivity.
  - intros evs st result rest H errors message ->.
    destruct (run_sequential_single_error _ _ _ _ _ _ _ _ H) as [E|[e' E]]; discriminate.
Qed.

Lemma C3_witness :
  exists st rest,
    run_sequential sample_process (["a"] ++ "b" :: ["c"]) in_sequence
      (schedule 0 ([[Close (Some 0%Z)]] ++ [[Close (Some 1%Z)]]) ++ []) init
    = Some (st, Throw (ThrowError (exit_error "b" (Some 1%Z))), rest)
    /\ spawns st = map (fun c => spawn_of sample_process c (sequential in_sequence)) (["a"] ++ ["b"]).
Proof.
  destruct (C3_sequential_stops_at_first_failure sample_process in_sequence
              ["a"] "b" ["c"] [[Close (Some 0%Z)]] [Close (Some 1%Z)]
              (exit_error "b" (Some 1%Z)) []) as [(st & rest & H1 & H2 & _) _].
  - repeat constructor.
  - reflexivity.
  - exists st, rest. split; [exact H1 | exact H2].
Defined.

(** ** What the sequential branch leaves out *)

Lemma on_close_unbuffered (c : string) (st : state) :
  buffers st = [] ->
  buffers (on_close c st) = [] /\ console (on_close c st) = console st.
Proof.
  intros Hb. unfold on_close.
  set (st1 := {| runningCommands := set_delete c (runningCommands st);
                 buffers := buffers st; console := console st; spawns := spawns st;
                 children := children st; errors := errors st |}).
  unfold flush. destruct (getPrimaryCommand st1) as [k|]; [|split; [exact Hb | reflexivity]].
  change (buffers st1) with (buffers st). rewrite Hb. simpl. split; [exact Hb | reflexivity].
Qed.

Lemma handle_plain (p : process) (ev : event) (st : state) :
  plain p st -> plain p (handle ev st).
Proof.
  intros (Hb & Hc & Hsh & Hsp). unfold plain.
  rewrite handle_shape, handle_spawns. repeat split; try assumption.
  - destruct ev as [pid e]. unfold handle.
    destruct (children st !! pid) as [ch|] eqn:E; [|exact Hb].
    assert (Hpar : ch_parallel ch = false).
    { rewrite List.Forall_forall in Hsh. apply (Hsh (ch_command ch, ch_parallel ch)).
      apply list_elem_of_In, list_elem_of_lookup. exists pid.
      rewrite shape_lookup, E. reflexivity. }
    assert (Hclose : buffers (on_close (ch_command ch) st) = [])
      by (apply on_close_unbuffered, Hb).
    destruct e as [s text|err|code].
    + rewrite Hpar. exact Hb.
    + rewrite (proj1 (proj2 (reject_spec _ _ _))). exact Hb.
    + destruct (is_zero code).
      * rewrite (proj1 (proj2 (resolve_spec _ _))). exact Hclose.
      * rewrite (proj1 (proj2 (reject_spec _ _ _))). exact Hclose.
  - destruct ev as [pid e]. unfold handle.
    destruct (children st !! pid) as [ch|] eqn:E; [|exact Hc].
    assert (Hpar : ch_parallel ch = false).
    { rewrite List.Forall_forall in Hsh. apply (Hsh (ch_command ch, ch_parallel ch)).
      apply list_elem_of_In, list_elem_of_lookup. exists pid.
      rewrite shape_lookup, E. reflexivity. }
    assert (Hclose : console (on_close (ch_command ch) st) = [])
      by (rewrite (proj2 (on_close_unbuffered _ _ Hb)); exact Hc).
    destruct e as [s text|err|code].
    + rewrite Hpar. exact Hc.
    + rewrite (proj1 (proj2 (proj2 (reject_spec _ _ _)))). exact Hc.
    + destruct (is_zero code).
      * rewrite (proj1 (proj2 (proj2 (resolve_spec _ _)))). exact Hclose.
      * rewrite (proj1 (proj2 (proj2 (reject_spec _ _ _)))). exact Hclose.
Qed.

Lemma await_plain (p : process) (pid : nat) (evs : list event) : forall st st' rest,
  await pid evs st = Some (st', rest) -> plain p st -> plain p st'.
Proof.
  induction evs as [|ev evs IH]; intros st st' rest H Hp; simpl in H.
  - destruct (settled (promise_of pid st)); [|discriminate]. injection H as <- _. exact Hp.
  - destruct (settled (promise_of pid st)); [injection H as <- _; exact Hp|].
    apply (IH _ _ _ H). apply handle_plain, Hp.
Qed.

Lemma runCommand_plain (p : process) (c : string) (o : RunOptions) (st : state) :
  plain p st -> plain p (runCommand p c (sequential o) st).
Proof.
  intros (Hb & Hc & Hsh & Hsp). unfold plain, shape. simpl.
  repeat split; try assumption.
  - rewrite map_app. apply Forall_app. split; [exact Hsh|]. repeat constructor.
  - apply Forall_app. split; [exact Hsp|]. repeat constructor.
Qed.

(** The sequential branch pipes nothing, buffers nothing and changes no
    environment, whatever the events are. *)
Lemma run_sequential_plain (p : process) (o : RunOptions) (commands : list string) :
  forall evs st st' result rest,
    run_sequential p commands o evs st = Some (st', result, rest) ->
    plain p st -> plain p st'.
Proof.
  induction commands as [|c commands IH]; intros evs st st' result rest H Hp; simpl in H.
  - injection H as <- _ _. exact Hp.
  - destruct (await (length (children st)) evs _) as [[st2 rest2]|] eqn:Haw; [|discriminate].
    assert (Hp2 : plain p st2).
    { apply (await_plain p _ _ _ _ _ Haw). apply (runCommand_plain p c o st Hp). }
    destruct (promise_of (length (children st)) st2) as [| |e].
    + apply (IH _ _ _ _ _ H Hp2).
    + apply (IH _ _ _ _ _ H Hp2).
    + injection H as <- _ _. exact Hp2.
Qed.

Lemma init_plain (p : process) : plain p init.
Proof. unfold plain. simpl. repeat split; constructor. Qed.

(** ** C7 *)

(** C7. With the parallel flag set and a resolved list of at most one
    command, [run] takes the sequential branch: the child has all three
    streams inherited, the environment of the process itself and no
    ['data'] handler, and nothing is buffered or written by [run]. *)
Theorem C7_parallel_needs_two_commands (p : process) (R : scripts) (patterns : list string)
    (o : RunOptions) (commands : list string) :
  parallel o = true ->
  resolveCommands R patterns = Some commands ->
  (length commands <= 1)%nat ->
  forall evs,
    run p (Scripts R) patterns o evs = run_sequential p commands o evs init
    /\ run p (Scripts R) patterns o evs = run p (Scripts R) patterns (sequential o) evs
    /\ forall st result rest,
         run p (Scripts R) patterns o evs = Some (st, result, rest) ->
         Forall (fun sp => sp_stdio sp = [Inherit; Inherit; Inherit] /\ sp_env sp = env p)
                (spawns st)
         /\ Forall (fun ch => ch_parallel ch = false) (children st)
         /\ buffers st = []
         /\ console st = [].
Proof.
  intros Hpar Hres Hlen evs.
  assert (E : run p (Scripts R) patterns o evs = run_sequential p commands o evs init).
  { unfold run. rewrite Hres, Hpar. simpl.
    destruct (Nat.ltb_spec 1 (length commands)) as [H|_]; [lia | reflexivity]. }
  split; [exact E|]. split.
  - rewrite E. unfold run. rewrite Hres. simpl.
    clear. generalize init. revert evs.
    induction commands as [|c commands IH]; intros evs st; [reflexivity|].
    simpl. destruct (await _ _ _) as [[st2 rest]|]; [|reflexivity].
    destruct (promise_of _ _); try reflexivity; apply IH.
  - intros st result rest H. rewrite E in H.
    destruct (run_sequential_plain p o commands _ _ _ _ _ H (init_plain p))
      as (Hb & Hc & Hsh & Hsp).
    repeat split; try assumption.
    unfold shape in Hsh. rewrite List.Forall_forall in Hsh |- *.
    intros ch Hin. apply (Hsh (ch_command ch, ch_parallel ch)).
    apply in_map_iff. exists ch. auto.
Qed.

Lemma C7_witness :
  run sample_process (Scripts sample_scripts) ["clean"] in_parallel [(0%nat, Close (Some 0%Z))]
  = run_sequential sample_process ["clean"] in_parallel [(0%nat, Close (Some 0%Z))] init.
Proof.
  exact (proj1 (C7_parallel_needs_two_commands sample_process sample_scripts ["clean"]
                  in_parallel ["clean"] eq_refl eq_refl (le_n 1) [(0%nat, Close (Some 0%Z))])).
Defined.

(** ** C9 *)

Lemma await_all_spawns (evs : list event) : forall st st' rest,
  await_all evs st = Some (st', rest) -> spawns st' = spawns st.
Proof.
  induction evs as [|ev evs IH]; intros st st' rest H; simpl in H.
  - destruct (all_settled st); [|discriminate]. injection H as <- _. reflexivity.
  - destruct (all_settled st); [injection H as <- _; reflexivity|].
    rewrite (IH _ _ _ H). apply handle_spawns.
Qed.

Lemma run_parallel_spawns (p : process) (commands : list string) (o : RunOptions)
    (evs : list event) (st : state) (result : completion) (rest : list event) :
  run_parallel p commands o evs init = Some (st, result, rest) ->
  spawns st = map (fun c => spawn_of p c o) commands.
Proof.
  unfold run_parallel. intros H.
  destruct (await_all evs _) as [[st2 rest2]|] eqn:Haw; [|discriminate].
  injection H as <- _ _.
  rewrite (proj1 (proj2 (proj2 (flushAll_spec st2)))), (await_all_spawns _ _ _ _ Haw).
  apply start_all_spec.
Qed.

Lemma getColorLevel_range (p : process) : (0 <= getColorLevel p <= 3)%Z.
Proof.
  unfold getColorLevel.
  destruct (_ =? 4)%Z; [lia|]. destruct (_ =? 8)%Z; [lia|]. destruct (_ =? 24)%Z; lia.
Qed.

(** C9. The environment of a child is that of the process; in parallel
    mode [FORCE_COLOR] is set in it to the colour level, a number from 0
    to 3, unless the process has the variable already, and no other
    variable differs. Every child of the parallel branch is spawned with
    this environment, every child of the sequential branch with the
    environment of the process unchanged. *)
Theorem C9_child_environment (p : process) :
  (forall par k, k <> "FORCE_COLOR" -> child_env p par !! k = env p !! k)
  /\ child_env p false = env p
  /\ child_env p true !! "FORCE_COLOR"
     = Some (default (Str.of_Z (getColorLevel p)) (env p !! "FORCE_COLOR"))
  /\ (0 <= getColorLevel p <= 3)%Z
  /\ (forall c o st,
        spawns (runCommand p c o st) = spawns st ++ [spawn_of p c o]
        /\ sp_env (spawn_of p c o) = child_env p (parallel o))
  /\ (forall commands o evs st result rest,
        run_parallel p commands o evs init = Some (st, result, rest) ->
        Forall (fun sp => sp_env sp = child_env p (parallel o)) (spawns st))
  /\ (forall commands o evs st result rest,
        run_sequential p commands o evs init = Some (st, result, rest) ->
        Forall (fun sp => sp_env sp = env p) (spawns st)).
Proof.
  repeat split.
  - intros par k Hk. unfold child_env. destruct par; [|reflexivity].
    destruct (env p !! "FORCE_COLOR"); [reflexivity|].
    apply lookup_insert_ne. congruence.
  - unfold child_env. destruct (env p !! "FORCE_COLOR") as [v|] eqn:E; simpl.
    + exact E.
    + apply lookup_insert_eq.
  - apply getColorLevel_range.
  - apply getColorLevel_range.
  - intros commands o evs st result rest H.
    rewrite (run_parallel_spawns _ _ _ _ _ _ _ H).
    apply List.Forall_forall. intros sp Hin. apply in_map_iff in Hin as (c & <- & _). reflexivity.
  - intros commands o evs st result rest H.
    destruct (run_sequential_plain p o commands _ _ _ _ _ H (init_plain p)) as (_ & _ & _ & Hsp).
    eapply List.Forall_impl; [|exact Hsp]. simpl. tauto.
Qed.

Lemma C9_witness :
  child_env sample_process true !! "PATH" = Some "/usr/bin"
  /\ child_env sample_process true !! "FORCE_COLOR" = Some "2".
Proof.
  destruct (C9_child_environment sample_process) as (H1 & _ & H3 & _).
  split.
  - rewrite (H1 true "PATH"); [reflexivity | discriminate].
  - rewrite H3. reflexivity.
Defined.

(** ** C10 *)

(** The decimal text of an exit code can be read back, and is not the
    text of [null]. *)
Lemma code_text_read (n : Z) :
  option_map Z.of_int (NilZero.int_of_string (code_text (Some n))) = Some n.
Proof.
  simpl. unfold Str.of_Z. rewrite NilZero.isi.
  - simpl. rewrite DecimalZ.of_to. reflexivity.
  - intros H. assert (E := DecimalZ.of_to n). rewrite H in E. simpl in E. subst n. discriminate H.
  - intros H. assert (E := DecimalZ.of_to n). rewrite H in E. simpl in E. subst n. discriminate H.
Qed.

Lemma code_text_inj (k k' : option Z) : code_text k = code_text k' -> k = k'.
Proof.
  intros H.
  assert (E : option_map Z.of_int (NilZero.int_of_string (code_text k))
              = option_map Z.of_int (NilZero.int_of_string (code_text k')))
    by (rewrite H; reflexivity).
  destruct k as [n|], k' as [n'|]; rewrite ?code_text_read in E.
  - congruence.
  - discriminate E.
  - discriminate E.
  - reflexivity.
Qed.

(** C10. For a child whose promise is pending, ['close'] with code 0
    resolves the promise, and ['close'] with any other code, [null]
    included, rejects it with an error that names the command and the
    code: the message is the command, [ exited with code ] and the code,
    a number in decimal digits and [null] as [null], so that the code
    can be read back from the message. No other event resolves the
    promise. The rejection is a failure of the command: in parallel mode
    it enters [errors], in sequential mode it is what [run] throws, at
    once. *)
Theorem C10_exit_code_decides (st : state) (pid : nat) (ch : child) (code : option Z) :
  children st !! pid = Some ch ->
  ch_promise ch = Pending ->
  promise_of pid (handle (pid, Close code) st)
  = (if is_zero code then Resolved
     else Rejected {| message := ch_command ch +:+ " exited with code " +:+ code_text code |})
  /\ (is_zero code = true <-> code = Some 0%Z)
  /\ code_text None = "null"
  /\ (forall e, promise_of pid (handle (pid, e) st) = Resolved <-> e = Close (Some 0%Z))
  /\ (ch_parallel ch = true ->
      errors (handle (pid, Close code) st)
      = errors st ++ (if is_zero code then [] else [exit_error (ch_command ch) code]))
  /\ (forall p o c post later,
        is_zero code = false ->
        exists st' rest,
          run_sequential p (c :: post) o ((0%nat, Close code) :: later) init
          = Some (st', Throw (ThrowError (exit_error c code)), rest)
          /\ length (spawns st') = 1%nat)
  /\ (forall n,
        code = Some n ->
        code_text code = NilZero.string_of_int (Z.to_int n)
        /\ option_map Z.of_int (NilZero.int_of_string (code_text code)) = Some n)
  /\ (forall c k, exit_error c k = exit_error c code -> k = code).
Proof.
  intros Hch Hp.
  assert (Hz : forall k, is_zero k = true <-> k = Some 0%Z).
  { intros [n|]; simpl; [|split; discriminate].
    rewrite Z.eqb_eq. split; [intros ->; reflexivity | intros [= ->]; reflexivity]. }
  split; [|split; [|split; [|split; [|split; [|split; [|split]]]]]].
  - rewrite (promise_of_handle_same _ _ _ _ Hch), Hp. reflexivity.
  - apply Hz.
  - reflexivity.
  - intros e. rewrite (promise_of_handle_same _ _ _ _ Hch), Hp.
    destruct e as [s text|err|k]; simpl; try (split; discriminate).
    destruct (is_zero k) eqn:Ek.
    + apply Hz in Ek. subst k. split; reflexivity.
    + split; [discriminate|]. intros [= ->]. discriminate.
  - intros Hpar. rewrite handle_errors, Hch, Hpar, Hp. reflexivity.
  - intros p o c post later Hnz.
    destruct (sequential_step p c o init [] [Close code] later
                (Rejected (exit_error c code)) eq_refl (List.Forall_nil _))
      as (st2 & junk2 & Haw & Hpr & Hsp & _).
    + simpl. rewrite Hnz. reflexivity.
    + simpl in Haw, Hpr, Hsp. exists st2, (junk2 ++ later). split.
      * simpl. fold (sequential o). rewrite Haw, Hpr. reflexivity.
      * rewrite Hsp. reflexivity.
  - intros n ->. split; [reflexivity | apply code_text_read].
  - intros c k H. apply code_text_inj. unfold exit_error in H. injection H as H.
    apply str_app_inv_l in H. apply str_app_inv_l in H. exact H.
Qed.

Lemma C10_witness :
  promise_of 0 (handle (0%nat, Close (Some 137%Z))
                       (runCommand sample_process "lint" in_parallel init))
  = Rejected {| message := "lint exited with code 137" |}
  /\ promise_of 0 (handle (0%nat, Close None)
                          (runCommand sample_process "lint" in_parallel init))
     = Rejected {| message := "lint exited with code null" |}.
Proof.
  split.
  - exact (proj1 (C10_exit_code_decides
                    (runCommand sample_process "lint" in_parallel init) 0
                    {| ch_command := "lint"; ch_parallel := true; ch_promise := Pending |}
                    (Some 137%Z) eq_refl eq_refl)).
  - exact (proj1 (C10_exit_code_decides
                    (runCommand sample_process "lint" in_parallel init) 0
                    {| ch_command := "lint"; ch_parallel := true; ch_promise := Pending |}
                    None eq_refl eq_refl)).
Defined.

(** ** C8 *)

(** C8. The environment variable [npm_execpath] plays no part in [run]:
    with no such variable the command is started as [npm run build], and
    [main] returns 0 when it succeeds, where the specification and the
    test suite ask for an error and exit code 1 before any command
    runs. *)
Lemma C8_runs_without_npm_execpath :
  env bare_process !! "npm_execpath" = None
  /\ exists st,
       main bare_process (Scripts [("build", "tsc")])
            (Parsed {| arg_parallel := false; arg_silent := false; arg_help := false;
                       arg_version := false; positionals := ["build"] |})
            [(0%nat, Close (Some 0%Z))]
       = Some (0%Z, [], st)
       /\ map sp_file (spawns st) = ["npm"]
       /\ map sp_args (spawns st) = [["run"; "build"]].
Proof. split; [reflexivity|]. eexists. repeat split. Qed.

(** ** Further properties and examples *)

(** [resolveCommands] never fails: every source that [commandToRegExp]
    builds is an expression. *)
Lemma resolveCommands_total (R : scripts) (patterns : list string) :
  exists commands, resolveCommands R patterns = Some commands.
Proof.
  unfold resolveCommands. induction patterns as [|x patterns [commands IH]]; simpl.
  - exists []. reflexivity.
  - rewrite IH. unfold resolveCommand.
    destruct (Str.includes "*" x); [rewrite commandToRegExp_tokens|]; eexists; reflexivity.
Qed.

(** With the parallel flag and two or more resolved commands [run] takes
    the parallel branch. *)
Lemma run_takes_parallel_branch (p : process) (R : scripts) (patterns commands : list string)
    (o : RunOptions) (evs : list event) :
  parallel o = true ->
  resolveCommands R patterns = Some commands ->
  (1 < length commands)%nat ->
  run p (Scripts R) patterns o evs = run_parallel p commands o evs init.
Proof.
  intros Hpar Hres Hlen. unfold run. rewrite Hres, Hpar.
  destruct (Nat.ltb_spec 1 (length commands)) as [_|H]; [reflexivity | lia].
Qed.

(** When every command succeeds the sequential branch starts them all
    and returns. *)
Lemma run_sequential_all_succeed (p : process) (o : RunOptions) (commands : list string)
    (bs : list (list child_event)) :
  Forall2 (fun c b => outcome c b = Some Resolved) commands bs ->
  exists st rest,
    run_sequential p commands o (schedule 0 bs) init = Some (st, Return, rest)
    /\ spawns st = map (fun c => spawn_of p c (sequential o)) commands.
Proof.
  intros H.
  destruct (run_sequential_prefix p o commands bs H init [] [] [] eq_refl (List.Forall_nil _))
    as (st' & junk' & Hrun & Hsp & _).
  simpl in Hrun, Hsp. rewrite !app_nil_r in Hrun.
  exists st', junk'. split; [exact Hrun | exact Hsp].
Qed.

(** The exit codes of [main] that do not depend on a child. *)
Lemma main_exit_codes (p : process) (m : manifest) (a : arguments) (evs : list event) :
  (arg_help a = true -> main p m (Parsed a) evs = Some (0%Z, [], init))
  /\ (arg_help a = false -> arg_version a = true ->
      main p m (Parsed a) evs = Some (0%Z, [], init))
  /\ (arg_help a = false -> arg_version a = false -> positionals a = [] ->
      exists printed, main p m (Parsed a) evs = Some (2%Z, printed, init))
  /\ (arg_help a = false -> arg_version a = false -> positionals a <> [] ->
      main p NotFound (Parsed a) evs
      = Some (1%Z, ["run: Unable to locale package.json"], init)
      /\ forall e, main p (Unusable e) (Parsed a) evs
                   = Some (1%Z, ["run: " +:+ message e], init))
  /\ (forall e, main p m (Refused e) evs = Some (1%Z, ["run: " +:+ message e], init)).
Proof.
  unfold main. split; [|split; [|split; [|split]]].
  - intros ->. reflexivity.
  - intros -> ->. reflexivity.
  - intros -> -> ->. eexists. reflexivity.
  - intros -> -> H. destruct (positionals a); [contradiction|]. split; reflexivity.
  - reflexivity.
Qed.

(** The scripts of the test suite. *)
Example resolve_star :
  resolveCommands sample_scripts ["build:*"] = Some ["build:compile"; "build:schema"].
Proof. reflexivity. Qed.

Example resolve_star_star :
  resolveCommands sample_scripts ["build:**"]
  = Some ["build:compile"; "build:schema"; "build:schema:a"; "build:schema:b"].
Proof. reflexivity. Qed.

Example resolve_in_argument_order :
  resolveCommands sample_scripts ["build:*:a"; "test"; "missing"; "*"]
  = Some ["build:schema:a"; "test"; "missing"; "clean"; "build"; "test"].
Proof. reflexivity. Qed.

Example regexp_source_example : regexp_source "a.b:*:**c***" = "^a\.b:[^:]+:.*c.*$".
Proof. reflexivity. Qed.

Example is_descendant_of_example :
  is_descendant_of "build" "build:schema:a" = true
  /\ is_descendant_of "build" "build::a" = false.
Proof. split; reflexivity. Qed.

(** The cases of [colors.test.ts]. *)
Example getColorLevel_cases :
  getColorLevel {| env := ∅; stdout_depth := None; stderr_depth := Some 24%Z |} = 0%Z
  /\ getColorLevel {| env := ∅; stdout_depth := Some 4%Z; stderr_depth := Some 4%Z |} = 1%Z
  /\ getColorLevel {| env := ∅; stdout_depth := Some 8%Z; stderr_depth := Some 24%Z |} = 2%Z
  /\ getColorLevel {| env := ∅; stdout_depth := Some 24%Z; stderr_depth := Some 24%Z |} = 3%Z.
Proof. repeat split. Qed.

(** "reports first errors in sequential mode": [error:*] resolves to two
    commands; the first fails and the second is not started. *)
Example sequential_stops :
  match run sample_process (Scripts [("error:a", "exit 1"); ("error:b", "exit 1")]) ["error:*"]
            in_sequence [(0%nat, Close (Some 1%Z))] with
  | Some (st, result, _) =>
      map sp_args (spawns st) = [["run"; "error:a"]]
      /\ result = Throw (ThrowError {| message := "error:a exited with code 1" |})
  | None => False
  end.
Proof. vm_compute. split; reflexivity. Qed.

(** The same command twice in parallel: both children write under one
    name, and nothing is lost when the first of them ends. *)
Example same_command_twice :
  match run_parallel sample_process ["a"; "a"] in_parallel
          [ (1%nat, Data Stdout "x"); (0%nat, Close (Some 0%Z));
            (1%nat, Data Stdout "y"); (1%nat, Close (Some 0%Z)) ] init with
  | Some (st, result, _) =>
      map (fun w => text (written w)) (console st) = ["x"; "y"] /\ result = Return
  | None => False
  end.
Proof. vm_compute. split; reflexivity. Qed.

(** * Part III: further properties *)

(** ** The resolver as a whole *)

Lemma flatMap_app (f : string -> option (list string)) (a b : list string) :
  flatMap f (a ++ b) =
  match flatMap f a, flatMap f b with
  | Some ra, Some rb => Some (ra ++ rb)
  | _, _ => None
  end.
Proof.
  induction a as [|x a IH]; simpl.
  - destruct (flatMap f b); reflexivity.
  - rewrite IH. destruct (f x) as [ys|]; [|reflexivity].
    destruct (flatMap f a) as [ra|]; [|reflexivity].
    destruct (flatMap f b) as [rb|]; [|reflexivity].
    rewrite app_assoc. reflexivity.
Qed.

(** X1. [resolveCommands] never throws, whatever characters the patterns
    hold, and the result for a list of patterns is the results of its
    parts one after the other: nothing is removed or reordered across
    patterns. *)
Theorem X1_resolve_concatenates (R : scripts) (a b : list string) :
  exists ra rb,
    resolveCommands R a = Some ra
    /\ resolveCommands R b = Some rb
    /\ resolveCommands R (a ++ b) = Some (ra ++ rb).
Proof.
  destruct (resolveCommands_total R a) as [ra Ha].
  destruct (resolveCommands_total R b) as [rb Hb].
  exists ra, rb. split; [exact Ha|]. split; [exact Hb|].
  unfold resolveCommands in *. rewrite flatMap_app, Ha, Hb. reflexivity.
Qed.

Lemma sublist_filter_list {A : Type} (f : A -> bool) (l : list A) :
  sublist (List.filter f l) l.
Proof.
  induction l as [|x l IH]; simpl; [constructor|].
  destruct (f x); [apply sublist_skip | apply sublist_cons]; exact IH.
Qed.

(** X2. Given the scripts object of [package.json], which may be empty,
    a pattern with an asterisk resolves to registered names only, in the
    order of the registry and each at most as often as the registry
    lists it. When no name matches, as for an empty scripts object, the
    result is the empty list, and [run] then starts nothing and returns
    without an error. A [package.json] without a scripts object is
    another case: there [resolveCommands] throws before any matching,
    and [run] throws that error with nothing started. *)
Theorem X2_wildcard_yields_registered (R : scripts) (P : string) :
  Str.includes "*" P = true ->
  exists names,
    resolveCommands R [P] = Some names
    /\ sublist names (existingCommands R)
    /\ (existingCommands R = [] -> names = [])
    /\ (names = [] ->
        forall p o evs, run p (Scripts R) [P] o evs = Some (init, Return, evs))
    /\ (forall p o evs e,
          run p (Unusable e) [P] o evs = Some (init, Throw (ThrowError e), evs)).
Proof.
  intros HP. assert (Hres := resolve_one R P). rewrite HP in Hres.
  eexists. split; [exact Hres|]. split; [apply sublist_filter_list|].
  split; [intros ->; reflexivity|]. split; [|reflexivity].
  intros Hnone p o evs. unfold run. rewrite Hres, Hnone. simpl.
  rewrite andb_false_r. reflexivity.
Qed.

Lemma X2_witness :
  exists names,
    resolveCommands sample_scripts ["*:compile"] = Some names
    /\ sublist names (existingCommands sample_scripts).
Proof.
  destruct (X2_wildcard_yields_registered sample_scripts "*:compile" eq_refl)
    as (names & H1 & H2 & _).
  exists names. split; [exact H1 | exact H2].
Defined.

(** The scripts object is empty: [build:*] matches nothing, no command
    is started and [main] returns 0. *)
Example nothing_matches :
  main sample_process (Scripts [])
       (Parsed {| arg_parallel := true; arg_silent := false; arg_help := false;
                  arg_version := false; positionals := ["build:*"] |}) []
  = Some (0%Z, [], init).
Proof. reflexivity. Qed.

(** ** One asterisk between literal text *)

Lemma pattern_tokens_plain (s : string) :
  Str.includes "*" s = false -> pattern_tokens 0 s = lits s.
Proof.
  intros H. rewrite <- (str_app_nil_r s) at 1.
  rewrite (pattern_tokens_literal _ _ H). simpl. apply app_nil_r.
Qed.

Lemma pattern_tokens_one_star (before after : string) :
  Str.includes "*" before = false ->
  Str.includes "*" after = false ->
  pattern_tokens 0 (before +:+ "*" +:+ after) = lits before ++ RegExp.TSeg :: lits after.
Proof.
  intros Hb Ha. rewrite (pattern_tokens_literal _ _ Hb). f_equal.
  rewrite str_app_cons, str_app_nil_l. simpl.
  destruct after as [|c after]; [reflexivity|].
  simpl in Ha. apply orb_false_iff in Ha as [Hc Ha].
  simpl. rewrite Hc. simpl. do 2 f_equal. apply pattern_tokens_plain, Ha.
Qed.

Lemma strip_prefix_empty_rest (a s : string) :
  match strip_prefix a s with
  | Some rest => match rest with EmptyString => true | String _ _ => false end
  | None => false
  end = String.eqb s a.
Proof.
  destruct (strip_prefix a s) as [rest|] eqn:E.
  - apply strip_prefix_Some in E. subst s. destruct rest as [|c rest].
    + rewrite str_app_nil_r. symmetry. apply String.eqb_refl.
    + symmetry. apply String.eqb_neq. intros H.
      assert (Hl : String.length (a +:+ String c rest) = String.length a) by (rewrite H; reflexivity).
      clear H. induction a as [|x a IH]; [discriminate|].
      rewrite str_app_cons in Hl. simpl in Hl. injection Hl as Hl. apply IH, Hl.
  - symmetry. apply String.eqb_neq. intros ->.
    assert (H : strip_prefix a a = Some "") by (apply strip_prefix_Some; symmetry; apply str_app_nil_r).
    congruence.
Qed.

Lemma match_lits_end (after s : string) (b : bool) :
  RegExp.match_here (lits after ++ [RegExp.TEnd]) b s = String.eqb s after.
Proof.
  rewrite (match_lits _ (fun r => match r with EmptyString => true | String _ _ => false end)).
  - apply strip_prefix_empty_rest.
  - intros b' r. destruct r; reflexivity.
Qed.

Lemma match_seg_lits_end (after s : string) : forall b,
  RegExp.match_here (RegExp.TSeg :: lits after ++ [RegExp.TEnd]) b s = segment_before after s.
Proof.
  induction s as [|c s IH]; intros b; [reflexivity|].
  rewrite match_seg_cons, IH, match_lits_end. reflexivity.
Qed.

Lemma segment_before_spec (after s : string) :
  segment_before after s = true <->
  exists seg, s = seg +:+ after /\ seg <> "" /\ Str.includes ":" seg = false.
Proof.
  induction s as [|c s IH]; simpl.
  - split; [discriminate|]. intros (seg & E & Hne & _).
    destruct seg; [contradiction | discriminate].
  - rewrite andb_true_iff, negb_true_iff, orb_true_iff, IH, String.eqb_eq. split.
    + intros [Hc [(seg & -> & Hne & Hs)| ->]].
      * exists (String c seg). rewrite str_app_cons. repeat split; [discriminate|].
        simpl. rewrite Hc, Hs. reflexivity.
      * exists (String c ""). repeat split; [discriminate|]. simpl. rewrite Hc. reflexivity.
    + intros (seg & E & Hne & Hs). destruct seg as [|x seg]; [contradiction|].
      rewrite str_app_cons in E. injection E as <- ->.
      simpl in Hs. apply orb_false_iff in Hs as [Hc Hs]. split; [exact Hc|].
      destruct seg as [|y seg]; [right; reflexivity|].
      left. exists (String y seg). repeat split; [discriminate | exact Hs].
Qed.

(** X3. A pattern made of literal text, one asterisk and literal text
    (such as [build:*:ships]) resolves, in the order of the registry, to
    exactly the registered names that are the first text, one or more
    characters none of which is a colon, and the second text. Characters
    with a meaning in regular expressions stand for themselves. *)
Theorem X3_one_asterisk_between (R : scripts) (before after : string) :
  Str.includes "*" before = false ->
  Str.includes "*" after = false ->
  resolveCommands R [before +:+ "*" +:+ after]
  = Some (List.filter (is_between before after) (existingCommands R))
  /\ forall name,
       is_between before after name = true <->
       exists seg,
         name = before +:+ seg +:+ after /\ seg <> "" /\ Str.includes ":" seg = false.
Proof.
  intros Hb Ha. split.
  - rewrite resolve_one, !includes_app. simpl. rewrite orb_true_r.
    f_equal. apply filter_ext_in_list. intros name _.
    rewrite test_anchored, (pattern_tokens_one_star _ _ Hb Ha).
    rewrite <- app_assoc, <- app_comm_cons.
    rewrite (match_lits _ (segment_before after)); [reflexivity|].
    intros b s. apply match_seg_lits_end.
  - intros name. unfold is_between. split.
    + destruct (strip_prefix before name) as [rest|] eqn:E; [|discriminate].
      intros H. apply segment_before_spec in H as (seg & -> & Hne & Hs).
      exists seg. apply strip_prefix_Some in E. auto.
    + intros (seg & -> & Hne & Hs).
      assert (E : strip_prefix before (before +:+ seg +:+ after) = Some (seg +:+ after))
        by (apply strip_prefix_Some; reflexivity).
      rewrite E. apply segment_before_spec. exists seg. auto.
Qed.

Lemma X3_witness :
  resolveCommands
    [ ("build:schema", "a"); ("build:schema:ships", "b"); ("build:example:ships", "c");
      ("build:example:stations", "d"); ("build.x:ships", "e") ]
    ["build:" +:+ "*" +:+ ":ships"]
  = Some ["build:schema:ships"; "build:example:ships"].
Proof.
  exact (proj1 (X3_one_asterisk_between
                  [ ("build:schema", "a"); ("build:schema:ships", "b");
                    ("build:example:ships", "c"); ("build:example:stations", "d");
                    ("build.x:ships", "e") ]
                  "build:" ":ships" eq_refl eq_refl)).
Defined.

(** ** The search for the manifest *)

(** X4. [findNearestPackageJson] returns the [package.json] of the
    nearest directory that has one, counting from the starting directory
    upwards: the directory [k] levels up has it and none of the nearer
    ones has. It throws exactly when no directory from the starting one
    up to the root has a [package.json]. *)
Theorem X4_nearest_manifest (access : list string -> bool) (dir : list string) :
  match findNearestPackageJson access dir with
  | inr path =>
      exists k,
        (k <= length dir)%nat
        /\ path = join (Nat.iter k dirname dir) "package.json"
        /\ access path = true
        /\ forall j, (j < k)%nat -> access (join (Nat.iter j dirname dir) "package.json") = false
  | inl e =>
      message e = "Unable to locale package.json"
      /\ forall j, access (join (Nat.iter j dirname dir) "package.json") = false
  end.
Proof.
  assert (Hiter : forall j x d, Nat.iter (S j) dirname (x :: d) = Nat.iter j dirname d).
  { intros j x d. induction j as [|j IH]; [reflexivity|].
    change (Nat.iter (S (S j)) dirname (x :: d)) with (dirname (Nat.iter (S j) dirname (x :: d))).
    rewrite IH. reflexivity. }
  assert (Hroot : forall j, Nat.iter j dirname [] = []).
  { intros j. induction j as [|j IH]; [reflexivity|]. simpl. rewrite IH. reflexivity. }
  induction dir as [|x dir IH]; simpl.
  - destruct (access (join [] "package.json")) eqn:E.
    + exists 0%nat. repeat split; [lia | exact E | intros j Hj; lia].
    + split; [reflexivity|]. intros j. rewrite Hroot. exact E.
  - destruct (access (join (x :: dir) "package.json")) eqn:E.
    + exists 0%nat. repeat split; [lia | exact E | intros j Hj; lia].
    + destruct (findNearestPackageJson access dir) as [e|path].
      * destruct IH as [Hm Hall]. split; [exact Hm|].
        intros [|j]; [exact E|]. rewrite Hiter. apply Hall.
      * destruct IH as (k & Hk & -> & Ha & Hnear).
        exists (S k). rewrite Hiter. repeat split; [lia | exact Ha|].
        intros [|j] Hj; [exact E|]. rewrite Hiter. apply Hnear. lia.
Qed.

(** ** The colour level *)

(** X5. When one of the two streams has no [getColorDepth] the level is
    0. For the depths that [getColorDepth] returns (1, 4, 8 and 24) the
    level is the lower of the levels the two streams have on their own,
    whichever of them is [stdout]. *)
Theorem X5_level_of_the_weaker_stream (e : gmap string string) (d1 d2 : Z) :
  In d1 [1; 4; 8; 24]%Z ->
  In d2 [1; 4; 8; 24]%Z ->
  getColorLevel {| env := e; stdout_depth := Some d1; stderr_depth := Some d2 |}
  = Z.min (getColorLevel {| env := e; stdout_depth := Some d1; stderr_depth := Some d1 |})
          (getColorLevel {| env := e; stdout_depth := Some d2; stderr_depth := Some d2 |})
  /\ getColorLevel {| env := e; stdout_depth := Some d1; stderr_depth := Some d2 |}
     = getColorLevel {| env := e; stdout_depth := Some d2; stderr_depth := Some d1 |}
  /\ forall d : option Z,
       getColorLevel {| env := e; stdout_depth := None; stderr_depth := d |} = 0%Z
       /\ getColorLevel {| env := e; stdout_depth := d; stderr_depth := None |} = 0%Z.
Proof.
  intros H1 H2. split; [|split].
  - simpl in H1, H2.
    repeat match goal with
           | H : _ \/ _ |- _ => destruct H as [<-|H]
           | H : False |- _ => destruct H
           end; reflexivity.
  - simpl in H1, H2.
    repeat match goal with
           | H : _ \/ _ |- _ => destruct H as [<-|H]
           | H : False |- _ => destruct H
           end; reflexivity.
  - intros d. unfold getColorLevel. simpl.
    assert (Hlow : forall m : Z, (m <= 1)%Z ->
              (if (m =? 4)%Z then 1 else if (m =? 8)%Z then 2 else if (m =? 24)%Z then 3 else 0)%Z
              = 0%Z).
    { intros m Hm. destruct (Z.eqb_spec m 4); [lia|]. destruct (Z.eqb_spec m 8); [lia|].
      destruct (Z.eqb_spec m 24); [lia | reflexivity]. }
    split; apply Hlow; destruct d; simpl; lia.
Qed.

Lemma X5_witness :
  getColorLevel {| env := ∅; stdout_depth := Some 24%Z; stderr_depth := Some 8%Z |}
  = Z.min (getColorLevel {| env := ∅; stdout_depth := Some 24%Z; stderr_depth := Some 24%Z |})
          (getColorLevel {| env := ∅; stdout_depth := Some 8%Z; stderr_depth := Some 8%Z |}).
Proof.
  refine (proj1 (X5_level_of_the_weaker_stream ∅ 24 8 _ _)); simpl; tauto.
Defined.

(** ** The running commands *)

(** X6. While children run, the primary command is the first command of
    the list that was started for which no ['close'] has been handled.
    The set of running commands holds exactly the started commands
    without such a ['close'], each once; an ['error'] alone leaves its
    command in the set. *)
Theorem X6_primary_is_first_unclosed (p : process) (commands : list string) (o : RunOptions)
    (evs : list event) :
  let st := handle_all evs (start_all p commands o init) in
  getPrimaryCommand st
  = head (List.filter (fun c => negb (is_closed commands evs c)) commands)
  /\ (forall c, In c (runningCommands st) <-> In c commands /\ is_closed commands evs c = false)
  /\ NoDup (runningCommands st).
Proof.
  intros st. unfold st. split; [apply primary_from_start|].
  rewrite running_from_start.
  destruct (fold_set_add (fun c => negb (is_closed commands evs c)) commands [])
    as (_ & Hin & Hnd).
  split.
  - intros c. rewrite filter_In, Hin, negb_true_iff. simpl. tauto.
  - apply NoDup_ListNoDup, List.NoDup_filter, NoDup_ListNoDup, Hnd. constructor.
Qed.

(** ** What reaches the streams *)

(** Whatever an event makes [run] write, it is written for the command
    that is primary before the event or for the one that is primary
    after it. *)
Lemma handle_console (ev : event) (st : state) :
  exists ws,
    console (handle ev st) = console st ++ ws
    /\ Forall (fun w => getPrimaryCommand st = Some (by_command w)
                        \/ getPrimaryCommand (handle ev st) = Some (by_command w)) ws.
Proof.
  destruct ev as [pid e]. unfold handle.
  destruct (children st !! pid) as [ch|]; [|exists []; split; [symmetry; apply app_nil_r | constructor]].
  destruct e as [s text|err|code].
  - destruct (ch_parallel ch);
      [|exists []; split; [symmetry; apply app_nil_r | constructor]].
    destruct (is_primary (ch_command ch) st) eqn:Hp.
    + apply is_primary_spec in Hp. destruct (write_primary s text _ st Hp) as [Hc _].
      eexists. split; [exact Hc|]. constructor; [left; exact Hp | constructor].
    + exists []. split; [|constructor]. rewrite app_nil_r. apply write_buffered.
      intros H. apply is_primary_spec in H. congruence.
  - exists []. split; [|constructor]. rewrite app_nil_r. apply reject_spec.
  - set (st1 := on_close (ch_command ch) st).
    assert (Hc : console st1
                 = console st ++
                   match getPrimaryCommand st1 with
                   | Some k => block (k, default [] (map_get k (buffers st)))
                   | None => []
                   end).
    { apply on_close_console. }
    assert (Hsame : forall st2,
               console st2 = console st1 -> getPrimaryCommand st2 = getPrimaryCommand st1 ->
               exists ws, console st2 = console st ++ ws
                          /\ Forall (fun w => getPrimaryCommand st = Some (by_command w)
                                              \/ getPrimaryCommand st2 = Some (by_command w)) ws).
    { intros st2 H2 Hp2. eexists. split; [rewrite H2; exact Hc|]. rewrite Hp2.
      destruct (getPrimaryCommand st1) as [k|]; [|constructor].
      unfold block. simpl. apply List.Forall_forall. intros w Hw.
      apply in_map_iff in Hw as (x & <- & _). right. reflexivity. }
    destruct (is_zero code).
    + apply Hsame; [apply resolve_spec | apply (primary_settle pid st1 {| message := "" |})].
    + apply Hsame; [apply reject_spec | apply primary_settle].
Qed.

Lemma handle_all_snoc (evs : list event) (ev : event) (st : state) :
  handle_all (evs ++ [ev]) st = handle ev (handle_all evs st).
Proof. rewrite handle_all_app. reflexivity. Qed.

Lemma closed_commands_app (commands : list string) (a b : list event) :
  closed_commands commands (a ++ b) = closed_commands commands a ++ closed_commands commands b.
Proof.
  induction a as [|[pid e] a IH]; [reflexivity|].
  destruct e as [s text|err|code]; simpl; try exact IH.
  destruct (commands !! pid); [simpl; f_equal|]; exact IH.
Qed.

(** X7. As long as no ['close'] of the first command has been handled,
    the first command is the primary one and everything written to the
    streams is its own output: the output of the other commands waits. *)
Theorem X7_first_command_alone (p : process) (first : string) (others : list string)
    (o : RunOptions) (evs : list event) :
  is_closed (first :: others) evs first = false ->
  let st := handle_all evs (start_all p (first :: others) o init) in
  getPrimaryCommand st = Some first
  /\ Forall (fun w => by_command w = first) (console st).
Proof.
  intros Hopen st. unfold st. clear st.
  assert (Hprim : forall evs', is_closed (first :: others) evs' first = false ->
            getPrimaryCommand (handle_all evs' (start_all p (first :: others) o init))
            = Some first).
  { intros evs' H. rewrite primary_from_start. simpl. rewrite H. reflexivity. }
  split; [apply Hprim, Hopen|].
  revert Hopen. induction evs as [|ev evs IH] using rev_ind; intros Hopen.
  - cbn [handle_all fold_left].
    rewrite (proj1 (proj2 (start_all_spec p o (first :: others) init))). constructor.
  - assert (Hopen' : is_closed (first :: others) evs first = false).
    { unfold is_closed in *. rewrite closed_commands_app, existsb_app in Hopen.
      apply orb_false_iff in Hopen. tauto. }
    rewrite handle_all_snoc.
    destruct (handle_console ev (handle_all evs (start_all p (first :: others) o init)))
      as (ws & Hc & Hws).
    rewrite Hc. apply Forall_app. split; [apply IH, Hopen'|].
    eapply List.Forall_impl; [|exact Hws]. cbv beta. intros w [H|H].
    + rewrite (Hprim evs Hopen') in H. congruence.
    + rewrite <- handle_all_snoc, (Hprim _ Hopen) in H. congruence.
Qed.

Lemma X7_witness :
  Forall (fun w => by_command w = "a")
         (console (handle_all (firstn 6 sample_events)
                              (start_all sample_process ("a" :: ["b"; "c"]) in_parallel init))).
Proof.
  exact (proj2 (X7_first_command_alone sample_process "a" ["b"; "c"] in_parallel
                  (firstn 6 sample_events) eq_refl)).
Defined.

(** ** The final flush *)

Lemma map_get_None (c : string) (m : list (string * list chunk)) :
  map_get c m = None <-> ~ In c (map fst m).
Proof.
  induction m as [|[k v] m IH]; simpl; [tauto|].
  destruct (String.eqb_spec c k) as [->|Hne].
  - split; [discriminate | intros H; exfalso; apply H; left; reflexivity].
  - rewrite IH. split; [intros H [E|Hin]; [congruence | contradiction] | tauto].
Qed.

Lemma map_push_keys (c : string) (x : chunk) (m : list (string * list chunk)) :
  map fst (map_push c x m) = map fst m.
Proof.
  induction m as [|[k v] m IH]; [reflexivity|]. simpl.
  destruct (String.eqb c k); simpl; [reflexivity | f_equal; exact IH].
Qed.

Lemma map_delete_keys (c : string) (m : list (string * list chunk)) :
  map fst (map_delete c m) = List.filter (fun k => negb (String.eqb c k)) (map fst m).
Proof.
  induction m as [|[k v] m IH]; [reflexivity|]. simpl.
  destruct (String.eqb c k); simpl; [|f_equal]; exact IH.
Qed.

Lemma map_delete_absent (c : string) (m : list (string * list chunk)) :
  ~ In c (map fst m) -> map_delete c m = m.
Proof.
  induction m as [|[k v] m IH]; intros H; [reflexivity|]. simpl in *.
  destruct (String.eqb_spec c k) as [->|Hne]; [exfalso; apply H; left; reflexivity|].
  simpl. f_equal. apply IH. tauto.
Qed.

Lemma write_keys (s : Stream) (text c : string) (st : state) :
  NoDup (map fst (buffers st)) -> NoDup (map fst (buffers (write s text c st))).
Proof.
  intros H. unfold write. destruct (is_primary c st); simpl; [exact H|].
  rewrite map_push_keys. destruct (map_get c (buffers st)) eqn:E; [exact H|].
  rewrite map_app. apply NoDup_app. split; [exact H|]. split; [|apply NoDup_singleton].
  intros k Hk Hk'. apply list_elem_of_In in Hk, Hk'. destruct Hk' as [<-|[]].
  apply map_get_None in E. contradiction.
Qed.

Lemma flush_keys_nodup (c : option string) (st : state) :
  NoDup (map fst (buffers st)) -> NoDup (map fst (buffers (flush c st))).
Proof.
  intros H. unfold flush. destruct c as [k|]; [|exact H].
  destruct (map_get k (buffers st)); [|exact H]. simpl. rewrite map_delete_keys.
  apply NoDup_ListNoDup, List.NoDup_filter, NoDup_ListNoDup, H.
Qed.

Lemma handle_keys (ev : event) (st : state) :
  NoDup (map fst (buffers st)) -> NoDup (map fst (buffers (handle ev st))).
Proof.
  intros H. destruct ev as [pid e]. unfold handle.
  destruct (children st !! pid) as [ch|]; [|exact H].
  assert (Hclose : NoDup (map fst (buffers (on_close (ch_command ch) st))))
    by (unfold on_close; apply flush_keys_nodup; exact H).
  destruct e as [s text|err|code].
  - destruct (ch_parallel ch); [apply write_keys, H | exact H].
  - rewrite (proj1 (proj2 (reject_spec _ _ _))). exact H.
  - destruct (is_zero code).
    + rewrite (proj1 (proj2 (resolve_spec _ _))). exact Hclose.
    + rewrite (proj1 (proj2 (reject_spec _ _ _))). exact Hclose.
Qed.

Lemma handle_all_keys (evs : list event) : forall st,
  NoDup (map fst (buffers st)) -> NoDup (map fst (buffers (handle_all evs st))).
Proof.
  induction evs as [|ev evs IH]; intros st H; [exact H|].
  rewrite handle_all_cons. apply IH, handle_keys, H.
Qed.

Lemma flush_fold_console (m : list (string * list chunk)) : forall st,
  buffers st = m ->
  NoDup (map fst m) ->
  console (fold_left (fun st k => flush (Some k) st) (map fst m) st)
  = console st ++ flat_map block m.
Proof.
  induction m as [|[k v] m IH]; intros st Hb Hnd.
  - simpl. symmetry. apply app_nil_r.
  - cbn [map fst fold_left flat_map]. simpl in Hnd. apply NoDup_cons in Hnd as [Hk Hnd].
    assert (Hget : map_get k (buffers st) = Some v) by (rewrite Hb; simpl; rewrite String.eqb_refl; reflexivity).
    rewrite IH.
    + rewrite flush_console, Hget, <- app_assoc. reflexivity.
    + unfold flush. rewrite Hget. simpl. rewrite Hb. simpl. rewrite String.eqb_refl. simpl.
      apply map_delete_absent. intros Hin. apply Hk, list_elem_of_In, Hin.
    + exact Hnd.
Qed.

Lemma write_buffer_keys (s : Stream) (text c : string) (st : state) :
  map fst (buffers (write s text c st))
  = if is_primary c st then map fst (buffers st)
    else match map_get c (buffers st) with
         | Some _ => map fst (buffers st)
         | None => map fst (buffers st) ++ [c]
         end.
Proof.
  unfold write. destruct (is_primary c st); simpl; [reflexivity|].
  rewrite map_push_keys. destruct (map_get c (buffers st)); [reflexivity|].
  rewrite map_app. reflexivity.
Qed.

Lemma on_close_buffer_keys (c : string) (st : state) :
  map fst (buffers (on_close c st))
  = match getPrimaryCommand (on_close c st) with
    | Some k => List.filter (fun x => negb (String.eqb k x)) (map fst (buffers st))
    | None => map fst (buffers st)
    end.
Proof.
  rewrite primary_on_close. unfold on_close, flush, getPrimaryCommand. simpl.
  destruct (head (set_delete c (runningCommands st))) as [k|]; [|reflexivity].
  destruct (map_get k (buffers st)) eqn:E; simpl.
  - apply map_delete_keys.
  - apply map_get_None in E. symmetry. apply forallb_filter_id.
    apply forallb_forall. intros x Hx. apply negb_true_iff, String.eqb_neq. congruence.
Qed.

Lemma note_data_seen (commands : list string) (seen : list string) (ev : event) :
  NoDup seen ->
  NoDup (note_data commands seen ev)
  /\ (forall c, In c seen -> In c (note_data commands seen ev))
  /\ sublist seen (note_data commands seen ev).
Proof.
  intros Hnd.
  assert (Hsame : NoDup seen /\ (forall c, In c seen -> In c seen) /\ sublist seen seen)
    by (split; [exact Hnd|]; split; [auto | reflexivity]).
  destruct ev as [pid [s text|err|code]]; simpl; try exact Hsame.
  destruct (commands !! pid) as [c|]; [|exact Hsame].
  destruct (existsb (String.eqb c) seen) eqn:E; [exact Hsame|].
  split; [|split].
  - apply NoDup_app. split; [exact Hnd|]. split; [|apply NoDup_singleton].
    intros x Hx Hx'. apply list_elem_of_In in Hx, Hx'. destruct Hx' as [Hx'|[]]. subst x.
    rewrite (proj2 (existsb_exists _ _)) in E; [discriminate|].
    exists c. split; [exact Hx | apply String.eqb_refl].
  - intros x Hx. apply List.in_app_iff. left. exact Hx.
  - apply sublist_inserts_r. reflexivity.
Qed.

Lemma handle_queued (commands : list string) (ended : list nat) (seen : list string)
    (st : state) (pid : nat) (e : child_event) :
  NoDup commands ->
  queued commands ended seen st ->
  (is_final e = false -> ~ In pid ended) ->
  queued commands (if is_final e then pid :: ended else ended)
         (note_data commands seen (pid, e)) (handle (pid, e) st).
Proof.
  intros Hnd (Q1 & Q2 & Q3 & Q4) Hlive.
  destruct (note_data_seen commands seen (pid, e) Q2) as (N1 & N2 & N3).
  assert (Hch := shape_child commands st pid Q1).
  assert (Hs := handle_shape (pid, e) st).
  split; [rewrite Hs; exact Q1|]. split; [exact N1|].
  assert (Hsame : forall st',
            getPrimaryCommand st' = getPrimaryCommand st ->
            buffers st' = buffers st ->
            note_data commands seen (pid, e) = seen ->
            sublist (map fst (buffers st')) (note_data commands seen (pid, e))
            /\ forall c, In c (note_data commands seen (pid, e)) ->
                 getPrimaryCommand st' = Some c
                 \/ In c (map fst (buffers st'))
                 \/ exists q, commands !! q = Some c
                              /\ In q (if is_final e then pid :: ended else ended)).
  { intros st' Hp Hb Hn. rewrite Hp, Hb, Hn. split; [exact Q3|].
    intros c Hc. destruct (Q4 c Hc) as [H|[H|(q & Hq & Hin)]]; auto.
    right. right. exists q. split; [exact Hq|]. destruct (is_final e); simpl; auto. }
  unfold handle. destruct (children st !! pid) as [ch|] eqn:E.
  - destruct Hch as [Hcmd Hpar]. destruct e as [s text|err|code].
    + (* data *)
      rewrite Hpar. simpl in Hlive, N1, N2, N3 |- *. rewrite Hcmd in N1, N2, N3 |- *.
      set (c := ch_command ch) in *.
      rewrite write_buffer_keys, primary_write.
      destruct (is_primary c st) eqn:Hprim.
      * apply is_primary_spec in Hprim. split; [transitivity seen; [exact Q3 | exact N3]|].
        intros x Hx.
        assert (Hx' : In x seen \/ x = c).
        { destruct (existsb (String.eqb c) seen); [left; exact Hx|].
          apply List.in_app_iff in Hx as [Hx|[<-|[]]]; auto. }
        destruct Hx' as [Hx'| ->]; [|left; exact Hprim].
        destruct (Q4 x Hx') as [H|[H|H]]; auto.
      * assert (Hnp : getPrimaryCommand st <> Some c)
          by (intros H; apply is_primary_spec in H; congruence).
        destruct (map_get c (buffers st)) eqn:Eget.
        -- split; [transitivity seen; [exact Q3 | exact N3]|].
           intros x Hx.
           assert (Hx' : In x seen \/ x = c).
           { destruct (existsb (String.eqb c) seen); [left; exact Hx|].
             apply List.in_app_iff in Hx as [Hx|[<-|[]]]; auto. }
           destruct Hx' as [Hx'| ->].
           ++ destruct (Q4 x Hx') as [H|[H|H]]; auto.
           ++ right. left. destruct (in_dec string_dec c (map fst (buffers st))) as [H|H];
                [exact H|]. apply map_get_None in H. congruence.
        -- assert (Hkey : ~ In c (map fst (buffers st))) by (apply map_get_None; exact Eget).
           assert (Hnew : ~ In c seen).
           { intros Hin. destruct (Q4 c Hin) as [H|[H|(q & Hq & Hin')]];
               [contradiction..|].
             apply (Hlive eq_refl).
             rewrite (NoDup_lookup commands pid q c Hnd Hcmd Hq). exact Hin'. }
           assert (Hex : existsb (String.eqb c) seen = false).
           { destruct (existsb (String.eqb c) seen) eqn:Ex; [|reflexivity].
             apply existsb_exists in Ex as (x & Hx & Heq). apply String.eqb_eq in Heq.
             subst x. contradiction. }
           rewrite Hex. split; [apply sublist_app; [exact Q3 | reflexivity]|].
           intros x Hx. apply List.in_app_iff in Hx as [Hx|[<-|[]]].
           ++ destruct (Q4 x Hx) as [H|[H|H]]; auto.
              right. left. apply List.in_app_iff. left. exact H.
           ++ right. left. apply List.in_app_iff. right. left. reflexivity.
    + (* error *)
      destruct (reject_spec pid err st) as (Hr & Hb & _).
      apply Hsame; [unfold getPrimaryCommand; rewrite Hr; reflexivity | exact Hb | reflexivity].
    + (* close *)
      simpl. set (c := ch_command ch) in *.
      assert (Hfin : forall st',
                getPrimaryCommand st' = getPrimaryCommand (on_close c st) ->
                buffers st' = buffers (on_close c st) ->
                sublist (map fst (buffers st')) seen
                /\ forall x, In x seen ->
                     getPrimaryCommand st' = Some x
                     \/ In x (map fst (buffers st'))
                     \/ exists q, commands !! q = Some x /\ In q (pid :: ended)).
      { intros st' Hp Hb. rewrite Hp, Hb, on_close_buffer_keys.
        assert (Hprim := primary_on_close c st).
        split.
        - destruct (getPrimaryCommand (on_close c st));
            [transitivity (map fst (buffers st)); [apply sublist_filter_list | exact Q3]
            | exact Q3].
        - intros x Hx.
          destruct (string_dec x c) as [->|Hxc].
          { right. right. exists pid. split; [exact Hcmd | left; reflexivity]. }
          destruct (Q4 x Hx) as [H|[H|(q & Hq & Hin)]].
          + left. rewrite Hprim. unfold getPrimaryCommand in H.
            destruct (runningCommands st) as [|y running]; [discriminate|].
            injection H as ->. unfold set_delete. simpl.
            destruct (String.eqb_spec c x) as [->|_]; [contradiction | reflexivity].
          + destruct (getPrimaryCommand (on_close c st)) as [k|]; [|auto].
            destruct (string_dec k x) as [->|Hk]; [left; reflexivity|].
            right. left. apply filter_In. split; [exact H|].
            apply negb_true_iff, String.eqb_neq. exact Hk.
          + right. right. exists q. split; [exact Hq | right; exact Hin]. }
      destruct (is_zero code).
      * destruct (resolve_spec pid (on_close c st)) as (Hr & Hb & _).
        apply Hfin; [unfold getPrimaryCommand; rewrite Hr; reflexivity | exact Hb].
      * destruct (reject_spec pid (exit_error c code) (on_close c st)) as (Hr & Hb & _).
        apply Hfin; [unfold getPrimaryCommand; rewrite Hr; reflexivity | exact Hb].
  - apply Hsame; [reflexivity | reflexivity|].
    destruct e as [s text|err|code]; simpl; [rewrite Hch|..]; reflexivity.
Qed.

Lemma handle_all_queued (commands : list string) (evs : list event) : forall ended seen st,
  NoDup commands ->
  queued commands ended seen st ->
  orderly (length commands) ended evs = true ->
  exists ended', queued commands ended' (fold_left (note_data commands) evs seen)
                        (handle_all evs st).
Proof.
  induction evs as [|[pid e] evs IH]; intros ended seen st Hnd Hq Hord.
  - exists ended. exact Hq.
  - rewrite handle_all_cons. cbn [fold_left]. simpl in Hord.
    apply andb_true_iff in Hord as [_ Hord].
    apply (IH (if is_final e then pid :: ended else ended)); [exact Hnd| |].
    + apply handle_queued; [exact Hnd | exact Hq|].
      intros Hf. rewrite Hf in Hord. apply andb_true_iff in Hord as [Hn _].
      apply negb_true_iff in Hn. intros Hin.
      rewrite (proj2 (existsb_eqb_In pid ended) Hin) in Hn. discriminate.
    + destruct (is_final e); [exact Hord|]. apply andb_true_iff in Hord. tauto.
Qed.

(** X8. When the commands run in parallel are distinct and no child
    emits data after its ['error'] or ['close'], the final flush writes
    the buffers that are left one after the other, after what was
    written before, each of them whole and in the order of its chunks,
    and the commands come in the order in which their children emitted
    their first chunk. No command has two buffers. *)
Theorem X8_final_flush_order (p : process) (commands : list string) (o : RunOptions)
    (evs : list event) :
  parallel o = true ->
  NoDup commands ->
  orderly (length commands) [] evs = true ->
  let st := handle_all evs (start_all p commands o init) in
  console (flushAll st) = console st ++ flat_map block (buffers st)
  /\ NoDup (map fst (buffers st))
  /\ sublist (map fst (buffers st)) (first_data commands evs)
  /\ NoDup (first_data commands evs).
Proof.
  intros Hpar Hnd Hord st.
  assert (Hkeys : NoDup (map fst (buffers st))).
  { unfold st. apply handle_all_keys.
    rewrite (proj1 (start_all_spec p o commands init)). constructor. }
  split; [unfold flushAll; apply flush_fold_console; [reflexivity | exact Hkeys]|].
  split; [exact Hkeys|].
  destruct (handle_all_queued commands evs [] [] (start_all p commands o init) Hnd)
    as (ended' & _ & Q2 & Q3 & _); [|exact Hord|split; [exact Q3 | exact Q2]].
  destruct (start_all_init p o commands Hpar) as (Hshape & _).
  split; [exact Hshape|]. split; [constructor|].
  rewrite (proj1 (start_all_spec p o commands init)). simpl.
  split; [constructor | intros c []].
Qed.

Lemma X8_witness :
  map by_command
      (console (flushAll (handle_all sample_events
                                     (start_all sample_process ["a"; "b"; "c"] in_parallel init))))
  = ["a"; "a"; "b"; "b"; "c"]
  /\ first_data ["a"; "b"; "c"] sample_events = ["b"; "a"; "c"].
Proof.
  assert (Hnd : NoDup ["a"; "b"; "c"])
    by (apply NoDup_ListNoDup; repeat constructor; simpl; intuition discriminate).
  destruct (X8_final_flush_order sample_process ["a"; "b"; "c"] in_parallel sample_events
              eq_refl Hnd eq_refl) as (H & _).
  split; [rewrite H|]; reflexivity.
Defined.

(** With a command listed twice the order can differ: the buffer of [a]
    is flushed and removed when its first child is promoted, and the
    chunk of its second child makes a new buffer behind that of [c]. *)
Example same_name_buffered_again :
  let evs := [ (1%nat, Data Stdout "a1"); (3%nat, Data Stdout "c1"); (0%nat, Close (Some 0%Z));
               (1%nat, Close (Some 0%Z)); (4%nat, Data Stdout "a2") ] in
  let st := handle_all evs (start_all sample_process ["x"; "a"; "b"; "c"; "a"] in_parallel init) in
  map fst (buffers st) = ["c"; "a"]
  /\ first_data ["x"; "a"; "b"; "c"; "a"] evs = ["a"; "c"].
Proof. split; reflexivity. Qed.

(** ** Output of distinct commands is not mixed *)

Lemma grouped_snoc (l : list string) (x : string) :
  grouped l -> (~ In x l \/ last l = Some x) -> grouped (l ++ [x]).
Proof.
  intros Hg Hx i j k c Hij Hjk Hi Hk.
  assert (Hklen : (k < length (l ++ [x]))%nat) by (apply (lookup_lt_Some _ _ _ Hk)).
  rewrite length_app in Hklen. simpl in Hklen.
  destruct (Nat.eq_dec k (length l)) as [->|Hne].
  - rewrite lookup_app_r, Nat.sub_diag in Hk by lia. injection Hk as <-.
    rewrite lookup_app_l in Hi by lia. rewrite lookup_app_l by lia.
    destruct Hx as [Hx|Hx].
    + exfalso. apply Hx, list_elem_of_In, list_elem_of_lookup. exists i. exact Hi.
    + rewrite last_lookup in Hx.
      destruct (Nat.eq_dec j (Init.Nat.pred (length l))) as [->|Hj]; [exact Hx|].
      apply (Hg i j (Init.Nat.pred (length l)) x); [lia | lia | exact Hi | exact Hx].
  - rewrite lookup_app_l in Hi, Hk by lia. rewrite lookup_app_l by lia.
    apply (Hg i j k c); assumption.
Qed.

Lemma grouped_app_same (ws l : list string) (c : string) :
  grouped l -> (~ In c l \/ last l = Some c) -> Forall (fun x => x = c) ws ->
  grouped (l ++ ws)
  /\ (ws <> [] -> last (l ++ ws) = Some c).
Proof.
  revert l. induction ws as [|x ws IH]; intros l Hg Hc Hws.
  - rewrite app_nil_r. split; [exact Hg | congruence].
  - apply Forall_cons_1 in Hws as [Hx Hws]. subst x.
    change (l ++ c :: ws) with (l ++ [c] ++ ws). rewrite app_assoc.
    destruct (IH (l ++ [c])) as [Hg' Hlast].
    + apply grouped_snoc; assumption.
    + right. apply last_snoc.
    + exact Hws.
    + split; [exact Hg'|]. intros _. destruct ws as [|y ws].
      * rewrite app_nil_r. apply last_snoc.
      * apply Hlast. discriminate.
Qed.

Lemma block_labels (k : string) (v : list chunk) :
  Forall (fun x => x = k) (map by_command (block (k, v))).
Proof.
  unfold block. simpl. induction v as [|x v IH]; simpl; constructor; [reflexivity | exact IH].
Qed.

Lemma finished_step (commands : list string) (ended ended' : list nat) (st st' : state)
    (c : string) :
  finished commands ended st c ->
  (forall x, In x (runningCommands st') -> In x (runningCommands st)) ->
  (map_get c (buffers st) = None -> map_get c (buffers st') = None) ->
  (forall x, In x ended -> In x ended') ->
  finished commands ended' st' c.
Proof.
  intros (H1 & H2 & H3) Hr Hb He. repeat split.
  - intros H. apply H1, Hr, H.
  - apply Hb, H2.
  - intros pid Hpid. apply He, H3, Hpid.
Qed.

Lemma tidy_same_output (commands : list string) (ended ended' : list nat) (st st' : state) :
  tidy commands ended st ->
  (forall x, In x ended -> In x ended') ->
  runningCommands st' = runningCommands st ->
  buffers st' = buffers st ->
  console st' = console st ->
  shape st' = shape st ->
  tidy commands ended' st'.
Proof.
  intros (T1 & T2 & T3 & T4 & T5 & T6) He Hr Hb Hc Hs.
  assert (Hl : labels st' = labels st) by (unfold labels; rewrite Hc; reflexivity).
  assert (Hp : getPrimaryCommand st' = getPrimaryCommand st)
    by (unfold getPrimaryCommand; rewrite Hr; reflexivity).
  unfold tidy. rewrite Hs, Hb, Hl, Hp.
  split; [exact T1|]. split; [|split; [exact T3|split; [exact T4|split; [exact T5|]]]].
  - intros p H. rewrite Hp in H. rewrite Hb. apply T2, H.
  - intros c Hin Hnp. apply (finished_step commands ended ended' st st' c).
    + apply T6; assumption.
    + intros x. rewrite Hr. tauto.
    + rewrite Hb. tauto.
    + exact He.
Qed.

(** A chunk arrives from a child that has not ended. *)
Lemma write_tidy (commands : list string) (ended : list nat) (st : state)
    (pid : nat) (s : Stream) (text c : string) :
  tidy commands ended st ->
  commands !! pid = Some c ->
  ~ In pid ended ->
  tidy commands ended (write s text c st).
Proof.
  intros (T1 & T2 & T3 & T4 & T5 & T6) Hpid Hlive.
  assert (Hshape : shape (write s text c st) = shape st)
    by (unfold shape; rewrite (proj1 (proj2 (proj2 (write_frame s text c st)))); reflexivity).
  assert (Hrun : runningCommands (write s text c st) = runningCommands st) by apply write_frame.
  assert (Hprim := primary_write s text c st).
  unfold tidy. rewrite Hshape, Hprim.
  split; [exact T1|]. split; [apply (write_accounted s text c "" st T2)|].
  split; [apply write_keys, T3|].
  destruct (is_primary c st) eqn:Hp.
  - apply is_primary_spec in Hp. destruct (write_primary s text c st Hp) as [Hc Hb].
    assert (Hl : labels (write s text c st) = labels st ++ [c])
      by (unfold labels; rewrite Hc, map_app; reflexivity).
    rewrite Hl. split; [|split].
    + apply grouped_snoc; [exact T4|].
      destruct (in_dec string_dec c (labels st)) as [Hin|Hin]; [right; apply T5; assumption | left; exact Hin].
    + intros p Hpp _. rewrite Hp in Hpp. injection Hpp as <-. apply last_snoc.
    + intros c' Hin Hnp. apply in_app_iff in Hin as [Hin|[<-|[]]]; [|congruence].
      apply (finished_step commands ended ended st _ c' (T6 c' Hin Hnp)).
      * intros x. rewrite Hrun. tauto.
      * rewrite Hb. tauto.
      * tauto.
  - assert (Hn : getPrimaryCommand st <> Some c)
      by (intros E; apply is_primary_spec in E; congruence).
    destruct (write_buffered s text c st Hn) as (Hc & _ & Ho).
    assert (Hl : labels (write s text c st) = labels st) by (unfold labels; rewrite Hc; reflexivity).
    rewrite Hl. split; [exact T4|]. split; [exact T5|].
    intros c' Hin Hnp. assert (Hf := T6 c' Hin Hnp).
    destruct (string_dec c' c) as [->|Hne].
    + exfalso. apply Hlive. apply Hf, Hpid.
    + apply (finished_step commands ended ended st _ c' Hf).
      * intros x. rewrite Hrun. tauto.
      * intros H. rewrite (Ho c' Hne). exact H.
      * tauto.
Qed.

Lemma set_delete_In (c x : string) (set : list string) :
  In x (set_delete c set) <-> In x set /\ x <> c.
Proof.
  unfold set_delete. rewrite filter_In, negb_true_iff, String.eqb_neq.
  split; intros [H1 H2]; split; congruence.
Qed.

(** The child [pid] of the command [c] closes. *)
Lemma on_close_tidy (commands : list string) (ended : list nat) (st : state)
    (pid : nat) (c : string) :
  NoDup commands ->
  tidy commands ended st ->
  commands !! pid = Some c ->
  tidy commands (pid :: ended) (on_close c st).
Proof.
  intros Hnd (T1 & T2 & T3 & T4 & T5 & T6) Hpid.
  assert (Hrun : runningCommands (on_close c st) = set_delete c (runningCommands st))
    by (unfold on_close; rewrite (proj1 (flush_frame _ _)); reflexivity).
  assert (Hshape : shape (on_close c st) = shape st)
    by (unfold shape; rewrite (proj1 (proj2 (on_close_frame c st))); reflexivity).
  assert (Hkeep : forall k, map_get k (buffers st) = None ->
                            map_get k (buffers (on_close c st)) = None).
  { intros k Hk. unfold on_close.
    match goal with |- context [flush ?q ?s] =>
      apply (proj2 (proj2 (flush_accounted q "" s))) end. exact Hk. }
  assert (Hcons := on_close_console c st).
  assert (Hprim := primary_on_close c st).
  assert (Hsub : forall x, In x (runningCommands (on_close c st)) -> In x (runningCommands st))
    by (intros x; rewrite Hrun, set_delete_In; tauto).
  assert (Hmono : forall x, In x ended -> In x (pid :: ended)) by (intros x; simpl; tauto).
  assert (Hold : forall c', finished commands ended st c' ->
                            finished commands (pid :: ended) (on_close c st) c').
  { intros c' Hf. apply (finished_step commands ended _ st _ c' Hf Hsub (Hkeep c') Hmono). }
  assert (Hself : getPrimaryCommand st = Some c ->
                  finished commands (pid :: ended) (on_close c st) c).
  { intros Hp. repeat split.
    - rewrite Hrun, set_delete_In. tauto.
    - apply Hkeep, T2, Hp.
    - intros pid' Hpid'. left. apply (NoDup_lookup commands pid pid' c Hnd Hpid Hpid'). }
  unfold tidy. rewrite Hshape.
  split; [exact T1|]. split; [apply (on_close_accounted c "" st)|].
  split; [unfold on_close; apply flush_keys_nodup; exact T3|].
  rewrite Hprim in Hcons. rewrite Hprim. clear Hprim.
  unfold getPrimaryCommand in T2, T5, T6, Hself.
  destruct (runningCommands st) as [|c0 running] eqn:Er.
  - (* nothing was running *)
    simpl in Hcons |- *. rewrite app_nil_r in Hcons.
    assert (Hl : labels (on_close c st) = labels st) by (unfold labels; rewrite Hcons; reflexivity).
    rewrite Hl. split; [exact T4|]. split; [discriminate|].
    intros c' Hin _. apply Hold, T6; [exact Hin | discriminate].
  - destruct (string_dec c0 c) as [->|Hne].
    + (* the primary command closes *)
      assert (Hr' : set_delete c (c :: running) = set_delete c running)
        by (unfold set_delete; simpl; rewrite String.eqb_refl; reflexivity).
      rewrite Hr' in Hcons |- *.
      destruct (head (set_delete c running)) as [q|] eqn:Eq.
      * assert (Hq : In q running /\ q <> c).
        { apply set_delete_In. destruct (set_delete c running); [discriminate|].
          injection Eq as <-. left. reflexivity. }
        assert (Hfresh : ~ In q (labels st)).
        { destruct Hq as [Hq1 Hq2]. intros Hin.
          destruct (T6 q Hin) as (Hnr & _); [simpl; congruence|].
          apply Hnr. rewrite Er. right. exact Hq1. }
        assert (Hl : labels (on_close c st)
                     = labels st ++ map by_command (block (q, default [] (map_get q (buffers st)))))
          by (unfold labels; rewrite Hcons, map_app; reflexivity).
        destruct (grouped_app_same _ (labels st) q T4 (or_introl Hfresh)
                    (block_labels q (default [] (map_get q (buffers st)))))
          as [Hg Hlast].
        rewrite Hl. split; [exact Hg|]. split.
        -- intros p [= <-] Hin. apply Hlast. intros E. rewrite E, app_nil_r in Hin. contradiction.
        -- intros c' Hin Hnp. apply in_app_iff in Hin as [Hin|Hin].
           ++ destruct (string_dec c' c) as [->|Hc']; [apply Hself; reflexivity|].
              apply Hold, T6; [exact Hin | simpl; congruence].
           ++ exfalso. apply Hnp. f_equal.
              generalize (block_labels q (default [] (map_get q (buffers st)))).
              rewrite List.Forall_forall. intros Hall. symmetry. apply Hall, Hin.
      * rewrite app_nil_r in Hcons.
        assert (Hl : labels (on_close c st) = labels st) by (unfold labels; rewrite Hcons; reflexivity).
        rewrite Hl. split; [exact T4|]. split; [discriminate|].
        intros c' Hin _. destruct (string_dec c' c) as [->|Hc']; [apply Hself; reflexivity|].
        apply Hold, T6; [exact Hin | simpl; congruence].
    + (* another command closes: the primary command stays *)
      assert (Hr' : head (set_delete c (c0 :: running)) = Some c0).
      { unfold set_delete. simpl.
        destruct (String.eqb_spec c c0) as [->|_]; [contradiction | reflexivity]. }
      rewrite Hr' in Hcons |- *.
      assert (Hc0 : map_get c0 (buffers st) = None)
        by (apply T2; unfold getPrimaryCommand; rewrite Er; reflexivity).
      rewrite Hc0 in Hcons. unfold block in Hcons. simpl in Hcons.
      rewrite app_nil_r in Hcons.
      assert (Hl : labels (on_close c st) = labels st) by (unfold labels; rewrite Hcons; reflexivity).
      rewrite Hl. split; [exact T4|]. split; [exact T5|].
      intros c' Hin Hnp. apply Hold, T6; assumption.
Qed.

Lemma handle_tidy (commands : list string) (ended : list nat) (st : state)
    (pid : nat) (e : child_event) :
  NoDup commands ->
  tidy commands ended st ->
  (is_final e = false -> ~ In pid ended) ->
  tidy commands (if is_final e then pid :: ended else ended) (handle (pid, e) st).
Proof.
  intros Hnd Ht Hlive.
  assert (Hmono : forall x, In x ended -> In x (if is_final e then pid :: ended else ended))
    by (intros x; destruct (is_final e); simpl; tauto).
  assert (Hch := shape_child commands st pid (proj1 Ht)).
  assert (Hs := handle_shape (pid, e) st).
  unfold handle in Hs |- *. destruct (children st !! pid) as [ch|] eqn:E.
  - destruct Hch as [Hcmd Hpar]. destruct e as [s text|err|code].
    + rewrite Hpar. simpl. apply (write_tidy commands ended st pid); auto.
    + destruct (reject_spec pid err st) as (Hr & Hb & Hc & _).
      apply (tidy_same_output commands ended _ st); auto.
    + simpl is_final. cbv iota.
      assert (Ht1 := on_close_tidy commands ended st pid (ch_command ch) Hnd Ht Hcmd).
      assert (Hs1 : shape (on_close (ch_command ch) st) = shape st)
        by (unfold shape; rewrite (proj1 (proj2 (on_close_frame _ st))); reflexivity).
      rewrite <- Hs1 in Hs.
      destruct (is_zero code).
      * destruct (resolve_spec pid (on_close (ch_command ch) st)) as (Hr & Hb & Hc & _).
        apply (tidy_same_output commands (pid :: ended) _ (on_close (ch_command ch) st)); auto.
      * destruct (reject_spec pid (exit_error (ch_command ch) code)
                              (on_close (ch_command ch) st)) as (Hr & Hb & Hc & _).
        apply (tidy_same_output commands (pid :: ended) _ (on_close (ch_command ch) st)); auto.
  - apply (tidy_same_output commands ended _ st); auto.
Qed.

Lemma handle_all_tidy (commands : list string) (evs : list event) : forall ended st,
  NoDup commands ->
  tidy commands ended st ->
  orderly (length commands) ended evs = true ->
  exists ended', tidy commands ended' (handle_all evs st).
Proof.
  induction evs as [|[pid e] evs IH]; intros ended st Hnd Ht Hord.
  - exists ended. exact Ht.
  - rewrite handle_all_cons. simpl in Hord. apply andb_true_iff in Hord as [_ Hord].
    apply (IH (if is_final e then pid :: ended else ended)); [exact Hnd| |].
    + apply handle_tidy; [exact Hnd | exact Ht|].
      intros Hf. rewrite Hf in Hord. apply andb_true_iff in Hord as [Hn _].
      apply negb_true_iff in Hn. intros Hin.
      rewrite (proj2 (existsb_eqb_In pid ended) Hin) in Hn. discriminate.
    + destruct (is_final e); [exact Hord|]. apply andb_true_iff in Hord. tauto.
Qed.

Lemma orderly_prefix (n : nat) (a b : list event) : forall ended,
  orderly n ended (a ++ b) = true -> orderly n ended a = true.
Proof.
  induction a as [|[pid e] a IH]; intros ended H; [reflexivity|].
  simpl in H |- *. apply andb_true_iff in H as [H1 H]. rewrite H1. simpl.
  destruct (is_final e); [apply IH, H|].
  apply andb_true_iff in H as [H2 H]. rewrite H2. simpl. apply IH, H.
Qed.

Lemma grouped_blocks (m : list (string * list chunk)) : forall l,
  grouped l ->
  NoDup (map fst m) ->
  (forall k, In k (map fst m) -> ~ In k l) ->
  grouped (l ++ map by_command (flat_map block m)).
Proof.
  induction m as [|[k v] m IH]; intros l Hg Hnd Hfresh.
  - simpl. rewrite app_nil_r. exact Hg.
  - simpl in Hnd. apply NoDup_cons in Hnd as [Hk Hnd].
    cbn [flat_map]. rewrite map_app, app_assoc. apply IH; [|exact Hnd|].
    + apply (grouped_app_same _ l k Hg); [|apply block_labels].
      left. apply Hfresh. left. reflexivity.
    + intros k' Hk' Hin. apply in_app_iff in Hin as [Hin|Hin].
      * apply (Hfresh k'); [right; exact Hk' | exact Hin].
      * generalize (block_labels k v). rewrite List.Forall_forall. intros Hall.
        apply Hall in Hin. subst k'. apply Hk, list_elem_of_In, Hk'.
Qed.

Lemma tidy_start (p : process) (commands : list string) (o : RunOptions) :
  parallel o = true -> tidy commands [] (start_all p commands o init).
Proof.
  intros Hpar.
  destruct (start_all_init p o commands Hpar) as (Hshape & Hinv & _).
  destruct (start_all_spec p o commands init) as (Hb & Hc & _).
  simpl in Hb, Hc. unfold tidy, labels. rewrite Hb, Hc. simpl.
  split; [exact Hshape|]. split; [exact Hinv|]. split; [constructor|].
  split; [intros i j k c _ _ H; discriminate|]. split; [intros p0 _ []|intros c []].
Qed.

Lemma tidy_flushed (commands : list string) (ended : list nat) (st : state) :
  tidy commands ended st -> grouped (labels st) /\ grouped (labels (flushAll st)).
Proof.
  intros (T1 & T2 & T3 & T4 & T5 & T6). split; [exact T4|].
  unfold labels, flushAll. rewrite (flush_fold_console (buffers st) st eq_refl T3), map_app.
  apply grouped_blocks; [exact T4 | exact T3|].
  intros k Hk Hin.
  assert (Hsome : map_get k (buffers st) <> None) by (intros H; apply map_get_None in H; contradiction).
  destruct (decide (getPrimaryCommand st = Some k)) as [Hp|Hp].
  - apply Hsome, T2, Hp.
  - apply Hsome. apply (T6 k Hin Hp).
Qed.

(** X9. When the commands run in parallel are distinct and their
    children emit no data after their ['error'] or ['close'], the output
    of different commands is never mixed: between two writes for one
    command there are only writes for that command, at every moment, and
    also after the final flush and in what [run] leaves behind. *)
Theorem X9_output_not_mixed (p : process) (commands : list string) (o : RunOptions)
    (evs : list event) :
  parallel o = true ->
  NoDup commands ->
  orderly (length commands) [] evs = true ->
  grouped (labels (handle_all evs (start_all p commands o init)))
  /\ grouped (labels (flushAll (handle_all evs (start_all p commands o init))))
  /\ forall st result rest,
       run_parallel p commands o evs init = Some (st, result, rest) ->
       grouped (labels st).
Proof.
  intros Hpar Hnd Hord.
  assert (Hall : forall a b, evs = a ++ b ->
            grouped (labels (handle_all a (start_all p commands o init)))
            /\ grouped (labels (flushAll (handle_all a (start_all p commands o init))))).
  { intros a b E. rewrite E in Hord. apply orderly_prefix in Hord.
    destruct (handle_all_tidy commands a [] _ Hnd (tidy_start p commands o Hpar) Hord)
      as [ended' Ht].
    apply (tidy_flushed commands ended' _ Ht). }
  split; [apply (Hall evs []); symmetry; apply app_nil_r|].
  split; [apply (Hall evs []); symmetry; apply app_nil_r|].
  intros st result rest H. unfold run_parallel in H.
  destruct (await_all evs (start_all p commands o init)) as [[st2 rest2]|] eqn:Haw; [|discriminate].
  injection H as <- _ _.
  assert (Hdec : exists consumed, evs = consumed ++ rest2
                                  /\ st2 = handle_all consumed (start_all p commands o init)).
  { clear -Haw. revert Haw. generalize (start_all p commands o init).
    induction evs as [|ev evs IH]; intros s H; simpl in H.
    - destruct (all_settled s); [|discriminate]. injection H as <- <-. exists []. auto.
    - destruct (all_settled s); [injection H as <- <-; exists []; auto|].
      destruct (IH _ H) as (consumed & -> & ->). exists (ev :: consumed). auto. }
  destruct Hdec as (consumed & E & ->). apply (Hall consumed rest2 E).
Qed.

Lemma X9_witness :
  grouped (labels (flushAll (handle_all sample_events
                                        (start_all sample_process ["a"; "b"; "c"] in_parallel init)))).
Proof.
  refine (proj1 (proj2 (X9_output_not_mixed sample_process ["a"; "b"; "c"] in_parallel
                          sample_events eq_refl _ eq_refl))).
  apply NoDup_ListNoDup. repeat constructor; simpl; intuition discriminate.
Defined.

(** Two commands of the same name are one entry of the set and of the
    map, and their output can be mixed with that of a third command. *)
Example same_name_mixes :
  labels (flushAll (handle_all
                      [ (0%nat, Data Stdout "a1"); (0%nat, Close (Some 0%Z));
                        (1%nat, Data Stdout "b1"); (2%nat, Data Stdout "a2") ]
                      (start_all sample_process ["a"; "b"; "a"] in_parallel init)))
  = ["a"; "b"; "a"].
Proof. reflexivity. Qed.

(** ** The sequential branch, whatever the events *)

Lemma await_decompose (pid : nat) (evs : list event) : forall st st' rest,
  await pid evs st = Some (st', rest) ->
  exists consumed,
    evs = consumed ++ rest /\ st' = handle_all consumed st
    /\ settled (promise_of pid st') = true.
Proof.
  induction evs as [|ev evs IH]; intros st st' rest H; simpl in H.
  - destruct (settled (promise_of pid st)) eqn:E; [|discriminate].
    injection H as <- <-. exists []. auto.
  - destruct (settled (promise_of pid st)) eqn:E.
    + injection H as <- <-. exists []. auto.
    + destruct (IH _ _ _ H) as (consumed & -> & -> & Hs). exists (ev :: consumed). auto.
Qed.

(** One turn of the loop: one more child, and no promise of an earlier
    child changes. *)
Lemma sequential_turn (p : process) (c : string) (o : RunOptions) (st st2 : state)
    (evs rest : list event) :
  all_settled st = true ->
  await (length (children st)) evs (runCommand p c (sequential o) st) = Some (st2, rest) ->
  spawns st2 = spawns st ++ [spawn_of p c (sequential o)]
  /\ children st2
     = children st
       ++ [{| ch_command := c; ch_parallel := false;
              ch_promise := promise_of (length (children st)) st2 |}]
  /\ settled (promise_of (length (children st)) st2) = true.
Proof.
  intros Hall Haw. set (pid := length (children st)) in *.
  destruct (await_decompose _ _ _ _ _ Haw) as (consumed & _ & -> & Hs).
  destruct (runCommand_spec p c (sequential o) st) as (Hsp & Hch & _).
  set (st1 := runCommand p c (sequential o) st) in *.
  split; [rewrite handle_all_spawns; exact Hsp|]. split; [|exact Hs].
  rewrite (children_by_promise st1 (handle_all consumed st1) pid).
  - rewrite Hch. unfold pid. rewrite <- (Nat.add_0_r (length (children st))) at 2.
    rewrite alter_app_r. reflexivity.
  - apply handle_all_shape.
  - intros q Hq. destruct (Nat.lt_ge_cases q pid) as [Hlt|Hge].
    + apply promise_of_handle_all_settled.
      generalize (proj1 (all_settled_spec st) Hall q Hlt). unfold promise_of.
      rewrite Hch, lookup_app_l by exact Hlt. auto.
    + rewrite !promise_of_outside; [reflexivity| |].
      * rewrite Hch, length_app. simpl. unfold pid in *. lia.
      * rewrite handle_all_length, Hch, length_app. simpl. unfold pid in *. lia.
Qed.

Lemma run_sequential_general (p : process) (o : RunOptions) (commands : list string) :
  forall evs st st' result rest,
    all_settled st = true ->
    run_sequential p commands o evs st = Some (st', result, rest) ->
    exists started,
      spawns st' = spawns st ++ map (fun c => spawn_of p c (sequential o)) started
      /\ match result with
         | Return =>
             started = commands
             /\ children st'
                = children st
                  ++ map (fun c => {| ch_command := c; ch_parallel := false;
                                      ch_promise := Resolved |}) commands
         | Throw (ThrowError e) =>
             exists done c later,
               commands = done ++ c :: later
               /\ started = done ++ [c]
               /\ children st'
                  = children st
                    ++ map (fun c => {| ch_command := c; ch_parallel := false;
                                        ch_promise := Resolved |}) done
                    ++ [{| ch_command := c; ch_parallel := false; ch_promise := Rejected e |}]
         | Throw (ThrowAggregate _ _) => False
         end.
Proof.
  induction commands as [|c commands IH]; intros evs st st' result rest Hall H; simpl in H.
  - injection H as <- <- _. exists []. simpl. rewrite !app_nil_r. auto.
  - destruct (await (length (children st)) evs _) as [[st2 rest2]|] eqn:Haw; [|discriminate].
    fold (sequential o) in Haw.
    destruct (sequential_turn p c o st st2 evs rest2 Hall Haw) as (Hsp & Hch & Hs).
    destruct (promise_of (length (children st)) st2) as [| |e] eqn:Hp; [discriminate| |].
    + assert (Hall2 : all_settled st2 = true)
        by (apply (all_settled_snoc st st2 _ Hch Hall); reflexivity).
      destruct (IH _ _ _ _ _ Hall2 H) as (started & Hsp' & Hres).
      exists (c :: started). split; [rewrite Hsp', Hsp, <- app_assoc; reflexivity|].
      destruct result as [|[e|es m]]; [| |exact Hres].
      * destruct Hres as [-> Hch']. split; [reflexivity|].
        rewrite Hch', Hch, <- app_assoc. reflexivity.
      * destruct Hres as (done & c' & later & -> & -> & Hch').
        exists (c :: done), c', later. split; [reflexivity|]. split; [reflexivity|].
        rewrite Hch', Hch, <- app_assoc. reflexivity.
    + injection H as <- <- _. exists [c]. split; [exact Hsp|].
      exists [], c, commands. split; [reflexivity|]. split; [reflexivity|]. exact Hch.
Qed.

(** X10. Whatever events arrive, when the sequential branch ends it has
    started an initial part of the command list, in order and once each.
    If it returns, that part is the whole list and every child was
    resolved. If it throws, it throws the rejection of the child started
    last, every child before that one was resolved, and the commands
    after it were not started. *)
Theorem X10_sequential_prefix (p : process) (o : RunOptions) (commands : list string)
    (evs : list event) :
  match run_sequential p commands o evs init with
  | Some (st, result, rest) =>
      exists started,
        spawns st = map (fun c => spawn_of p c (sequential o)) started
        /\ match result with
           | Return =>
               started = commands
               /\ children st
                  = map (fun c => {| ch_command := c; ch_parallel := false;
                                     ch_promise := Resolved |}) commands
           | Throw (ThrowError e) =>
               exists done c later,
                 commands = done ++ c :: later
                 /\ started = done ++ [c]
                 /\ children st
                    = map (fun c => {| ch_command := c; ch_parallel := false;
                                       ch_promise := Resolved |}) done
                      ++ [{| ch_command := c; ch_parallel := false; ch_promise := Rejected e |}]
           | Throw (ThrowAggregate _ _) => False
           end
  | None => True
  end.
Proof.
  destruct (run_sequential p commands o evs init) as [[[st result] rest]|] eqn:H; [|exact I].
  exact (run_sequential_general p o commands evs init st result rest eq_refl H).
Qed.

(** ** The exit code and the promises *)

Lemma await_all_decompose (evs : list event) : forall st st' rest,
  await_all evs st = Some (st', rest) ->
  exists consumed,
    evs = consumed ++ rest /\ st' = handle_all consumed st /\ all_settled st' = true.
Proof.
  induction evs as [|ev evs IH]; intros st st' rest H; simpl in H.
  - destruct (all_settled st) eqn:E; [|discriminate].
    injection H as <- <-. exists []. auto.
  - destruct (all_settled st) eqn:E.
    + injection H as <- <-. exists []. auto.
    + destruct (IH _ _ _ H) as (consumed & -> & -> & Hs). exists (ev :: consumed). auto.
Qed.

Lemma handle_rejections (ev : event) (st : state) :
  rejections_recorded st -> rejections_recorded (handle ev st).
Proof.
  destruct ev as [pid e]. intros H q ch e' Hlk Hpar Hrej.
  rewrite handle_children in Hlk. rewrite handle_errors. apply List.in_app_iff.
  destruct (decide (q = pid)) as [->|Hne].
  - rewrite list_lookup_alter_eq in Hlk.
    destruct (children st !! pid) as [ch0|] eqn:E0; simpl in Hlk; [|discriminate].
    injection Hlk as <-. simpl in Hpar, Hrej. rewrite Hpar.
    destruct (ch_promise ch0) as [| |e0] eqn:Ep; simpl in Hrej |- *.
    + right. destruct e as [s t|err|code]; simpl; [discriminate| |].
      * injection Hrej as <-. left. reflexivity.
      * destruct (is_zero code); [discriminate|]. injection Hrej as <-. left. reflexivity.
    + discriminate.
    + left. apply (H pid ch0 e' E0 Hpar). congruence.
  - rewrite list_lookup_alter_ne in Hlk by congruence.
    left. exact (H q ch e' Hlk Hpar Hrej).
Qed.

Lemma handle_errors_rejected (ev : event) (st : state) :
  errors_rejected st -> errors_rejected (handle ev st).
Proof.
  destruct ev as [pid e]. intros H e' Hin.
  rewrite handle_errors in Hin. apply List.in_app_iff in Hin.
  destruct Hin as [Hin|Hin].
  - destruct (H e' Hin) as (q & ch & Hlk & Hrej).
    destruct (decide (q = pid)) as [->|Hne].
    + exists pid, (step_child e ch). split.
      * rewrite handle_children, list_lookup_alter_eq, Hlk. reflexivity.
      * simpl. rewrite Hrej. reflexivity.
    + exists q, ch. split; [|exact Hrej].
      rewrite handle_children, list_lookup_alter_ne by congruence. exact Hlk.
  - destruct (children st !! pid) as [ch|] eqn:E0; [|destruct Hin].
    destruct (ch_parallel ch); [|destruct Hin].
    destruct (ch_promise ch) as [| |e0] eqn:Ep; simpl in Hin; [|destruct Hin..].
    exists pid, (step_child e ch). split.
    + rewrite handle_children, list_lookup_alter_eq, E0. reflexivity.
    + simpl. rewrite Ep. simpl.
      destruct e as [s t|err|code]; simpl in Hin |- *; [destruct Hin| |].
      * destruct Hin as [<-|[]]. reflexivity.
      * destruct (is_zero code); [destruct Hin|]. destruct Hin as [<-|[]]. reflexivity.
Qed.

Lemma handle_all_rejections (evs : list event) : forall st,
  rejections_recorded st /\ errors_rejected st ->
  rejections_recorded (handle_all evs st) /\ errors_rejected (handle_all evs st).
Proof.
  induction evs as [|ev evs IH]; intros st [H1 H2]; [auto|].
  rewrite handle_all_cons. apply IH.
  split; [apply handle_rejections|apply handle_errors_rejected]; assumption.
Qed.

(** The parallel branch returns exactly when every promise is
    resolved. *)
Lemma parallel_outcome (p : process) (o : RunOptions) (commands : list string)
    (evs rest : list event) (st : state) (result : completion) :
  parallel o = true ->
  run_parallel p commands o evs init = Some (st, result, rest) ->
  map ch_command (children st) = commands
  /\ spawns st = map (fun c => spawn_of p c o) commands
  /\ (result = Return <-> all_resolved st).
Proof.
  intros Hpar H. unfold run_parallel in H.
  destruct (await_all evs _) as [[st2 rest2]|] eqn:Haw; [|discriminate].
  injection H as <- <- _.
  destruct (await_all_decompose _ _ _ _ Haw) as (consumed & _ & -> & Hall).
  destruct (start_all_init p o commands Hpar) as (Hsh & _ & _ & _ & Hpend & Herr & Hsp & _).
  cbv zeta in *. set (st1 := start_all p commands o init) in *.
  destruct (flushAll_spec (handle_all consumed st1)) as (_ & _ & Hfs & Hfc & Hfe).
  assert (Hshape : shape (handle_all consumed st1) = map (fun c => (c, true)) commands)
    by (rewrite handle_all_shape; exact Hsh).
  destruct (handle_all_rejections consumed st1) as [Hrec Hrej].
  { split.
    - intros q ch e Hlk _ He. generalize (Hpend q). unfold promise_of. rewrite Hlk. congruence.
    - intros e He. rewrite Herr in He. destruct He. }
  unfold all_resolved. rewrite Hfc, Hfs, Hfe, handle_all_spawns.
  split; [|split; [exact Hsp|]].
  - transitivity (map fst (shape (handle_all consumed st1))).
    + unfold shape. rewrite map_map. reflexivity.
    + rewrite Hshape, map_map. simpl. apply map_id.
  - split.
    + intros Hret. assert (He : errors (handle_all consumed st1) = []).
      { destruct (errors (handle_all consumed st1)) as [|e1 [|e2 es]]; [reflexivity|discriminate..]. }
      apply List.Forall_forall. intros ch Hin.
      apply list_elem_of_In, list_elem_of_lookup in Hin. destruct Hin as [q Hlk].
      assert (Hp : ch_parallel ch = true).
      { assert (Hs : shape (handle_all consumed st1) !! q = Some (ch_command ch, ch_parallel ch))
          by (unfold shape; rewrite list_lookup_fmap, Hlk; reflexivity).
        rewrite Hshape, list_lookup_fmap in Hs.
        destruct (commands !! q); simpl in Hs; congruence. }
      assert (Hset : settled (ch_promise ch) = true).
      { unfold all_settled in Hall. rewrite forallb_forall in Hall. apply Hall.
        apply list_elem_of_In. eapply list_elem_of_lookup_2. exact Hlk. }
      destruct (ch_promise ch) as [| |e] eqn:Ep; [discriminate|reflexivity|].
      generalize (Hrec q ch e Hlk Hp Ep). rewrite He. intros [].
    + intros Hres. destruct (errors (handle_all consumed st1)) as [|e es] eqn:He; [reflexivity|].
      destruct (Hrej e) as (q & ch & Hlk & Hr); [rewrite He; left; reflexivity|].
      rewrite List.Forall_forall in Hres.
      assert (Hin : In ch (children (handle_all consumed st1)))
        by (apply list_elem_of_In; eapply list_elem_of_lookup_2; exact Hlk).
      apply Hres in Hin. congruence.
Qed.

(** The sequential branch returns exactly when every promise is
    resolved. *)
Lemma sequential_outcome (p : process) (o : RunOptions) (commands : list string)
    (evs rest : list event) (st : state) (result : completion) :
  run_sequential p commands o evs init = Some (st, result, rest) ->
  (result = Return <-> all_resolved st)
  /\ (result = Return ->
      map ch_command (children st) = commands
      /\ spawns st = map (fun c => spawn_of p c (sequential o)) commands).
Proof.
  intros H.
  destruct (run_sequential_general p o commands evs init st result rest eq_refl H)
    as (started & Hsp & Hres).
  simpl in Hsp, Hres. unfold all_resolved.
  destruct result as [|[e|es m]]; [| |destruct Hres].
  - destruct Hres as [-> Hch]. rewrite Hch. split; [split; [intros _|reflexivity]|intros _; split].
    + apply List.Forall_forall. intros ch Hin. apply in_map_iff in Hin.
      destruct Hin as (c & <- & _). reflexivity.
    + rewrite map_map. simpl. apply map_id.
    + exact Hsp.
  - destruct Hres as (done & c & later & -> & -> & Hch). rewrite Hch.
    split; [split|]; [discriminate| |discriminate].
    intros Hf. rewrite List.Forall_forall in Hf.
    specialize (Hf {| ch_command := c; ch_parallel := false; ch_promise := Rejected e |}).
    simpl in Hf. discriminate Hf. apply List.in_app_iff. right. left. reflexivity.
Qed.

(** [run] with the scripts read returns exactly when every promise is
    resolved, and then it has started every resolved command. *)
Lemma run_scripts_outcome (p : process) (R : scripts) (patterns : list string)
    (o : RunOptions) (evs rest : list event) (st : state) (result : completion) :
  run p (Scripts R) patterns o evs = Some (st, result, rest) ->
  exists commands,
    resolveCommands R patterns = Some commands
    /\ (result = Return <-> all_resolved st)
    /\ (result = Return ->
        map ch_command (children st) = commands
        /\ map sp_args (spawns st)
           = map (fun c => ["run"] ++ npmOptions (silent o) ++ [c]) commands).
Proof.
  unfold run. destruct (resolveCommands_total R patterns) as [commands Hres]. rewrite Hres.
  intros Hrun. exists commands. split; [reflexivity|].
  destruct (parallel o && (1 <? length commands)%nat) eqn:Eb.
  - apply andb_prop in Eb. destruct Eb as [Hpar _].
    destruct (parallel_outcome p o commands evs rest st result Hpar Hrun) as (Hc & Hs & Hiff).
    split; [exact Hiff|]. intros _. split; [exact Hc|]. rewrite Hs, map_map. reflexivity.
  - destruct (sequential_outcome p o commands evs rest st result Hrun) as (Hiff & Hret).
    split; [exact Hiff|]. intros Hr. destruct (Hret Hr) as [Hc Hs].
    split; [exact Hc|]. rewrite Hs, map_map. reflexivity.
Qed.

(** X11. [main], when it ends, returns 0 in these cases only:
    [parseArgs] returned and [--help] or [--version] was given; or
    [parseArgs] returned, a command was named, the scripts of a
    [package.json] were read, and the promise of every child that was
    started is resolved (in both branches of [run]). In the second case
    it started one child for every resolved command, in their order,
    each with the arguments [run [-s] command], and printed no error.
    When [parseArgs] throws, or when [package.json] is not found, cannot
    be read or parsed or has no scripts object, no child is started. *)
Theorem X11_exit_zero_all_resolved (p : process) (m : manifest) (args : parsed)
    (evs : list event) :
  match main p m args evs with
  | Some (code, printed, st) =>
      (code = 0%Z <->
       exists a,
         args = Parsed a
         /\ (arg_help a = true \/ arg_version a = true
             \/ (positionals a <> [] /\ (exists R, m = Scripts R) /\ all_resolved st)))
      /\ (forall a,
            code = 0%Z -> args = Parsed a -> arg_help a = false -> arg_version a = false ->
            exists R commands,
              m = Scripts R
              /\ resolveCommands R (positionals a) = Some commands
              /\ map ch_command (children st) = commands
              /\ map sp_args (spawns st)
                 = map (fun c => ["run"] ++ npmOptions (arg_silent a) ++ [c]) commands
              /\ printed = [])
      /\ ((exists e, args = Refused e) \/ (forall R, m <> Scripts R) ->
          spawns st = [] /\ children st = [])
  | None => True
  end.
Proof.
  destruct args as [e|a].
  { simpl. split; [split; [discriminate|intros (a & H & _); discriminate]|].
    split; [discriminate|]. auto. }
  unfold main.
  destruct (arg_help a) eqn:Hh.
  { split; [split; [intros _; exists a; auto|reflexivity]|].
    split; [intros a' _ [= <-]; congruence|]. auto. }
  destruct (arg_version a) eqn:Hv.
  { split; [split; [intros _; exists a; auto|reflexivity]|].
    split; [intros a' _ [= <-]; congruence|]. auto. }
  destruct (positionals a) as [|x xs] eqn:Epos.
  { split; [split; [discriminate|]|split; [discriminate|auto]].
    intros (a' & [= <-] & [H|[H|[H _]]]); congruence. }
  rewrite <- Epos in *.
  assert (Hne : positionals a <> []) by (rewrite Epos; discriminate).
  destruct m as [|e|R].
  - simpl. split; [split; [discriminate|]|split; [discriminate|auto]].
    intros (a' & [= <-] & [H|[H|(_ & [R HR] & _)]]); congruence.
  - simpl. split; [split; [discriminate|]|split; [discriminate|auto]].
    intros (a' & [= <-] & [H|[H|(_ & [R HR] & _)]]); congruence.
  - destruct (run p (Scripts R) (positionals a) _ evs) as [[[st result] rest]|] eqn:Hrun;
      [|exact I].
    destruct (run_scripts_outcome _ _ _ _ _ _ _ _ Hrun) as (commands & Hres & Hiff & Hret).
    assert (Hno : (exists e, Parsed a = Refused e) \/ (forall R0, Scripts R <> Scripts R0) ->
                  spawns st = [] /\ children st = []).
    { intros [[e He]|H]; [discriminate|]. exfalso. apply (H R). reflexivity. }
    destruct result as [|t].
    + split; [split; [intros _|reflexivity]|split; [|exact Hno]].
      * exists a. split; [reflexivity|]. right. right.
        split; [exact Hne|]. split; [exists R; reflexivity|]. apply Hiff. reflexivity.
      * intros a0 _ [= <-] _ _. destruct (Hret eq_refl) as [Hc Hs].
        exists R, commands. auto.
    + split; [split; [discriminate|]|split; [discriminate|exact Hno]].
      intros (a0 & [= <-] & [H|[H|(_ & _ & Hr)]]); [congruence..|].
      apply Hiff in Hr. discriminate.
Qed.

Lemma X11_witness :
  exists st,
    main sample_process (Scripts sample_scripts)
         (Parsed {| arg_parallel := true; arg_silent := true; arg_help := false;
                    arg_version := false; positionals := ["build:schema:*"] |})
         [ (1%nat, Close (Some 0%Z)); (0%nat, Close (Some 0%Z)) ]
    = Some (0%Z, [], st)
    /\ all_resolved st
    /\ map sp_args (spawns st)
       = [ ["run"; "-s"; "build:schema:a"]; ["run"; "-s"; "build:schema:b"] ].
Proof.
  generalize (X11_exit_zero_all_resolved sample_process (Scripts sample_scripts)
                (Parsed {| arg_parallel := true; arg_silent := true; arg_help := false;
                           arg_version := false; positionals := ["build:schema:*"] |})
                [ (1%nat, Close (Some 0%Z)); (0%nat, Close (Some 0%Z)) ]).
  destruct (main _ _ _ _) as [[[code printed] st]|] eqn:E;
    [|vm_compute in E; discriminate E].
  assert (Hc : code = 0%Z /\ printed = [])
    by (vm_compute in E; injection E as <- <- _; split; reflexivity).
  destruct Hc as [-> ->]. intros (Hiff & Hrun & _).
  exists st. split; [reflexivity|].
  destruct (proj1 Hiff eq_refl) as (a & [= <-] & [H|[H|(_ & _ & Hall)]]);
    [discriminate H..|].
  split; [exact Hall|].
  destruct (Hrun _ eq_refl eq_refl eq_refl eq_refl) as (R & commands & [= <-] & Hres & _ & Hsp & _).
  vm_compute in Hres. injection Hres as <-. exact Hsp.
Defined.

(** A [package.json] without a [scripts] object: [Object.keys] throws,
    [main] prints the message and returns 1, and nothing is started. *)
Example main_without_scripts :
  main sample_process
       (Unusable {| message := "Cannot convert undefined or null to object" |})
       (Parsed {| arg_parallel := false; arg_silent := false; arg_help := false;
                  arg_version := false; positionals := ["build"] |})
       [ (0%nat, Close (Some 0%Z)) ]
  = Some (1%Z, ["run: Cannot convert undefined or null to object"], init).
Proof. reflexivity. Qed.

(** ** A promise is settled once *)

(** X12. The first ['error'] or ['close'] of a child decides its
    promise. Whatever events follow, of this child or of others, the
    promise stays as that first one left it, and no later event of this
    child changes it or records another error: an ['error'] followed by
    a ['close'] with code 0 leaves the promise rejected, and a ['close']
    followed by an ['error'] leaves the exit code's verdict. *)
Theorem X12_first_outcome_stands (st : state) (pid : nat) (ch : child) (first : child_event)
    (evs : list event) :
  children st !! pid = Some ch -> ch_promise ch = Pending -> is_final first = true ->
  let st' := handle_all evs (handle (pid, first) st) in
  promise_of pid st' = step_promise (ch_command ch) first Pending
  /\ settled (promise_of pid st') = true
  /\ forall later,
       promise_of pid (handle (pid, later) st') = promise_of pid st'
       /\ errors (handle (pid, later) st') = errors st'.
Proof.
  intros Hlk Hp Hfin st'.
  assert (H1 : promise_of pid (handle (pid, first) st)
               = step_promise (ch_command ch) first Pending).
  { unfold promise_of. rewrite handle_children, list_lookup_alter_eq, Hlk. simpl.
    rewrite Hp. reflexivity. }
  assert (Hs : settled (step_promise (ch_command ch) first Pending) = true).
  { destruct first as [s t|err|code]; simpl in *; [discriminate|reflexivity|].
    destruct (is_zero code); reflexivity. }
  assert (H2 : promise_of pid st' = step_promise (ch_command ch) first Pending).
  { unfold st'. rewrite promise_of_handle_all_settled; rewrite H1; [reflexivity|exact Hs]. }
  split; [exact H2|]. split; [rewrite H2; exact Hs|].
  intros later. split.
  - apply promise_of_handle_settled. rewrite H2. exact Hs.
  - rewrite handle_errors. rewrite <- H2 in Hs. unfold promise_of in Hs.
    destruct (children st' !! pid) as [ch'|]; [|apply app_nil_r].
    rewrite Hs, andb_false_r. apply app_nil_r.
Qed.

Lemma X12_witness :
  promise_of 0 (handle_all [ (0%nat, Close (Some 0%Z)) ]
                           (handle (0%nat, Errored {| message := "spawn npm ENOENT" |})
                                   (runCommand sample_process "lint" in_parallel init)))
  = Rejected {| message := "spawn npm ENOENT" |}.
Proof.
  exact (proj1 (X12_first_outcome_stands
                  (runCommand sample_process "lint" in_parallel init) 0
                  {| ch_command := "lint"; ch_parallel := true; ch_promise := Pending |}
                  (Errored {| message := "spawn npm ENOENT" |})
                  [ (0%nat, Close (Some 0%Z)) ] eq_refl eq_refl eq_refl)).
Defined.
